(** * how-my-heart: the ECG ingestion and risk-scoring pipeline of [App.jsx]

    A shallow embedding of [src/web/how-my-heart/src/App.jsx]:
    the line framer ([LineBreakTransformer]), the record parser and the
    sample/beat stores (the read loop of [connectSerial]), the rhythm
    estimator and risk scorer ([computeStats], [compute]), the session
    flags ([connectSerial], [disconnectSerial], [startMonitoring]) and the
    drawing code ([drawCanvas], [Gauge], [HealthGauge], [Heart3D]).

    Conventions of the embedding.
    - A JavaScript string is a [string] of 8-bit characters; the separator
      of the framer is the line feed, character 10.
    - A JavaScript number is an IEEE 754 binary64 double, the primitive
      [float]: [+], [-], [*], [/] and [Math.sqrt] are the correctly rounded
      operations of [PrimFloat], with the two zeros, the infinities and
      [NaN]; [<], [<=] and [>] are its comparisons, false on [NaN]. A
      number that may be [null] is an [option float].
    - [parseInt] and [parseFloat] yield the double nearest to the numeral
      they read, every digit of it taken into account, [NaN] when there is
      none.
    - [Date.now()] yields an integer number of milliseconds and is kept as
      an integer ([Z]); the difference of two beat timestamps is the double
      nearest to their integer difference, which is what the subtraction of
      doubles yields for timestamps that doubles hold exactly (all integers
      up to 2^53; a time value is at most 8.64e15 in magnitude).
    - React state ([useState]), refs ([useRef]) and the global
      [window.arduinoIrregularity] are the fields of one record that every
      handler takes and returns; the canvas of [canvasRef] is an argument of
      [drawCanvas], and [showHealthInfo], [lastBeatTime] and [peakThreshold],
      which no function modelled here reads, are left out. *)

From Stdlib Require Import Floats.
From Stdlib Require Import List ZArith Reals Zfloor Lra Lia Bool Ascii String.
From Stdlib Require Import Sorted.
Import ListNotations.
Close Scope R_scope.

Set Implicit Arguments.

(** ** Line framer: [class LineBreakTransformer] (App.jsx 4-15) *)

Module LineBreakTransformer.

Definition LF : ascii := Ascii.ascii_of_nat 10.

(** [s.split(sep)] for a one-character separator: the segments between
    successive separators; never the empty array. *)
Fixpoint split (sep : ascii) (s : string) : list string :=
  match s with
  | EmptyString => [EmptyString]
  | String c r =>
      if Ascii.eqb c sep then EmptyString :: split sep r
      else match split sep r with
           | [] => [String c EmptyString]
           | h :: t => String c h :: t
           end
  end.

(** The transformer: its [container] field, and next to it the queue of the
    stream controller that [enqueue] appends to. *)
Record t := mk { container : string; enqueued : list string }.

(** [constructor() { this.container = '' }] *)
Definition init : t := mk EmptyString [].

(** [transform(chunk, controller)] *)
Definition transform (st : t) (chunk : string) : t :=
  let buf := (container st ++ chunk)%string in
  let lines := split LF buf in
  mk (last lines EmptyString) (enqueued st ++ removelast lines).

(** [flush(controller)]: the empty string is falsy. *)
Definition flush (st : t) : t :=
  match container st with
  | EmptyString => st
  | String _ _ => mk (container st) (enqueued st ++ [container st])
  end.

(** The chunks of a stream fed in arrival order, then the stream closed. *)
Definition feed (chunks : list string) : t := fold_left transform chunks init.
Definition run (chunks : list string) : list string := enqueued (flush (feed chunks)).

(** The text a sequence of chunks carries. *)
Definition text_of (chunks : list string) : string :=
  fold_right String.append EmptyString chunks.

(** Number of occurrences of a character. *)
Fixpoint count (c : ascii) (s : string) : nat :=
  match s with
  | EmptyString => 0
  | String a r => (if Ascii.eqb a c then 1 else 0) + count c r
  end.

(** [lines.join(sep)] with a separator after every line, the last included. *)
Definition terminated (sep : ascii) (ls : list string) : string :=
  fold_right (fun l acc => (l ++ String sep acc)%string) EmptyString ls.

End LineBreakTransformer.

(** ** Doubles *)

(** The vocabulary in which the arithmetic of doubles is specified: the
    real number a double stands for, and the rounding of a real number to
    the nearest double, a tie going to the even mantissa. *)
Module IEEE.

Definition bpow (e : Z) : R := powerRZ 2 e.

(** The exponent of the last binary digit kept for a number below [2^k]. *)
Definition fexp (k : Z) : Z := SpecFloat.fexp prec emax k.

(** [n] is the integer nearest to [x], the even one on a tie. *)
Definition is_RNE (x : R) (n : Z) : Prop :=
  (IZR n - / 2 <= x <= IZR n + / 2)%R
  /\ (x = (IZR n - / 2)%R \/ x = (IZR n + / 2)%R -> Z.even n = true).

(** [r] is [v], a positive number, rounded to 53 significant binary digits
    (fewer below [2^-1022]), the exponent not bounded from above. *)
Definition Rrnd (v r : R) : Prop :=
  exists k n, (bpow (k - 1) <= v < bpow k)%R
              /\ is_RNE (v * bpow (- fexp k)) n
              /\ r = (IZR n * bpow (fexp k))%R.

(** [r] is the value of the double nearest to [v]; an infinity is given the
    value [2^1024], the first power of two that is no double. *)
Definition R64 (v r : R) : Prop :=
  (v = 0 /\ r = 0)%R
  \/ (0 < v /\ exists r0, Rrnd v r0 /\ r = Rmin r0 (bpow 1024))%R
  \/ (v < 0 /\ exists r0, Rrnd (- v) r0 /\ r = - Rmin r0 (bpow 1024))%R.

Definition SF2R (f : spec_float) : R :=
  match f with
  | S754_finite s m e => (if s then - IZR (Zpos m) else IZR (Zpos m)) * bpow e
  | S754_infinity s => if s then - bpow 1024 else bpow 1024
  | _ => 0
  end%R.

(** The value of a double: 0 for the zeros and for [NaN], plus or minus
    [2^1024] for the infinities. *)
Definition V (x : float) : R := SF2R (Prim2SF x).

(** Where a real number lies between an integer and its successor. *)
Definition loc_at (x : R) (m : Z) (l : location) : Prop :=
  match l with
  | loc_Exact => x = IZR m
  | loc_Inexact Lt => IZR m < x < IZR m + / 2
  | loc_Inexact Eq => x = IZR m + / 2
  | loc_Inexact Gt => IZR m + / 2 < x < IZR m + 1
  end%R.

(** A well-formed double of sign [s] that stands for the magnitude [r]. *)
Definition SFok (s : bool) (r : R) (f : spec_float) : Prop :=
  valid_binary f = true /\
  match f with
  | S754_zero s' => s' = s /\ r = 0%R
  | S754_finite s' m e => s' = s /\ r = (IZR (Zpos m) * bpow e)%R
  | S754_infinity s' => s' = s /\ (bpow 1024 <= r)%R
  | S754_nan => False
  end.

Definition finite_SF (f : spec_float) : Prop :=
  match f with
  | S754_zero _ => True
  | S754_finite _ _ _ => True
  | _ => False
  end.

(** A number that is no [NaN] and not below zero; a finite number above
    zero; a finite number of magnitude at most [2^j]. *)
Definition nonneg (x : float) : Prop := is_nan x = false /\ (0 <= V x)%R.
Definition posfin (c : float) : Prop := is_finite c = true /\ (0 < V c)%R.
Definition within (x : float) (j : Z) : Prop :=
  is_finite x = true /\ (- bpow j <= V x <= bpow j)%R.

(** A function on doubles that keeps their order, the infinities and
    [-0] = [+0] included, and never yields [NaN] on a number. *)
Definition monotone (f : float -> float) : Prop :=
  forall x y, is_nan x = false -> is_nan y = false -> (V x <= V y)%R ->
              (V (f x) <= V (f y))%R /\ is_nan (f x) = false /\ is_nan (f y) = false.
Definition antitone (f : float -> float) : Prop :=
  forall x y, is_nan x = false -> is_nan y = false -> (V x <= V y)%R ->
              (V (f y) <= V (f x))%R /\ is_nan (f x) = false /\ is_nan (f y) = false.

Definition Rcompare (x y : R) : comparison :=
  match total_order_T x y with
  | inleft (left _) => Lt
  | inleft (right _) => Eq
  | inright _ => Gt
  end.

End IEEE.

(** The number functions of JavaScript that the component calls. *)
Module Number.

(** The double nearest to an integer. *)
Definition of_Z (z : Z) : float := SF2Prim (binary_normalize prec emax z 0 false).
Definition of_nat (n : nat) : float := of_Z (Z.of_nat n).

(** The double nearest to the quotient of two integers. *)
Definition of_ratio (n : Z) (d : positive) : float :=
  match n with
  | Z0 => 0%float
  | Zpos p => SF2Prim (SFdiv prec emax (S754_finite false p 0) (S754_finite false d 0))
  | Zneg p => SF2Prim (SFdiv prec emax (S754_finite true p 0) (S754_finite false d 0))
  end.

(** [isNaN(x)]; a number is falsy when it is [NaN], [0] or [-0]. *)
Definition isNaN (x : float) : bool := is_nan x.
Definition truthy (x : float) : bool := negb (is_nan x || is_zero x).

(** [Math.min(x, y)] and [Math.max(x, y)]: [NaN] when an argument is, and
    [-0] below [+0]. *)
Definition min (x y : float) : float :=
  if is_nan x || is_nan y then nan
  else if (x <? y)%float then x
  else if (y <? x)%float then y
  else if get_sign x then x else y.

Definition max (x y : float) : float :=
  if is_nan x || is_nan y then nan
  else if (x <? y)%float then y
  else if (y <? x)%float then x
  else if get_sign x then y else x.

(** [Math.round(x)]: the integer nearest to [x], a tie going up; the
    result 0 keeps the sign of [x]; [NaN], the infinities and the zeros
    are returned as they are. *)
Definition round (x : float) : float :=
  match Prim2SF x with
  | S754_finite s m e =>
      if (0 <=? e)%Z then x
      else
        let n := ((2 * cond_Zopp s (Zpos m) + 2 ^ (- e)) / 2 ^ (1 - e))%Z in
        if (n =? 0)%Z then (if s then neg_zero else 0%float) else of_Z n
  | _ => x
  end.

(** [Math.PI] *)
Definition PI : float := 0x1.921fb54442d18p+1%float.

End Number.

(** ** The built-in string functions the read loop calls *)

Module JS.

Definition code (c : ascii) : nat := Ascii.nat_of_ascii c.

(** White space and line terminators among the 8-bit characters: TAB, LF,
    VT, FF, CR, SP and NBSP. *)
Definition isWhite (c : ascii) : bool :=
  let n := code c in
  ((9 <=? n) && (n <=? 13) || (n =? 32) || (n =? 160))%nat.

Fixpoint trimStart (s : string) : string :=
  match s with
  | EmptyString => EmptyString
  | String c r => if isWhite c then trimStart r else s
  end.

Fixpoint trimEnd (s : string) : string :=
  match s with
  | EmptyString => EmptyString
  | String c r =>
      match trimEnd r with
      | EmptyString => if isWhite c then EmptyString else String c EmptyString
      | r' => String c r'
      end
  end.

(** [s.trim()] *)
Definition trim (s : string) : string := trimEnd (trimStart s).

(** [s.includes(sub)] *)
Fixpoint includes (s sub : string) : bool :=
  String.prefix sub s ||
  match s with
  | EmptyString => false
  | String _ r => includes r sub
  end.

(** [s.split(',')] *)
Definition comma : ascii := Ascii.ascii_of_nat 44.
Definition split_commas (s : string) : list string := LineBreakTransformer.split comma s.

(** Value of a character as a digit of the given radix. *)
Definition digit_value (radix : Z) (c : ascii) : option Z :=
  let n := Z.of_nat (code c) in
  let v := (if (48 <=? n) && (n <=? 57) then Some (n - 48)
            else if (97 <=? n) && (n <=? 122) then Some (n - 87)
            else if (65 <=? n) && (n <=? 90) then Some (n - 55)
            else None)%Z in
  match v with
  | Some d => if (d <? radix)%Z then Some d else None
  | None => None
  end.

(** The longest prefix of digits of the radix, read most significant digit
    first: the digits read so far as a number, how many, and the rest. *)
Fixpoint digits (radix : Z) (acc : Z) (n : nat) (s : string) : Z * nat * string :=
  match s with
  | EmptyString => (acc, n, s)
  | String c r =>
      match digit_value radix c with
      | Some d => digits radix (acc * radix + d)%Z (S n) r
      | None => (acc, n, s)
      end
  end.

(** An optional sign: [true] for a minus. *)
Definition sign (s : string) : bool * string :=
  match s with
  | String c r =>
      if Ascii.eqb c "-" then (true, r)
      else if Ascii.eqb c "+" then (false, r)
      else (false, s)
  | EmptyString => (false, s)
  end.

(** A number with the sign read before it. *)
Definition signed (neg : bool) (x : float) : float := if neg then (- x)%float else x.

(** The text after a [0x] or [0X] prefix. *)
Definition hex_prefix (s : string) : option string :=
  match s with
  | String c0 (String c1 r) =>
      if Ascii.eqb c0 "0" && (Ascii.eqb c1 "x" || Ascii.eqb c1 "X") then Some r else None
  | _ => None
  end.

(** [parseInt(s)] without a radix: leading white space, a sign, a [0x]
    prefix selecting radix 16, then the longest run of digits; [NaN] when
    that run is empty, else the double nearest to the integer read. *)
Definition parseInt (s : string) : float :=
  let (neg, s1) := sign (trimStart s) in
  let (radix, s2) := match hex_prefix s1 with
                     | Some r => (16, r)
                     | None => (10, s1)
                     end%Z in
  match digits radix 0%Z 0 s2 with
  | (_, O, _) => nan
  | (v, S _, _) => signed neg (Number.of_Z v)
  end.

(** The exponent part [e], [E] with an optional sign and at least one
    digit; 0 when the text does not continue with a complete one. *)
Definition exponent (s : string) : Z :=
  match s with
  | String c r =>
      if (Ascii.eqb c "e" || Ascii.eqb c "E")%bool then
        let (neg, r1) := sign r in
        match digits 10 0 0%nat r1 with
        | (_, O, _) => 0
        | (v, S _, _) => if neg then - v else v
        end
      else 0
  | EmptyString => 0
  end%Z.

(** The double nearest to [m * 10^e]. *)
Definition decimal_value (m e : Z) : float :=
  match e with
  | Zneg p => Number.of_ratio m (Pos.pow 10 p)
  | _ => Number.of_Z (m * 10 ^ e)
  end.

(** [parseFloat(s)]: leading white space, a sign, then [Infinity] or the
    longest prefix that is a decimal literal, [digits . digits exponent]
    with a digit on at least one side of the point; [NaN] when there is
    neither. *)
Definition parseFloat (s : string) : float :=
  let (neg, s1) := sign (trimStart s) in
  if String.prefix "Infinity" s1 then signed neg infinity
  else
    let '(ip, ni, s2) := digits 10%Z 0%Z 0 s1 in
    let '(m, nf, s3) := match s2 with
                        | String c r =>
                            if Ascii.eqb c "." then digits 10%Z ip 0 r else (ip, O, s2)
                        | EmptyString => (ip, O, s2)
                        end in
    match ni, nf with
    | O, O => nan
    | _, _ => signed neg (decimal_value m (exponent s3 - Z.of_nat nf))
    end.

End JS.

(** ** The component: state, stores, scorer and session handlers *)

Module App.

(** [healthCategory.level]: the initial ['--'] and the four the scorer sets. *)
Inductive Level := Unset | InsufficientData | Normal | Moderate | High.

Definition level_text (l : Level) : string :=
  match l with
  | Unset => "--"
  | InsufficientData => "Insufficient data"
  | Normal => "Normal"
  | Moderate => "Moderate"
  | High => "High"
  end.

Record health := mkHealth { level : Level; score : float; desc : string }.
Record points := mkPoints { brady : float; tachy : float; irregularity : float }.

(** The [useState] cells, the [useRef] arrays and the global
    [window.arduinoIrregularity] ([None]: undefined). [port] tells whether
    a port object is held; a [null] number is [None]. *)
Record app := mkApp {
  port : bool;
  bpm : option float;
  lastSerialLine : string;
  lastParsedBpm : option float;
  lastParsedIrr : option float;
  healthCategory : health;
  breakdown : points;
  calibrating : bool;
  monitoringActive : bool;
  samplesRef : list float;
  samples2Ref : list float;
  beatsRef : list Z;
  arduinoIrregularity : option (list float)
}.

(** The state of a freshly mounted component (App.jsx 25-38). *)
Definition initial : app :=
  mkApp false None EmptyString None None (mkHealth Unset 0 EmptyString)
        (mkPoints 0 0 0) false false [] [] [] None.

Definition setPort v (a : app) :=
  mkApp v (bpm a) (lastSerialLine a) (lastParsedBpm a) (lastParsedIrr a) (healthCategory a)
        (breakdown a) (calibrating a) (monitoringActive a) (samplesRef a) (samples2Ref a)
        (beatsRef a) (arduinoIrregularity a).
Definition setBpm v (a : app) :=
  mkApp (port a) v (lastSerialLine a) (lastParsedBpm a) (lastParsedIrr a) (healthCategory a)
        (breakdown a) (calibrating a) (monitoringActive a) (samplesRef a) (samples2Ref a)
        (beatsRef a) (arduinoIrregularity a).
Definition setLastSerialLine v (a : app) :=
  mkApp (port a) (bpm a) v (lastParsedBpm a) (lastParsedIrr a) (healthCategory a)
        (breakdown a) (calibrating a) (monitoringActive a) (samplesRef a) (samples2Ref a)
        (beatsRef a) (arduinoIrregularity a).
Definition setLastParsedBpm v (a : app) :=
  mkApp (port a) (bpm a) (lastSerialLine a) v (lastParsedIrr a) (healthCategory a)
        (breakdown a) (calibrating a) (monitoringActive a) (samplesRef a) (samples2Ref a)
        (beatsRef a) (arduinoIrregularity a).
Definition setLastParsedIrr v (a : app) :=
  mkApp (port a) (bpm a) (lastSerialLine a) (lastParsedBpm a) v (healthCategory a)
        (breakdown a) (calibrating a) (monitoringActive a) (samplesRef a) (samples2Ref a)
        (beatsRef a) (arduinoIrregularity a).
Definition setHealthCategory v (a : app) :=
  mkApp (port a) (bpm a) (lastSerialLine a) (lastParsedBpm a) (lastParsedIrr a) v
        (breakdown a) (calibrating a) (monitoringActive a) (samplesRef a) (samples2Ref a)
        (beatsRef a) (arduinoIrregularity a).
Definition setBreakdown v (a : app) :=
  mkApp (port a) (bpm a) (lastSerialLine a) (lastParsedBpm a) (lastParsedIrr a) (healthCategory a)
        v (calibrating a) (monitoringActive a) (samplesRef a) (samples2Ref a)
        (beatsRef a) (arduinoIrregularity a).
Definition setCalibrating v (a : app) :=
  mkApp (port a) (bpm a) (lastSerialLine a) (lastParsedBpm a) (lastParsedIrr a) (healthCategory a)
        (breakdown a) v (monitoringActive a) (samplesRef a) (samples2Ref a)
        (beatsRef a) (arduinoIrregularity a).
Definition setMonitoringActive v (a : app) :=
  mkApp (port a) (bpm a) (lastSerialLine a) (lastParsedBpm a) (lastParsedIrr a) (healthCategory a)
        (breakdown a) (calibrating a) v (samplesRef a) (samples2Ref a)
        (beatsRef a) (arduinoIrregularity a).
Definition setSamples v (a : app) :=
  mkApp (port a) (bpm a) (lastSerialLine a) (lastParsedBpm a) (lastParsedIrr a) (healthCategory a)
        (breakdown a) (calibrating a) (monitoringActive a) v (samples2Ref a)
        (beatsRef a) (arduinoIrregularity a).
Definition setSamples2 v (a : app) :=
  mkApp (port a) (bpm a) (lastSerialLine a) (lastParsedBpm a) (lastParsedIrr a) (healthCategory a)
        (breakdown a) (calibrating a) (monitoringActive a) (samplesRef a) v
        (beatsRef a) (arduinoIrregularity a).
Definition setBeats v (a : app) :=
  mkApp (port a) (bpm a) (lastSerialLine a) (lastParsedBpm a) (lastParsedIrr a) (healthCategory a)
        (breakdown a) (calibrating a) (monitoringActive a) (samplesRef a) (samples2Ref a)
        v (arduinoIrregularity a).
Definition setArduinoIrregularity v (a : app) :=
  mkApp (port a) (bpm a) (lastSerialLine a) (lastParsedBpm a) (lastParsedIrr a) (healthCategory a)
        (breakdown a) (calibrating a) (monitoringActive a) (samplesRef a) (samples2Ref a)
        (beatsRef a) v.

(** *** Stores (App.jsx 321-350) *)

Definition MAX_SAMPLES : nat := 1500.

(** [arr.splice(0, n)]: the first [n] elements removed. *)
Definition splice0 {A} (n : nat) (arr : list A) : list A := skipn n arr.

(** [arr.shift()]: the first element removed. *)
Definition shift {A} (arr : list A) : list A := tl arr.

(** [arr.slice(-k)]: the last [k] elements, all of them when there are fewer. *)
Definition slice_last {A} (k : nat) (arr : list A) : list A :=
  skipn (List.length arr - k) arr.

(** Lines 322-328: both sample arrays grow by one; both are trimmed when
    the Lead II array is over [MAX_SAMPLES]. *)
Definition store_samples (val1 val2 : float) (a : app) : app :=
  let s := samplesRef a ++ [val2] in
  let s2 := samples2Ref a ++ [val1] in
  if (MAX_SAMPLES <? List.length s)%nat
  then setSamples2 (splice0 (List.length s2 - MAX_SAMPLES) s2)
         (setSamples (splice0 (List.length s - MAX_SAMPLES) s) a)
  else setSamples2 s2 (setSamples s a).

(** Lines 338-342. *)
Definition store_beat (now : Z) (a : app) : app :=
  let b := beatsRef a ++ [now] in
  setBeats (if (50 <? List.length b)%nat then splice0 (List.length b - 50) b else b) a.

(** Lines 346-350: the global array is created on first use; one element
    is shifted out when it is over 10. *)
Definition store_irregularity (v : float) (a : app) : app :=
  let h := match arduinoIrregularity a with
           | Some h => h
           | None => []
           end ++ [v] in
  setArduinoIrregularity (Some (if (10 <? List.length h)%nat then shift h else h)) a.

(** *** Record parser and read loop (App.jsx 295-358) *)

(** The four locals of lines 315-318; [None] is [null], the value of an
    optional field that the line does not have. *)
Record fields := mkFields {
  val1 : float;
  val2 : float;
  arduinoBPM : option float;
  arduinoIrr : option float
}.

Definition parse_fields (parts : list string) : fields :=
  mkFields
    (JS.parseFloat (nth 0 parts EmptyString))
    (JS.parseFloat (nth 1 parts EmptyString))
    (if (3 <=? List.length parts)%nat then Some (JS.parseInt (nth 2 parts EmptyString)) else None)
    (if (4 <=? List.length parts)%nat then Some (JS.parseFloat (nth 3 parts EmptyString)) else None).

(** Line 304. *)
Definition is_status (line : string) : bool :=
  JS.includes line "Calibration" || JS.includes line "Starting"
  || JS.includes line "Baseline" || JS.includes line "Gain".

(** Lines 320-356. [loopMonitoring] is the value of [monitoringActive]
    the running [connectSerial] call closed over; [now] is [Date.now()]. *)
Definition store_fields (loopMonitoring : bool) (now : Z) (f : fields) (a : app) : app :=
  if negb (Number.isNaN (val1 f)) && negb (Number.isNaN (val2 f)) then
    let a := store_samples (val1 f) (val2 f) a in
    match arduinoBPM f with
    | Some b =>
        if Number.truthy b && (0 <? b)%float then
          let a := setLastParsedBpm (Some b) (setBpm (Some b) a) in
          let a := store_beat now a in
          let a := match arduinoIrr f with
                   | Some i =>
                       if (0 <=? i)%float
                       then setLastParsedIrr (Some i) (store_irregularity i a)
                       else a
                   | None => a
                   end in
          if negb loopMonitoring then setMonitoringActive true a else a
        else a
    | None => a
    end
  else a.

(** One turn of the read loop on a value the reader returned (298-357). *)
Definition read_value (loopMonitoring : bool) (now : Z) (a : app) (value : string) : app :=
  match value with
  | EmptyString => a
  | _ =>
      let line := JS.trim value in
      let a := setLastSerialLine line a in
      if is_status line then
        if JS.includes line "Complete" then setCalibrating false a else a
      else
        let parts := JS.split_commas line in
        if (2 <=? List.length parts)%nat
        then store_fields loopMonitoring now (parse_fields parts) a
        else a
  end.

(** *** Rhythm estimator and risk scorer (App.jsx 17-22, 56-108) *)

(** [arr.reduce((a,b) => a+b, 0)] *)
Definition sum (arr : list float) : float := fold_left PrimFloat.add arr 0%float.

(** [computeStats(arr)]: mean and population standard deviation. *)
Definition computeStats (arr : list float) : float * float :=
  match arr with
  | [] => (0, 0)
  | _ =>
      let n := Number.of_nat (List.length arr) in
      let mean := sum arr / n in
      let sd := PrimFloat.sqrt (fold_left (fun a b => a + (b - mean) * (b - mean)) arr 0 / n) in
      (mean, sd)
  end%float.

(** Lines 73-74: [beats[i] - beats[i-1]] for [i] from 1. *)
Fixpoint ibis (beats : list Z) : list Z :=
  match beats with
  | t0 :: (t1 :: _) as rest => (t1 - t0)%Z :: ibis rest
  | _ => []
  end.

(** Line 58. *)
Definition hasArduinoIrr (a : app) : bool :=
  match arduinoIrregularity a with
  | Some (_ :: _) => true
  | _ => false
  end.

(** Lines 66-80: the irregularity figure. *)
Definition rhythm_irregularity (a : app) : float :=
  if hasArduinoIrr a then
    let recent := slice_last 5 (match arduinoIrregularity a with
                                | Some h => h
                                | None => []
                                end) in
    (sum recent / Number.of_nat (List.length recent))%float
  else
    let last := slice_last 8 (ibis (beatsRef a)) in
    let (mean, sd) := computeStats (map Number.of_Z last) in
    let cv := (if 0 <? mean then sd / mean else 0)%float in
    Number.min 1 (cv * 3)%float.

(** Line 83: [bpm || 70]; [null], 0 and [NaN] are falsy. *)
Definition heart_rate (a : app) : float :=
  match bpm a with
  | Some b => if Number.truthy b then b else 70
  | None => 70
  end%float.

Definition desc_normal : string :=
  "Heart rate and rhythm are within typical ranges.".
Definition desc_high : string :=
  "High concern: heart rate or rhythm suggest elevated risk — seek medical attention if symptomatic.".
Definition desc_moderate : string :=
  "Moderate concern: some abnormal findings. Consider monitoring and consulting a clinician.".
Definition desc_insufficient : string :=
  "Need at least 3 beats to assess rhythm.".

(** Lines 86-104: the three contributions, the clamped total and its
    category. *)
Definition assess (hr irr : float) : points * health :=
  let bradyScore := (if hr <? 50 then 40 else if hr <? 60 then 20 else 0)%float in
  let tachyScore := (if 120 <? hr then 40 else if 100 <? hr then 20 else 0)%float in
  let irrScore := Number.round (irr * 40)%float in
  let score := (bradyScore + tachyScore + irrScore)%float in
  let score := Number.max 0 (Number.min 100 score) in
  let (level, desc) :=
    if (70 <=? score)%float then (High, desc_high)
    else if (35 <=? score)%float then (Moderate, desc_moderate)
    else (Normal, desc_normal) in
  (mkPoints bradyScore tachyScore irrScore, mkHealth level score desc).

(** Lines 56-108: one run of the scorer, as the 1-second interval calls it. *)
Definition compute (a : app) : app :=
  let beats := beatsRef a in
  if negb (hasArduinoIrr a) && (List.length beats <? 3)%nat then
    setHealthCategory (mkHealth InsufficientData 0 desc_insufficient) a
  else
    let (pts, h) := assess (heart_rate a) (rhythm_irregularity a) in
    setHealthCategory h (setBreakdown pts a).

(** *** Session handlers (App.jsx 269-383) *)

(** Lines 277-279: the port was opened. *)
Definition connect_opened (a : app) : app :=
  setMonitoringActive false (setCalibrating true (setPort true a)).

(** Lines 282-285: the 4-second timer fires. *)
Definition calibration_timer (a : app) : app :=
  setMonitoringActive true (setCalibrating false a).

(** Lines 359-362: [requestPort], [open] or a read threw. *)
Definition connect_error (a : app) : app := setCalibrating false a.

(** Lines 365-379. *)
Definition disconnectSerial (a : app) : app :=
  if negb (port a) then a
  else
    let a := setBpm None (setMonitoringActive false (setCalibrating false (setPort false a))) in
    let a := setBeats [] (setSamples2 [] (setSamples [] a)) in
    match arduinoIrregularity a with
    | Some _ => setArduinoIrregularity (Some []) a
    | None => a
    end.

(** Lines 381-383. *)
Definition startMonitoring (a : app) : app := setMonitoringActive true a.

(** What can happen to a mounted component. *)
Inductive event :=
| Opened                              (* Connect pressed, the port opened *)
| OpenFailed                          (* Connect pressed, requestPort or open threw *)
| TimerFired                          (* the timer set at line 282 *)
| Value (now : Z) (value : string)    (* reader.read() returned a value *)
| ReadFailed                          (* reader.read() threw *)
| DisconnectPressed
| StartPressed
| Tick.                               (* the interval of line 110 *)

(** The component together with the [monitoringActive] that the running
    [connectSerial] call closed over when it was called. *)
Record session := mkSession { ui : app; loopMonitoring : bool }.

Definition step (s : session) (e : event) : session :=
  match e with
  | Opened => mkSession (connect_opened (ui s)) (monitoringActive (ui s))
  | OpenFailed => mkSession (connect_error (ui s)) (loopMonitoring s)
  | TimerFired => mkSession (calibration_timer (ui s)) (loopMonitoring s)
  | Value now v => mkSession (read_value (loopMonitoring s) now (ui s) v) (loopMonitoring s)
  | ReadFailed => mkSession (connect_error (ui s)) (loopMonitoring s)
  | DisconnectPressed => mkSession (disconnectSerial (ui s)) (loopMonitoring s)
  | StartPressed => mkSession (startMonitoring (ui s)) (loopMonitoring s)
  | Tick => mkSession (compute (ui s)) (loopMonitoring s)
  end.

Definition run (s : session) (es : list event) : session := fold_left step es s.

Definition start : session := mkSession initial false.

End App.

(** ** Vocabulary of the properties *)

Module Stores.
Import App.

(** The three mutations of the stores that the read loop performs. *)
Inductive push :=
| Samples (val1 val2 : float)
| Beat (now : Z)
| Irregularity (v : float).

Definition store (a : app) (p : push) : app :=
  match p with
  | Samples v1 v2 => store_samples v1 v2 a
  | Beat now => store_beat now a
  | Irregularity v => store_irregularity v a
  end.

(** What a sequence of pushes sends to each of the four buffers, in order. *)
Definition leadII_of (ps : list push) : list float :=
  flat_map (fun p => match p with Samples _ v2 => [v2] | _ => [] end) ps.
Definition leadI_of (ps : list push) : list float :=
  flat_map (fun p => match p with Samples v1 _ => [v1] | _ => [] end) ps.
Definition beats_of (ps : list push) : list Z :=
  flat_map (fun p => match p with Beat t => [t] | _ => [] end) ps.
Definition irregularities_of (ps : list push) : list float :=
  flat_map (fun p => match p with Irregularity v => [v] | _ => [] end) ps.

(** The contents of [window.arduinoIrregularity], none when it is undefined. *)
Definition history (a : app) : list float :=
  match arduinoIrregularity a with
  | Some h => h
  | None => []
  end.

(** Every buffer within its capacity; the two sample arrays, which are
    trimmed on the length of the first, equally long. *)
Definition within_capacity (a : app) : Prop :=
  List.length (samplesRef a) <= MAX_SAMPLES
  /\ List.length (samples2Ref a) = List.length (samplesRef a)
  /\ List.length (beatsRef a) <= 50
  /\ List.length (history a) <= 10.

Definition all_empty (a : app) : Prop :=
  samplesRef a = [] /\ samples2Ref a = [] /\ beatsRef a = [] /\ history a = [].

End Stores.

Module Parser.
Import App Stores.

(** The Reading of the specification's data model: the two lead voltages,
    and the device's BPM and irregularity when the line carries them (a
    positive BPM, an irregularity that is not negative). *)
Record Reading := mkReading {
  leadI : float;
  leadII : float;
  deviceBpm : option float;
  deviceIrregularity : option float
}.

Definition reading_of (f : fields) : option Reading :=
  if negb (Number.isNaN (val1 f)) && negb (Number.isNaN (val2 f)) then
    Some (mkReading (val1 f) (val2 f)
            (match arduinoBPM f with
             | Some b => if (0 <? b)%float then Some b else None
             | None => None
             end)
            (match arduinoIrr f with
             | Some i => if (0 <=? i)%float then Some i else None
             | None => None
             end))
  else None.

(** The Reading a value of the reader yields: none for an empty value, a
    status line, a line of fewer than two fields or a lead that is no
    number. *)
Definition reading_of_value (value : string) : option Reading :=
  match value with
  | EmptyString => None
  | _ =>
      let line := JS.trim value in
      if is_status line then None
      else
        let parts := JS.split_commas line in
        if (2 <=? List.length parts)%nat then reading_of (parse_fields parts) else None
  end.

(** The pushes a Reading causes: the irregularity is stored only next to a
    BPM. *)
Definition pushes_of (now : Z) (r : Reading) : list push :=
  Samples (leadI r) (leadII r)
  :: match deviceBpm r with
     | Some _ =>
         Beat now
         :: match deviceIrregularity r with
            | Some i => [Irregularity i]
            | None => []
            end
     | None => []
     end.

(** The pushes of a Reading as the specification words them: the
    irregularity stored whenever it is present. *)
Definition spec_pushes_of (now : Z) (r : Reading) : list push :=
  Samples (leadI r) (leadII r)
  :: match deviceBpm r with
     | Some _ => [Beat now]
     | None => []
     end
  ++ match deviceIrregularity r with
     | Some i => [Irregularity i]
     | None => []
     end.

(** Two states with the same four buffers. *)
Definition same_buffers (a b : app) : Prop :=
  samplesRef a = samplesRef b
  /\ samples2Ref a = samples2Ref b
  /\ beatsRef a = beatsRef b
  /\ arduinoIrregularity a = arduinoIrregularity b.

End Parser.

Module Rhythm.
Import App Stores.

(** Arithmetic mean and population standard deviation, computed in doubles
    from left to right. *)
Definition mean (xs : list float) : float :=
  (fold_left PrimFloat.add xs 0 / Number.of_nat (List.length xs))%float.

Definition sd (xs : list float) : float :=
  PrimFloat.sqrt (fold_left (fun acc x => acc + (x - mean xs) * (x - mean xs)) xs 0
        / Number.of_nat (List.length xs))%float.

(** The irregularity figure as the specification words it: the mean of the
    last five device values when there are any; otherwise, from the
    intervals between the last eight beats, [min(1, 3 cv)] with
    [cv = sd/mean], 0 when the mean is 0. *)
Definition spec_irregularity (a : app) : float :=
  match history a with
  | _ :: _ => mean (slice_last 5 (history a))
  | [] =>
      let intervals := map Number.of_Z (ibis (slice_last 8 (beatsRef a))) in
      let cv := (if mean intervals =? 0 then 0 else sd intervals / mean intervals)%float in
      Number.min 1 (cv * 3)%float
  end.

End Rhythm.

Module Session.
Import App.

(** The three flags of a state. *)
Definition flags (a : app) : bool * bool * bool :=
  (port a, calibrating a, monitoringActive a).

(** The three states of the specification, read off the flags the way the
    status line of the page does (App.jsx 503-506). *)
Definition Disconnected (a : app) : Prop := port a = false.
Definition Calibrating (a : app) : Prop := port a = true /\ calibrating a = true.
Definition Monitoring (a : app) : Prop :=
  port a = true /\ calibrating a = false /\ monitoringActive a = true.

(** A status line that signals the end of calibration (lines 304-308). *)
Definition completion_line (value : string) : Prop :=
  value <> EmptyString
  /\ is_status (JS.trim value) = true
  /\ JS.includes (JS.trim value) "Complete" = true.

End Session.

Module Numerals.

(** A decimal digit, and a text that starts with one. *)
Definition is_digit (c : ascii) : bool :=
  ((48 <=? JS.code c) && (JS.code c <=? 57))%nat.

Fixpoint all_digits (s : string) : bool :=
  match s with
  | EmptyString => true
  | String c r => is_digit c && all_digits r
  end.

Definition starts_with_digit (s : string) : bool :=
  match s with
  | String c _ => is_digit c
  | EmptyString => false
  end.

(** The number a run of decimal digits denotes, continuing from [acc]. *)
Fixpoint decimal (acc : Z) (ds : string) : Z :=
  match ds with
  | EmptyString => acc
  | String c r => decimal (acc * 10 + (Z.of_nat (JS.code c) - 48)) r
  end.

(** A letter of [Infinity]. *)
Definition infinity_char (c : ascii) : bool :=
  Ascii.eqb c "I" || Ascii.eqb c "n" || Ascii.eqb c "f" || Ascii.eqb c "i"
  || Ascii.eqb c "t" || Ascii.eqb c "y".

(** The characters that can take part in the numeral [parseFloat] reads or
    come before it: digits, the point, the exponent mark, the signs, the
    letters of [Infinity], white space. *)
Definition float_char (c : ascii) : bool :=
  is_digit c || Ascii.eqb c "." || Ascii.eqb c "e" || Ascii.eqb c "E"
  || Ascii.eqb c "+" || Ascii.eqb c "-" || infinity_char c || JS.isWhite c.

End Numerals.

(** ** Drawing and widgets (App.jsx 116-267, 385-387, 500-506) *)

Module Canvas.
Import App.

(** The calls made on the 2D context, in order. *)
Inductive cmd :=
| FillStyle (c : string)
| StrokeStyle (c : string)
| LineWidth (n : float)
| Font (f : string)
| TextAlign (al : string)
| FillRect (x y w h : float)
| BeginPath
| MoveTo (x y : float)
| LineTo (x y : float)
| Stroke
| FillText (t : string) (x y : float).

(** Lines 125-128: one grid line. *)
Definition grid_line (w h : float) (i : nat) : list cmd :=
  let y := (Number.of_nat i / 7 * h)%float in
  [BeginPath; MoveTo 0 y; LineTo w y; Stroke].

(** Lines 154 and 156: the coordinates of sample [i] of [n], of value [v]:
    [x = i / (n - 1) * w] and [y = h/2 - v / (maxV - minV) * h * 0.85]
    with [minV = -2] and [maxV = 2]. *)
Definition point_x (i n : nat) (w : float) : float :=
  (Number.of_nat i / (Number.of_nat n - 1) * w)%float.

Definition point_y (h v : float) : float :=
  (h / 2 - v / (2 - -2) * h * Number.of_ratio 85 100)%float.

(** Lines 153-158: the points of the trace. *)
Fixpoint waveform (i n : nat) (w h : float) (view : list float) : list (float * float) :=
  match view with
  | [] => []
  | v :: rest => (point_x i n w, point_y h v) :: waveform (S i) n w h rest
  end.

(** [moveTo] for the first point, [lineTo] for the others. *)
Definition path (pts : list (float * float)) : list cmd :=
  match pts with
  | [] => []
  | p :: rest => MoveTo (fst p) (snd p) :: map (fun q => LineTo (fst q) (snd q)) rest
  end.

(** [drawCanvas()]: [canvas] is the client width of the canvas element, none
    while the ref is empty; [calibrating] is the flag the function closed
    over; [samples] is [samplesRef.current]. *)
Definition drawCanvas (canvas : option float) (calibrating : bool) (samples : list float)
  : list cmd :=
  match canvas with
  | None => []
  | Some w =>
      let h := 320%float in
      [FillStyle "#0d1218"; FillRect 0 0 w h; StrokeStyle "#1a2530"; LineWidth 1]
      ++ flat_map (grid_line w h) (seq 0 8)
      ++ [StrokeStyle "#2a3540"; LineWidth 2; BeginPath;
          MoveTo 0 (h / 2); LineTo w (h / 2); Stroke]
      ++ if (List.length samples <? 2)%nat then
           [FillStyle "#555"; Font "14px Arial"; TextAlign "center"]
           ++ (if calibrating then
                 [FillText "🔄 Calibrating ECG (5 seconds)..." (w / 2) (h / 2 - 20);
                  FillStyle "#777"; Font "12px Arial";
                  FillText "Keep sensor stable" (w / 2) (h / 2 + 10)]
               else
                 [FillText "Waiting for ECG data..." (w / 2) (h / 2 - 20);
                  FillStyle "#777"; Font "12px Arial";
                  FillText "Connect your device or click Demo Mode" (w / 2) (h / 2 + 10)])
         else
           let view := slice_last MAX_SAMPLES samples in
           [StrokeStyle "#ff4444"; LineWidth 3; BeginPath]
           ++ path (waveform 0 (List.length view) w h view)
           ++ [Stroke; FillStyle "#ff4444"; Font "bold 13px Arial"; TextAlign "left";
               FillText "Lead II (A1)" 10 22]
  end%float.

(** The points a sequence of calls moves or draws a line to. *)
Definition points (cs : list cmd) : list (float * float) :=
  flat_map (fun c => match c with
                     | MoveTo x y => [(x, y)]
                     | LineTo x y => [(x, y)]
                     | _ => []
                     end) cs.

(** The texts a sequence of calls writes. *)
Definition texts (cs : list cmd) : list string :=
  flat_map (fun c => match c with FillText t _ _ => [t] | _ => [] end) cs.

End Canvas.

Module Widgets.
Import App.

(** [Gauge({value})], lines 168-170, 188, 193, 197, 223: the clamped value,
    the fraction of the circle, the dash array of the arc, its colour,
    whether the arc is drawn, and the text in the middle. The seven tick
    marks do not depend on the value and are not part of the record. *)
Record gauge := mkGauge {
  clamped : float;
  pct : float;
  dasharray : float * float;
  colour : string;
  arc : bool;
  text : option float
}.

Definition Gauge (value : option float) : gauge :=
  let truthy := match value with
                | Some v => Number.truthy v
                | None => false
                end in
  let min := 30%float in
  let max := 180%float in
  let clamped := Number.max min (Number.min max (match value with
                                                 | Some v => if Number.truthy v then v else 60
                                                 | None => 60
                                                 end)%float) in
  let pct := ((clamped - min) / (max - min))%float in
  let r := 85%float in
  mkGauge clamped pct (2 * Number.PI * r * pct, 2 * Number.PI * r)%float
    (if (clamped <? 60)%float then "#4ade80"
     else if (clamped <? 100)%float then "#facc15" else "#ef4444")
    truthy
    (if truthy then value else None).

(** Line 500: the value the page hands to the gauge. *)
Definition gauge_value (a : app) : option float :=
  if monitoringActive a && port a then bpm a else None.

(** [HealthGauge({score})], line 234: the angle of the needle in degrees. *)
Definition needle_angle (score : float) : float := (-120 + score / 100 * 240)%float.

(** [Heart3D({bpm})], line 387: seconds per beat. *)
Definition beat_duration (bpm : option float) : float :=
  match bpm with
  | Some b => if Number.truthy b && (0 <? b)%float then (60 / b)%float else 1%float
  | None => 1%float
  end.

(** Lines 503-506: the status texts under the gauge. *)
Definition status_line (a : app) : list string :=
  let dq := String (Ascii.ascii_of_nat 34) EmptyString in
  (if calibrating a then ["⏳ Waiting 4 seconds..."%string] else [])
  ++ (if port a && negb (calibrating a) && monitoringActive a
      then ["● Monitoring Active"%string] else [])
  ++ (if port a && negb (calibrating a) && negb (monitoringActive a)
      then [("⏸ Click " ++ dq ++ "Start Monitoring" ++ dq)%string] else [])
  ++ (if negb (port a) then ["○ Not connected"%string] else []).

End Widgets.

Module Clock.
Import App.

(** The values [Date.now()] returned to the read loop, in order. *)
Definition times_of (es : list event) : list Z :=
  flat_map (fun e => match e with Value now _ => [now] | _ => [] end) es.

(** A time value, what [Date.now()] can return: a whole number of
    milliseconds of magnitude at most 8.64e15. *)
Definition time_value (t : Z) : Prop := (Z.abs t <= 8640000000000000)%Z.

(** The categories by severity. *)
Definition severity (l : Level) : nat :=
  match l with
  | Unset => 0
  | InsufficientData => 0
  | Normal => 1
  | Moderate => 2
  | High => 3
  end.

End Clock.

(** ** White space, buttons and keywords *)

Module Text.
(** A text of white space only. *)
Fixpoint all_white (s : string) : bool :=
  match s with
  | EmptyString => true
  | String c r => JS.isWhite c && all_white r
  end.
End Text.

Module Page.
Import App Stores.

(** Lines 469-473: whether the Start Monitoring button is shown. *)
Definition start_button (a : app) : bool :=
  port a && (negb (monitoringActive a) && negb (calibrating a)).

(** The four keywords of line 304. *)
Definition status_keywords : list string :=
  ["Calibration"; "Starting"; "Baseline"; "Gain"]%string.

(** The pairs (Lead I, Lead II) a sequence of pushes stores. *)
Definition pairs_of (ps : list push) : list (float * float) :=
  flat_map (fun p => match p with Samples v1 v2 => [(v1, v2)] | _ => [] end) ps.

End Page.

(** * Properties *)

(** ** Line framer *)

Section Framer.
Import LineBreakTransformer.

Variable sep : ascii.

Lemma append_assoc (a b c : string) : ((a ++ b) ++ c = a ++ (b ++ c))%string.
Proof. induction a as [|x a IH]; simpl; [reflexivity | now rewrite IH]. Qed.

Lemma append_empty_r (a : string) : (a ++ EmptyString = a)%string.
Proof. induction a as [|x a IH]; simpl; [reflexivity | now rewrite IH]. Qed.

Lemma split_nonempty (s : string) : split sep s <> [].
Proof.
  destruct s as [|c r]; simpl; [discriminate|].
  destruct (Ascii.eqb c sep); [discriminate|].
  destruct (split sep r); discriminate.
Qed.

(** Splitting a concatenation: the segments of the first part, the last
    of them left open and continued by the second part. *)
Lemma split_app (a b : string) :
  split sep (a ++ b)%string
  = removelast (split sep a) ++ split sep (last (split sep a) EmptyString ++ b)%string.
Proof.
  induction a as [|c r IH]; [reflexivity|].
  cbn [append split].
  pose proof (split_nonempty r) as Hne.
  destruct (Ascii.eqb c sep) eqn:Hc.
  - rewrite IH. destruct (split sep r) as [|h t]; [contradiction|]. reflexivity.
  - rewrite IH. destruct (split sep r) as [|h [|h' t]]; [contradiction| |].
    + cbn [removelast last app append split]. rewrite Hc.
      destruct (split sep (h ++ b)%string) eqn:E; [now apply split_nonempty in E|reflexivity].
    + cbn [removelast last app]. reflexivity.
Qed.

Lemma split_count (s : string) : List.length (split sep s) = S (count sep s).
Proof.
  induction s as [|c r IH]; [reflexivity|].
  cbn [split count]. destruct (Ascii.eqb c sep).
  - cbn [List.length]. now rewrite IH.
  - destruct (split sep r); cbn [List.length] in *; lia.
Qed.

Lemma split_free (s : string) : count sep s = 0 -> split sep s = [s].
Proof.
  induction s as [|c r IH]; [reflexivity|].
  cbn [split count]. destruct (Ascii.eqb c sep); [discriminate|].
  intros H. now rewrite (IH H).
Qed.

(** No segment contains the separator. *)
Lemma split_segments_free (s : string) :
  Forall (fun l => count sep l = 0) (split sep s).
Proof.
  induction s as [|c r IH]; cbn [split].
  - now constructor.
  - destruct (Ascii.eqb c sep) eqn:Hc.
    + now constructor.
    + destruct (split sep r) as [|h t]; inversion IH; subst;
        constructor; cbn [count]; try rewrite Hc; auto.
Qed.

(** The segments put back together with the separator give the text. *)
Lemma split_joins (s : string) :
  (terminated sep (removelast (split sep s)) ++ last (split sep s) EmptyString)%string = s.
Proof.
  induction s as [|c r IH]; [reflexivity|].
  cbn [split]. pose proof (split_nonempty r) as Hne.
  destruct (Ascii.eqb c sep) eqn:Hc.
  - apply Ascii.eqb_eq in Hc; subst c.
    destruct (split sep r) as [|h t] eqn:E; [contradiction|].
    change (removelast (EmptyString :: h :: t)) with (EmptyString :: removelast (h :: t)).
    change (last (EmptyString :: h :: t) EmptyString) with (last (h :: t) EmptyString).
    cbn [terminated fold_right append]. f_equal. exact IH.
  - destruct (split sep r) as [|h [|h' t]] eqn:E; [contradiction| |].
    + cbn in *. now f_equal.
    + change (removelast (String c h :: h' :: t)) with (String c h :: removelast (h' :: t)).
      change (last (String c h :: h' :: t) EmptyString) with (last (h' :: t) EmptyString).
      change (removelast (h :: h' :: t)) with (h :: removelast (h' :: t)) in IH.
      change (last (h :: h' :: t) EmptyString) with (last (h' :: t) EmptyString) in IH.
      cbn [terminated fold_right append] in *. f_equal. exact IH.
Qed.

Lemma removelast_length {A} (l : list A) :
  List.length (removelast l) = List.length l - 1.
Proof.
  induction l as [|x [|y l] IH]; cbn [removelast List.length] in *; lia.
Qed.

Lemma last_in_forall {A} (P : A -> Prop) (l : list A) d :
  l <> [] -> Forall P l -> P (last l d).
Proof.
  induction l as [|x [|y l] IH]; intros Hne HF; [contradiction| |].
  - now inversion HF.
  - inversion HF; subst. apply IH; [discriminate | assumption].
Qed.

Lemma removelast_forall {A} (P : A -> Prop) (l : list A) :
  Forall P l -> Forall P (removelast l).
Proof.
  induction l as [|x [|y l] IH]; intros HF; cbn [removelast]; [constructor|constructor|].
  inversion HF; subst. constructor; auto.
Qed.

End Framer.

Section Transformer.
Import LineBreakTransformer.

Lemma last_app_nonempty {A} (l1 l2 : list A) d :
  l2 <> [] -> last (l1 ++ l2) d = last l2 d.
Proof.
  intros Hne. induction l1 as [|x l1 IH]; [reflexivity|].
  cbn [app]. destruct (l1 ++ l2) eqn:E.
  - apply app_eq_nil in E. tauto.
  - cbn [last]. exact IH.
Qed.

Lemma transform_container_free (st : t) (chunk : string) :
  count LF (container (transform st chunk)) = 0.
Proof.
  unfold transform; cbn [container].
  apply (@last_in_forall _ (fun l => count LF l = 0)).
  - apply split_nonempty.
  - apply split_segments_free.
Qed.

(** The transformer after any chunks, from any state whose container holds
    no line feed: what [split] makes of the container followed by the text. *)
Lemma fold_transform (chunks : list string) : forall st : t,
  count LF (container st) = 0 ->
  let text := (container st ++ text_of chunks)%string in
  let st' := fold_left transform chunks st in
  container st' = last (split LF text) EmptyString
  /\ enqueued st' = enqueued st ++ removelast (split LF text).
Proof.
  induction chunks as [|c cs IH]; intros st Hfree; cbn zeta.
  - cbn [text_of fold_right fold_left]. rewrite append_empty_r.
    rewrite (split_free _ _ Hfree). cbn [last removelast].
    now rewrite app_nil_r.
  - cbn [fold_left text_of fold_right].
    destruct (IH (transform st c) (transform_container_free st c)) as [Hc He].
    cbn zeta in Hc, He. fold (text_of cs) in *.
    rewrite <- append_assoc, split_app.
    change (container (transform st c))
      with (last (split LF (container st ++ c)%string) EmptyString) in Hc, He.
    change (enqueued (transform st c))
      with (enqueued st ++ removelast (split LF (container st ++ c)%string)) in He.
    split.
    + rewrite last_app_nonempty by apply split_nonempty. exact Hc.
    + rewrite removelast_app by apply split_nonempty.
      rewrite He. now rewrite app_assoc.
Qed.

Lemma feed_spec (chunks : list string) :
  container (feed chunks) = last (split LF (text_of chunks)) EmptyString
  /\ enqueued (feed chunks) = removelast (split LF (text_of chunks)).
Proof. exact (fold_transform chunks init eq_refl). Qed.

(** C5. For a text with N line feeds and any way of cutting it into chunks,
    the framer enqueues the same N lines: the text is exactly these lines,
    each followed by a line feed, and then the pending partial, and neither
    a line nor the partial holds a line feed. Closing the stream adds the
    partial as one more line when it is not empty, so N or N+1 lines come
    out in all, the same for every chunking. *)
Theorem framer_chunk_invariance (text : string) (chunks chunks' : list string) :
  text_of chunks = text ->
  text_of chunks' = text ->
  let lines := enqueued (feed chunks) in
  let partial := container (feed chunks) in
  List.length lines = count LF text
  /\ (terminated LF lines ++ partial)%string = text
  /\ Forall (fun l => count LF l = 0) lines
  /\ count LF partial = 0
  /\ enqueued (feed chunks') = lines
  /\ container (feed chunks') = partial
  /\ run chunks = lines ++ (if String.eqb partial EmptyString then [] else [partial])
  /\ run chunks' = run chunks.
Proof.
  intros H H'. cbn zeta.
  destruct (feed_spec chunks) as [Hc He], (feed_spec chunks') as [Hc' He'].
  rewrite H in Hc, He. rewrite H' in Hc', He'.
  assert (Hrun : forall cs, run cs
            = enqueued (feed cs)
              ++ (if String.eqb (container (feed cs)) EmptyString then []
                  else [container (feed cs)])).
  { intros cs. unfold run, flush.
    destruct (container (feed cs)) eqn:E; cbn [enqueued String.eqb].
    - now rewrite app_nil_r.
    - reflexivity. }
  repeat split.
  - rewrite He, removelast_length, split_count. lia.
  - rewrite He, Hc. apply split_joins.
  - rewrite He. apply removelast_forall, split_segments_free.
  - rewrite Hc. apply (@last_in_forall _ (fun l => count LF l = 0)).
    + apply split_nonempty.
    + apply split_segments_free.
  - now rewrite He, He'.
  - now rewrite Hc, Hc'.
  - apply Hrun.
  - rewrite !Hrun. now rewrite He, He', Hc, Hc'.
Qed.

End Transformer.

(** ** Ring buffers *)

Section RingBuffers.
Import App Stores.

Context {A : Type}.
Implicit Types (l xs : list A) (c : nat).

Lemma slice_last_length c l : List.length (slice_last c l) = Nat.min c (List.length l).
Proof. unfold slice_last. rewrite length_skipn. lia. Qed.

Lemma slice_last_short c l : List.length l <= c -> slice_last c l = l.
Proof.
  intros H. unfold slice_last.
  replace (List.length l - c) with 0 by lia. reflexivity.
Qed.

(** Trimming after every push is trimming once at the end. *)
Lemma slice_last_step c l (v : A) :
  slice_last c (slice_last c l ++ [v]) = slice_last c (l ++ [v]).
Proof.
  unfold slice_last. rewrite !length_app, length_skipn. cbn [List.length].
  destruct (Nat.le_gt_cases (List.length l) c) as [Hle|Hgt].
  - replace (List.length l - c) with 0 by lia. cbn [skipn]. f_equal. lia.
  - replace (List.length l - (List.length l - c) + 1 - c) with 1 by lia.
    replace (List.length l + 1 - c) with (1 + (List.length l - c)) by lia.
    rewrite <- skipn_skipn. f_equal.
    rewrite skipn_app.
    replace (List.length l - c - List.length l) with 0 by lia.
    reflexivity.
Qed.

(** Once a capacity's worth has been pushed nothing older is left. *)
Lemma slice_last_app_full c l xs :
  c <= List.length xs -> slice_last c (l ++ xs) = slice_last c xs.
Proof.
  intros H. unfold slice_last. rewrite length_app, skipn_app.
  replace (List.length l + List.length xs - c - List.length l)
    with (List.length xs - c) by lia.
  rewrite skipn_all2 by lia. reflexivity.
Qed.

(** Lines 325-326 and 340-341: [push] then [splice] keeps the last [c]. *)
Lemma splice_keeps_last c l :
  (if c <? List.length l then splice0 (List.length l - c) l else l) = slice_last c l.
Proof.
  destruct (Nat.ltb_spec c (List.length l)) as [H|H]; [reflexivity|].
  now rewrite slice_last_short.
Qed.

(** Lines 347-350: [push] then one [shift] keeps the last [c] of an array
    that was within [c] before. *)
Lemma shift_keeps_last c l (v : A) :
  List.length l <= c ->
  (if c <? List.length (l ++ [v]) then shift (l ++ [v]) else l ++ [v])
  = slice_last c (l ++ [v]).
Proof.
  intros H. rewrite length_app; cbn [List.length].
  destruct (Nat.ltb_spec c (List.length l + 1)) as [H1|H1].
  - unfold slice_last, shift. rewrite length_app; cbn [List.length].
    replace (List.length l + 1 - c) with 1 by lia.
    destruct (l ++ [v]); reflexivity.
  - rewrite slice_last_short; [reflexivity|]. rewrite length_app; cbn [List.length]. lia.
Qed.

End RingBuffers.

Section StoreFacts.
Import App Stores.

Lemma slice_last_app_l {A} c (l xs : list A) :
  slice_last c (slice_last c l ++ xs) = slice_last c (l ++ xs).
Proof.
  unfold slice_last. rewrite !length_app, length_skipn.
  destruct (Nat.le_gt_cases (List.length l) c) as [Hle|Hgt].
  - replace (List.length l - c) with 0 by lia. cbn [skipn]. f_equal. lia.
  - replace (List.length l - (List.length l - c) + List.length xs - c)
      with (List.length xs) by lia.
    replace (List.length l + List.length xs - c)
      with (List.length xs + (List.length l - c)) by lia.
    rewrite <- skipn_skipn. f_equal.
    rewrite skipn_app.
    replace (List.length l - c - List.length l) with 0 by lia.
    reflexivity.
Qed.

(** What one push does to the four buffers. *)
Lemma store_samples_spec v1 v2 a :
  List.length (samples2Ref a) = List.length (samplesRef a) ->
  let a' := store_samples v1 v2 a in
  samplesRef a' = slice_last MAX_SAMPLES (samplesRef a ++ [v2])
  /\ samples2Ref a' = slice_last MAX_SAMPLES (samples2Ref a ++ [v1])
  /\ beatsRef a' = beatsRef a
  /\ arduinoIrregularity a' = arduinoIrregularity a.
Proof.
  intros Heq; cbn zeta. unfold store_samples.
  assert (Hl : List.length (samples2Ref a ++ [v1]) = List.length (samplesRef a ++ [v2]))
    by (rewrite !length_app; cbn; lia).
  rewrite <- (splice_keeps_last MAX_SAMPLES (samplesRef a ++ [v2])).
  rewrite <- (splice_keeps_last MAX_SAMPLES (samples2Ref a ++ [v1])).
  rewrite Hl.
  destruct (MAX_SAMPLES <? List.length (samplesRef a ++ [v2])); repeat split; reflexivity.
Qed.

Lemma store_beat_spec now a :
  let a' := store_beat now a in
  samplesRef a' = samplesRef a
  /\ samples2Ref a' = samples2Ref a
  /\ beatsRef a' = slice_last 50 (beatsRef a ++ [now])
  /\ arduinoIrregularity a' = arduinoIrregularity a.
Proof.
  cbn zeta. unfold store_beat. repeat split.
  cbn [beatsRef setBeats]. apply splice_keeps_last.
Qed.

Lemma store_irregularity_spec v a :
  List.length (history a) <= 10 ->
  let a' := store_irregularity v a in
  samplesRef a' = samplesRef a
  /\ samples2Ref a' = samples2Ref a
  /\ beatsRef a' = beatsRef a
  /\ arduinoIrregularity a' = Some (slice_last 10 (history a ++ [v])).
Proof.
  intros H; cbn zeta. unfold store_irregularity. repeat split.
  cbn [arduinoIrregularity setArduinoIrregularity]. f_equal.
  fold (history a). now apply shift_keeps_last.
Qed.

Lemma store_within_capacity a p : within_capacity a -> within_capacity (store a p).
Proof.
  intros (Hs & Heq & Hb & Hh). unfold within_capacity, history.
  destruct p as [v1 v2|now|v]; cbn [store].
  - destruct (store_samples_spec v1 v2 a Heq) as (-> & -> & -> & ->).
    rewrite !slice_last_length, !length_app, Heq. cbn [List.length].
    fold (history a). repeat split; try assumption; lia.
  - destruct (store_beat_spec now a) as (-> & -> & -> & ->).
    rewrite !slice_last_length. fold (history a). repeat split; try assumption; lia.
  - destruct (store_irregularity_spec v a Hh) as (-> & -> & -> & ->).
    rewrite !slice_last_length. repeat split; try assumption; lia.
Qed.

(** Any sequence of pushes: each buffer holds the last capacity-many of
    what it held followed by what was sent to it. *)
Lemma fold_store (ps : list push) : forall a,
  within_capacity a ->
  let a' := fold_left store ps a in
  within_capacity a'
  /\ samplesRef a' = slice_last MAX_SAMPLES (samplesRef a ++ leadII_of ps)
  /\ samples2Ref a' = slice_last MAX_SAMPLES (samples2Ref a ++ leadI_of ps)
  /\ beatsRef a' = slice_last 50 (beatsRef a ++ beats_of ps)
  /\ history a' = slice_last 10 (history a ++ irregularities_of ps).
Proof.
  induction ps as [|p ps IH]; intros a Ha; cbn zeta.
  - cbn [fold_left leadII_of leadI_of beats_of irregularities_of flat_map].
    rewrite !app_nil_r. destruct Ha as (Hs & Heq & Hb & Hh).
    rewrite !slice_last_short by lia. repeat split; try assumption.
  - cbn [fold_left].
    destruct (IH (store a p) (store_within_capacity p Ha)) as (Hw & H1 & H2 & H3 & H4).
    split; [exact Hw|]. rewrite H1, H2, H3, H4. clear IH Hw H1 H2 H3 H4.
    destruct Ha as (Hs & Heq & Hb & Hh). unfold history at 1.
    destruct p as [v1 v2|now|v]; cbn [store].
    + destruct (store_samples_spec v1 v2 a Heq) as (-> & -> & -> & ->).
      fold (history a). rewrite !slice_last_app_l, <- !app_assoc. repeat split.
    + destruct (store_beat_spec now a) as (-> & -> & -> & ->).
      fold (history a). rewrite !slice_last_app_l, <- !app_assoc. repeat split.
    + destruct (store_irregularity_spec v a Hh) as (-> & -> & -> & ->).
      rewrite !slice_last_app_l, <- !app_assoc. repeat split.
Qed.

End StoreFacts.

(** ** Readings and the stores *)

(** * Binary64 arithmetic

    The facts about doubles the properties below rest on: the value of a
    double as a real number, round-to-nearest-even as a relation between a
    real and the double that represents it, and what each operation of the
    code ([+], [-], [*], [/], [Math.sqrt], [Math.min], [Math.max],
    [Math.round], the comparisons) does to values. *)

Unset Implicit Arguments.

Section Powers.
Import IEEE.
Local Open Scope R_scope.

Lemma bpow_pos e : 0 < bpow e.
Proof. apply powerRZ_lt. lra. Qed.

Lemma bpow_add a b : bpow (a + b) = bpow a * bpow b.
Proof. apply powerRZ_add. apply Rgt_not_eq. lra. Qed.

Lemma bpow_0 : bpow 0 = 1.
Proof. reflexivity. Qed.

Lemma bpow_1 : bpow 1 = 2.
Proof. unfold bpow, powerRZ. simpl. lra. Qed.

Lemma bpow_opp a : bpow (- a) = / bpow a.
Proof.
  assert (H : bpow (- a) * bpow a = 1).
  { rewrite <- bpow_add. replace (- a + a)%Z with 0%Z by lia. apply bpow_0. }
  pose proof (bpow_pos a). apply Rmult_eq_reg_r with (bpow a); [|lra].
  rewrite H. field. lra.
Qed.

Lemma bpow_nat (n : nat) : bpow (Z.of_nat n) = 2 ^ n.
Proof. unfold bpow. symmetry. apply pow_powerRZ. Qed.

Lemma bpow_IZR e : (0 <= e)%Z -> bpow e = IZR (2 ^ e).
Proof.
  intros H. rewrite <- (Z2Nat.id e H) at 1. rewrite bpow_nat.
  rewrite <- (Z2Nat.id e H) at 2. now rewrite pow_IZR.
Qed.

Lemma bpow_ge_1 e : (0 <= e)%Z -> 1 <= bpow e.
Proof.
  intros H. rewrite bpow_IZR by assumption. apply IZR_le.
  pose proof (Z.pow_pos_nonneg 2 e). lia.
Qed.

Lemma bpow_le a b : (a <= b)%Z -> bpow a <= bpow b.
Proof.
  intros H. replace b with (a + (b - a))%Z by lia. rewrite bpow_add.
  pose proof (bpow_pos a). pose proof (bpow_ge_1 (b - a) ltac:(lia)). nra.
Qed.

Lemma bpow_lt a b : (a < b)%Z -> bpow a < bpow b.
Proof.
  intros H. replace b with (a + 1 + (b - a - 1))%Z by lia. rewrite !bpow_add, bpow_1.
  pose proof (bpow_pos a). pose proof (bpow_ge_1 (b - a - 1) ltac:(lia)). nra.
Qed.

Lemma bpow_lt_inv a b : bpow a < bpow b -> (a < b)%Z.
Proof.
  intros H. destruct (Z.lt_ge_cases a b) as [L|L]; [exact L|].
  pose proof (bpow_le _ _ L). lra.
Qed.

Lemma bpow_succ a : bpow (a + 1) = 2 * bpow a.
Proof. rewrite bpow_add, bpow_1. lra. Qed.

Lemma bpow_pred a : bpow (a - 1) = bpow a / 2.
Proof.
  replace a with (a - 1 + 1)%Z at 2 by lia. rewrite bpow_succ. lra.
Qed.

(** The magnitude of a positive real is unique. *)
Lemma mag_unique v k k' :
  bpow (k - 1) <= v < bpow k -> bpow (k' - 1) <= v < bpow k' -> k = k'.
Proof.
  intros [H1 H2] [H3 H4].
  assert (bpow (k - 1) < bpow k') by lra. assert (bpow (k' - 1) < bpow k) by lra.
  apply bpow_lt_inv in H, H0. lia.
Qed.

Lemma fexp_eq k : fexp k = Z.max (k - 53) (-1074).
Proof. reflexivity. Qed.

Lemma fexp_mono a b : (a <= b)%Z -> (fexp a <= fexp b)%Z.
Proof. rewrite !fexp_eq. lia. Qed.

End Powers.

Section Digits.
Import IEEE.

Lemma digits2_pos_bounds (m : positive) :
  (2 ^ (Zpos (digits2_pos m) - 1) <= Zpos m < 2 ^ Zpos (digits2_pos m))%Z.
Proof.
  induction m as [m IH|m IH|]; cbn [digits2_pos].
  - rewrite Pos2Z.inj_succ. replace (Z.succ (Zpos (digits2_pos m)) - 1)%Z
      with (Z.succ (Zpos (digits2_pos m) - 1)) by lia.
    rewrite !Z.pow_succ_r by lia. lia.
  - rewrite Pos2Z.inj_succ. replace (Z.succ (Zpos (digits2_pos m)) - 1)%Z
      with (Z.succ (Zpos (digits2_pos m) - 1)) by lia.
    rewrite !Z.pow_succ_r by lia. lia.
  - cbn. lia.
Qed.

Lemma digits2_unique (m : positive) (d : Z) :
  (2 ^ (d - 1) <= Zpos m < 2 ^ d)%Z -> Zpos (digits2_pos m) = d.
Proof.
  intros [H1 H2]. pose proof (digits2_pos_bounds m) as [H3 H4].
  assert (Hd : (0 < d)%Z).
  { destruct (Z.lt_ge_cases 0 d) as [L|L]; [exact L|].
    destruct d; [cbn in H2; lia|lia|cbn in H2; lia]. }
  assert (A : (2 ^ (d - 1) < 2 ^ Zpos (digits2_pos m))%Z) by lia.
  assert (B : (2 ^ (Zpos (digits2_pos m) - 1) < 2 ^ d)%Z) by lia.
  apply Z.pow_lt_mono_r_iff in A; [|lia|lia].
  apply Z.pow_lt_mono_r_iff in B; [|lia|lia]. lia.
Qed.

Lemma Zdigits2_nonneg (m : Z) : (0 <= Zdigits2 m)%Z.
Proof. destruct m; cbn; lia. Qed.

Lemma digits_bpow (m : positive) :
  (bpow (Zpos (digits2_pos m) - 1) <= IZR (Zpos m) < bpow (Zpos (digits2_pos m)))%R.
Proof.
  pose proof (digits2_pos_bounds m) as [H1 H2].
  rewrite !bpow_IZR by lia. split; [apply IZR_le|apply IZR_lt]; assumption.
Qed.

End Digits.

Section Shifts.
Import IEEE.

Lemma iter_pos_nat {A} (f : A -> A) (p : positive) (x : A) :
  SpecFloat.iter_pos f p x = Nat.iter (Pos.to_nat p) f x.
Proof.
  revert x. induction p as [p IH|p IH|]; intros x; cbn [SpecFloat.iter_pos].
  - rewrite !IH. rewrite Pos2Nat.inj_xI.
    replace (S (2 * Pos.to_nat p))%nat with (S (Pos.to_nat p + Pos.to_nat p))%nat by lia.
    now rewrite Nat.iter_succ_r, Nat.iter_add.
  - rewrite !IH. rewrite Pos2Nat.inj_xO.
    replace (2 * Pos.to_nat p)%nat with (Pos.to_nat p + Pos.to_nat p)%nat by lia.
    now rewrite Nat.iter_add.
  - reflexivity.
Qed.

Lemma shr_1_spec (x : R) (mrs : shr_record) :
  (0 <= shr_m mrs)%Z ->
  loc_at x (shr_m mrs) (loc_of_shr_record mrs) ->
  (0 <= shr_m (shr_1 mrs))%Z
  /\ shr_m (shr_1 mrs) = (shr_m mrs / 2)%Z
  /\ loc_at (x / 2) (shr_m (shr_1 mrs)) (loc_of_shr_record (shr_1 mrs)).
Proof.
  destruct mrs as [m r s]. cbn [shr_m]. intros Hm.
  destruct m as [|p|p]; [| |lia].
  - destruct r, s; cbn; intros H; (split; [lia|split; [reflexivity|lra]]).
  - destruct p as [p|p|].
    + assert (E : (Z.pos p~1 / 2 = Zpos p)%Z) by (rewrite Pos2Z.inj_xI; symmetry; apply Z.div_unique with 1%Z; lia).
      assert (I : IZR (Zpos p~1) = (2 * IZR (Zpos p) + 1)%R).
      { rewrite Pos2Z.inj_xI, plus_IZR, mult_IZR. reflexivity. }
      destruct r, s; cbn [shr_1 shr_m loc_of_shr_record loc_at orb]; rewrite I; intros H;
        (split; [lia|split; [symmetry; exact E|lra]]).
    + assert (E : (Z.pos p~0 / 2 = Zpos p)%Z) by (rewrite Pos2Z.inj_xO; symmetry; apply Z.div_unique with 0%Z; lia).
      assert (I : IZR (Zpos p~0) = (2 * IZR (Zpos p))%R).
      { rewrite Pos2Z.inj_xO, mult_IZR. reflexivity. }
      destruct r, s; cbn [shr_1 shr_m loc_of_shr_record loc_at orb]; rewrite I; intros H;
        (split; [lia|split; [symmetry; exact E|lra]]).
    + destruct r, s; cbn [shr_1 shr_m loc_of_shr_record loc_at orb]; intros H;
        (split; [lia|split; [reflexivity|lra]]).
Qed.

Lemma shr_iter_spec (n : nat) (x : R) (mrs : shr_record) :
  (0 <= shr_m mrs)%Z ->
  loc_at x (shr_m mrs) (loc_of_shr_record mrs) ->
  let mrs' := Nat.iter n shr_1 mrs in
  (0 <= shr_m mrs')%Z
  /\ shr_m mrs' = (shr_m mrs / 2 ^ Z.of_nat n)%Z
  /\ loc_at (x * bpow (- Z.of_nat n)) (shr_m mrs') (loc_of_shr_record mrs').
Proof.
  intros Hm Hl. induction n as [|n IH].
  - cbn zeta. change (Nat.iter 0 shr_1 mrs) with mrs. split; [exact Hm|]. split; [now rewrite Z.div_1_r|].
    change (bpow (- Z.of_nat 0)) with 1%R. now rewrite Rmult_1_r.
  - cbn zeta in *. rewrite Nat.iter_succ. destruct IH as (I1 & I2 & I3).
    destruct (shr_1_spec _ _ I1 I3) as (J1 & J2 & J3).
    split; [exact J1|]. split.
    + rewrite J2, I2. rewrite Nat2Z.inj_succ, Z.pow_succ_r by lia.
      rewrite Z.div_div by lia. f_equal. lia.
    + replace (x * bpow (- Z.of_nat (S n)))%R with (x * bpow (- Z.of_nat n) / 2)%R; [exact J3|].
      rewrite Nat2Z.inj_succ. replace (- Z.succ (Z.of_nat n))%Z with (- Z.of_nat n - 1)%Z by lia.
      rewrite bpow_pred. lra.
Qed.

(** [shr] by a non-negative amount. *)
Lemma shr_spec (v : R) (m e n : Z) (l : location) :
  (0 <= m)%Z -> (0 <= n)%Z ->
  loc_at (v * bpow (- e)) m l ->
  exists mrs',
    shr (shr_record_of_loc m l) e n = (mrs', (e + n)%Z)
    /\ (0 <= shr_m mrs')%Z
    /\ shr_m mrs' = (m / 2 ^ n)%Z
    /\ loc_at (v * bpow (- (e + n))) (shr_m mrs') (loc_of_shr_record mrs').
Proof.
  intros Hm Hn Hl.
  assert (R0 : shr_m (shr_record_of_loc m l) = m) by (destruct l as [|[]]; reflexivity).
  assert (R1 : loc_of_shr_record (shr_record_of_loc m l) = l) by (destruct l as [|[]]; reflexivity).
  destruct n as [|p|p]; [| |lia].
  - exists (shr_record_of_loc m l). cbn [shr]. rewrite Z.add_0_r, R0, R1.
    repeat split; try assumption. now rewrite Z.div_1_r.
  - exists (SpecFloat.iter_pos shr_1 p (shr_record_of_loc m l)). cbn [shr]. split; [reflexivity|].
    rewrite iter_pos_nat.
    pose proof (shr_iter_spec (Pos.to_nat p) (v * bpow (- e)) (shr_record_of_loc m l)) as H.
    rewrite R0, R1 in H. specialize (H Hm Hl). cbn zeta in H.
    rewrite positive_nat_Z in H. destruct H as (H1 & H2 & H3).
    repeat split; try assumption.
    replace (- (e + Zpos p))%Z with (- e + - Zpos p)%Z by lia.
    rewrite bpow_add, <- Rmult_assoc. exact H3.
Qed.

Lemma round_nearest_even_spec (x : R) (m : Z) (l : location) :
  loc_at x m l -> is_RNE x (round_nearest_even m l).
Proof.
  unfold is_RNE. destruct l as [|[]]; cbn [loc_at round_nearest_even]; intros H.
  - subst x. split; [lra|]. intros [H|H]; lra.
  - destruct (Z.even m) eqn:E.
    + split; [lra|]. intros _. exact E.
    + rewrite plus_IZR. split; [lra|]. intros _. rewrite Z.even_add, E. reflexivity.
  - split; [lra|]. intros [H'|H']; lra.
  - rewrite plus_IZR. split; [lra|]. intros [H'|H']; lra.
Qed.

Lemma is_RNE_mono (x y : R) (n m : Z) :
  (x <= y)%R -> is_RNE x n -> is_RNE y m -> (n <= m)%Z.
Proof.
  intros Hxy [[H1 H2] H3] [[H4 H5] H6].
  destruct (Z.le_gt_cases n m) as [L|L]; [exact L|exfalso].
  assert (Hm : (IZR m + 1 <= IZR n)%R) by (rewrite <- plus_IZR; apply IZR_le; lia).
  assert (Ex : x = (IZR n - / 2)%R) by lra.
  assert (Ey : y = (IZR m + / 2)%R) by lra.
  assert (En : n = (m + 1)%Z).
  { apply eq_IZR. rewrite plus_IZR. lra. }
  specialize (H3 (or_introl Ex)). specialize (H6 (or_intror Ey)).
  rewrite En, Z.even_add, H6 in H3. discriminate.
Qed.

Lemma is_RNE_unique (x : R) (n m : Z) : is_RNE x n -> is_RNE x m -> n = m.
Proof.
  intros H1 H2.
  pose proof (is_RNE_mono x x n m ltac:(lra) H1 H2).
  pose proof (is_RNE_mono x x m n ltac:(lra) H2 H1). lia.
Qed.

Lemma is_RNE_Z (n : Z) : is_RNE (IZR n) n.
Proof. split; [lra|]. intros [H|H]; lra. Qed.

End Shifts.

Section RoundAux.
Import IEEE.

Lemma loc_at_bounds (x : R) (m : Z) (l : location) :
  loc_at x m l -> (IZR m <= x < IZR m + 1)%R.
Proof. destruct l as [|[]]; cbn [loc_at]; lra. Qed.

Lemma valid_finite_inv (s : bool) (m : positive) (e : Z) :
  valid_binary (S754_finite s m e) = true ->
  fexp (Zpos (digits2_pos m) + e) = e /\ (e <= 971)%Z /\ (Zpos (digits2_pos m) <= 53)%Z
  /\ (-1074 <= e)%Z.
Proof.
  cbn [valid_binary]. unfold SpecFloat.bounded, SpecFloat.canonical_mantissa. intros H.
  apply andb_true_iff in H as [H1 H2]. apply Z.eqb_eq in H1. apply Z.leb_le in H2.
  change (SpecFloat.fexp prec emax) with fexp in H1. change (emax - prec)%Z with 971%Z in H2.
  rewrite fexp_eq in *. lia.
Qed.

Lemma valid_finite_intro (s : bool) (m : positive) (e : Z) :
  fexp (Zpos (digits2_pos m) + e) = e -> (e <= 971)%Z ->
  valid_binary (S754_finite s m e) = true.
Proof.
  intros H1 H2. cbn [valid_binary]. unfold SpecFloat.bounded, SpecFloat.canonical_mantissa.
  change (SpecFloat.fexp prec emax) with fexp. rewrite H1.
  apply andb_true_iff. split; [apply Z.eqb_eq; reflexivity|].
  apply Z.leb_le. change (emax - prec)%Z with 971%Z. exact H2.
Qed.

Lemma valid_finite_bound (s : bool) (m : positive) (e : Z) :
  valid_binary (S754_finite s m e) = true -> (IZR (Zpos m) * bpow e < bpow 1024)%R.
Proof.
  intros H. apply valid_finite_inv in H as (_ & H2 & H3 & _).
  pose proof (digits_bpow m) as [_ Hm]. pose proof (bpow_pos e).
  assert (bpow (Zpos (digits2_pos m)) * bpow e <= bpow 1024)%R.
  { rewrite <- bpow_add. apply bpow_le. lia. }
  nra.
Qed.

Lemma mag_of_loc (v : R) (p : positive) (e : Z) (l : location) (k : Z) :
  loc_at (v * bpow (- e)) (Zpos p) l ->
  (bpow (k - 1) <= v < bpow k)%R ->
  k = (Zpos (digits2_pos p) + e)%Z.
Proof.
  intros Hl Hk. apply loc_at_bounds in Hl. apply (mag_unique v); [exact Hk|].
  pose proof (digits2_pos_bounds p) as [D1 D2].
  set (d := Zpos (digits2_pos p)) in *.
  set (y := (v * bpow (- e))%R) in *.
  assert (Hx : v = (y * bpow e)%R).
  { unfold y. rewrite Rmult_assoc, <- bpow_add. replace (- e + e)%Z with 0%Z by lia.
    rewrite bpow_0. lra. }
  pose proof (bpow_pos e) as He.
  replace (d + e - 1)%Z with ((d - 1) + e)%Z by lia. rewrite !bpow_add.
  rewrite (bpow_IZR (d - 1)), (bpow_IZR d) by lia.
  assert (IZR (2 ^ (d - 1)) <= IZR (Zpos p))%R by (apply IZR_le; lia).
  assert (IZR (Zpos p) + 1 <= IZR (2 ^ d))%R by (rewrite <- plus_IZR; apply IZR_le; lia).
  rewrite Hx. clearbody y. split.
  - apply Rmult_le_compat_r; lra.
  - apply Rmult_lt_compat_r; lra.
Qed.

Lemma round_nearest_even_nonneg (m : Z) (l : location) :
  (0 <= m)%Z -> (0 <= round_nearest_even m l)%Z.
Proof. intros H. destruct l as [|[]]; cbn; try lia. destruct (Z.even m); lia. Qed.

Lemma Zdigits2_pos (n : Z) : (0 < n)%Z -> (2 ^ (Zdigits2 n - 1) <= n < 2 ^ Zdigits2 n)%Z.
Proof.
  destruct n as [|p|p]; try lia. intros _. apply digits2_pos_bounds.
Qed.

Lemma binary_round_aux_spec (s : bool) (m e : Z) (l : location) (v : R) (k : Z) :
  (0 <= m)%Z -> (0 < v)%R ->
  loc_at (v * bpow (- e)) m l ->
  (bpow (k - 1) <= v < bpow k)%R ->
  (e <= fexp k)%Z ->
  exists n, is_RNE (v * bpow (- fexp k)) n
            /\ SFok s (IZR n * bpow (fexp k)) (binary_round_aux prec emax s m e l).
Proof.
  intros Hm Hv Hl Hk He.
  assert (Hd : fexp (Zdigits2 m + e) = fexp k).
  { destruct m as [|p|p]; [| |lia].
    - apply loc_at_bounds in Hl. cbn [Zdigits2].
      assert (Hlt : (v < bpow e)%R).
      { pose proof (bpow_pos e).
        replace v with (v * bpow (- e) * bpow e)%R
          by (rewrite Rmult_assoc, <- bpow_add; replace (- e + e)%Z with 0%Z by lia;
              rewrite bpow_0; lra).
        nra. }
      assert (Hke : (k - 1 < e)%Z) by (apply bpow_lt_inv; lra).
      rewrite !fexp_eq in *. lia.
    - cbn [Zdigits2]. now rewrite (mag_of_loc v p e l k Hl Hk). }
  set (E := fexp k) in *.
  unfold binary_round_aux, shr_fexp.
  change (SpecFloat.fexp prec emax) with fexp. rewrite Hd.
  destruct (shr_spec v m e (E - e) l Hm ltac:(lia) Hl) as (mrs' & Hshr & Hm' & _ & Hl').
  rewrite Hshr. replace (e + (E - e))%Z with E in * by lia.
  set (n1 := round_nearest_even (shr_m mrs') (loc_of_shr_record mrs')).
  assert (Hn1 : is_RNE (v * bpow (- E)) n1) by now apply round_nearest_even_spec.
  assert (Hn1pos : (0 <= n1)%Z) by now apply round_nearest_even_nonneg.
  exists n1. split; [exact Hn1|].
  (* the scaled value lies between two powers of two *)
  set (x := (v * bpow (- E))%R) in *.
  assert (Hx : (bpow (k - 1 - E) <= x < bpow (k - E))%R).
  { unfold x. pose proof (bpow_pos (- E)).
    replace (k - 1 - E)%Z with ((k - 1) + - E)%Z by lia.
    replace (k - E)%Z with (k + - E)%Z by lia. rewrite !bpow_add. nra. }
  assert (HE : E = Z.max (k - 53) (-1074)) by apply fexp_eq.
  destruct Hn1 as [[Hlo Hhi] _].
  assert (Hup : (0 <= k - E -> n1 <= 2 ^ (k - E))%Z).
  { intros HP. rewrite (bpow_IZR (k - E)) in Hx by lia.
    assert (IZR n1 < IZR (2 ^ (k - E)) + 1)%R by lra.
    rewrite <- plus_IZR in H. apply lt_IZR in H. lia. }
  assert (Hlow : (1 <= k - E -> 2 ^ (k - 1 - E) <= n1)%Z).
  { intros HP. rewrite (bpow_IZR (k - 1 - E)) in Hx by lia.
    assert (IZR (2 ^ (k - 1 - E)) - 1 < IZR n1)%R by lra.
    rewrite <- minus_IZR in H. apply lt_IZR in H. lia. }
  assert (Hsmall : (k - E < 0 -> n1 <= 0)%Z).
  { intros HP. assert (bpow (k - E) <= bpow (-1))%R by (apply bpow_le; lia).
    replace (bpow (-1)) with (/ 2)%R in H by (change (-1)%Z with (- (1))%Z; rewrite bpow_opp, bpow_1; reflexivity).
    assert (IZR n1 < 1)%R by lra. apply lt_IZR in H0. lia. }
  destruct (Z.eq_dec n1 0) as [Hz|Hnz].
  { (* rounded to zero *)
    rewrite Hz. cbn [Zdigits2].
    assert (Hs : shr (shr_record_of_loc 0 loc_Exact) E (fexp (0 + E) - E)
                 = (shr_record_of_loc 0 loc_Exact, E)).
    { rewrite fexp_eq. destruct (Z.max (0 + E - 53) (-1074) - E)%Z eqn:Ez; try reflexivity. lia. }
    rewrite Hs. cbn [shr_record_of_loc shr_m]. split; [reflexivity|]. split; [reflexivity|].
    cbn. lra. }
  assert (Hn1gt : (0 < n1)%Z) by lia.
  pose proof (Zdigits2_pos n1 Hn1gt) as [D1 D2].
  set (d1 := Zdigits2 n1) in *.
  assert (Hd1 : (0 < d1)%Z).
  { destruct n1; try lia. cbn; lia. }
  (* the number of digits of the rounded mantissa *)
  assert (Hd1up : (d1 + E <= k + 1)%Z).
  { destruct (Z.le_gt_cases 0 (k - E)) as [HP|HP].
    - specialize (Hup HP).
      assert (2 ^ (d1 - 1) < 2 ^ (k - E + 1))%Z.
      { rewrite (Z.pow_add_r 2 (k - E) 1) by lia. lia. }
      apply Z.pow_lt_mono_r_iff in H; lia.
    - specialize (Hsmall ltac:(lia)). lia. }
  assert (Hd1lo : (-1074 < E -> k <= d1 + E)%Z).
  { intros HEn. assert (HP : (k - E = 53)%Z) by lia. specialize (Hlow ltac:(lia)).
    assert (2 ^ (k - 1 - E) < 2 ^ d1)%Z by lia.
    apply Z.pow_lt_mono_r_iff in H; lia. }
  destruct (Z.eq_dec (d1 + E) (k + 1)) as [Hcarry|Hnocarry];
    [destruct (Z.eq_dec (k - E) 53) as [HP|HP]|].
  - (* a carry: the mantissa is 2^53 and is shifted once *)
    assert (Hn : n1 = (2 ^ 53)%Z).
    { specialize (Hup ltac:(lia)). rewrite HP in Hup.
      assert (d1 = 54%Z) by lia. rewrite H in D1. change (54 - 1)%Z with 53%Z in D1. lia. }
    assert (Hs : shr (shr_record_of_loc n1 loc_Exact) E (fexp (d1 + E) - E)
                 = ({| shr_m := 2 ^ 52; shr_r := false; shr_s := false |}, (E + 1)%Z)).
    { rewrite fexp_eq. replace (Z.max (d1 + E - 53) (-1074) - E)%Z with 1%Z by lia.
      rewrite Hn. reflexivity. }
    rewrite Hs. cbn [shr_m]. change (2 ^ 52)%Z with (Zpos (2 ^ 52)).
    assert (Hval : (IZR n1 * bpow E = IZR (Zpos (2 ^ 52)) * bpow (E + 1))%R).
    { rewrite Hn, bpow_succ. change (2 ^ 53)%Z with (2 * Zpos (2 ^ 52))%Z.
      rewrite mult_IZR. lra. }
    destruct (Z.leb_spec (E + 1) (emax - prec)) as [Hb|Hb]; change (emax - prec)%Z with 971%Z in Hb.
    + split.
      * apply valid_finite_intro; [|lia].
        change (Zpos (digits2_pos (2 ^ 52))) with 53%Z. rewrite fexp_eq. lia.
      * split; [reflexivity|exact Hval].
    + split; [reflexivity|]. split; [reflexivity|].
      rewrite Hval. change (IZR (Zpos (2 ^ 52))) with (IZR (2 ^ 52)). rewrite <- bpow_IZR by lia.
      rewrite <- bpow_add. apply bpow_le. lia.
  - (* a carry in the subnormal range: still exponent emin *)
    assert (Hs : shr (shr_record_of_loc n1 loc_Exact) E (fexp (d1 + E) - E)
                 = (shr_record_of_loc n1 loc_Exact, E)).
    { rewrite fexp_eq. destruct (Z.max (d1 + E - 53) (-1074) - E)%Z eqn:Ez; try reflexivity. lia. }
    rewrite Hs. cbn [shr_record_of_loc shr_m].
    destruct n1 as [|p|p]; try lia.
    replace (E <=? emax - prec)%Z with true by (symmetry; apply Z.leb_le; change (emax - prec)%Z with 971%Z; lia).
    split.
    + apply valid_finite_intro; [|lia].
      change (Zpos (digits2_pos p)) with d1. rewrite fexp_eq. lia.
    + split; reflexivity.
  - (* no carry *)
    assert (Hs : shr (shr_record_of_loc n1 loc_Exact) E (fexp (d1 + E) - E)
                 = (shr_record_of_loc n1 loc_Exact, E)).
    { rewrite fexp_eq. destruct (Z.max (d1 + E - 53) (-1074) - E)%Z eqn:Ez; try reflexivity. lia. }
    rewrite Hs. cbn [shr_record_of_loc shr_m].
    destruct n1 as [|p|p]; try lia.
    destruct (Z.leb_spec E (emax - prec)) as [Hb|Hb]; change (emax - prec)%Z with 971%Z in Hb.
    + split.
      * apply valid_finite_intro; [|lia].
        change (Zpos (digits2_pos p)) with d1. rewrite fexp_eq. lia.
      * split; reflexivity.
    + split; [reflexivity|]. split; [reflexivity|].
      assert (HP : (k - E = 53)%Z) by lia. specialize (Hlow ltac:(lia)).
      replace (k - 1 - E)%Z with 52%Z in Hlow by lia.
      assert (bpow 52 <= IZR (Zpos p))%R by (rewrite bpow_IZR by lia; now apply IZR_le).
      assert (bpow 972 <= bpow E)%R by (apply bpow_le; lia).
      replace 1024%Z with (52 + 972)%Z by lia. rewrite bpow_add.
      pose proof (bpow_pos 52). pose proof (bpow_pos 972). nra.
Qed.

End RoundAux.

Section Rounding.
Import IEEE.
Local Open Scope R_scope.

(** What [is_RNE] says of a value between two powers of two. *)
Lemma RNE_range (x : R) (n : Z) (P : Z) :
  is_RNE x n -> bpow (P - 1) <= x < bpow P ->
  (0 <= n)%Z
  /\ (0 <= P -> n <= 2 ^ P)%Z
  /\ (1 <= P -> 2 ^ (P - 1) <= n)%Z
  /\ (P < 0 -> n = 0)%Z.
Proof.
  intros [[Hlo Hhi] _] [Hx1 Hx2]. pose proof (bpow_pos (P - 1)) as Hp.
  assert (H0 : (0 <= n)%Z).
  { assert (IZR (-1) < IZR n) by (simpl; lra). apply lt_IZR in H. lia. }
  split; [exact H0|]. split; [|split].
  - intros HP. rewrite (bpow_IZR P) in Hx2 by lia.
    assert (IZR n < IZR (2 ^ P) + 1) by lra.
    rewrite <- plus_IZR in H. apply lt_IZR in H. lia.
  - intros HP. rewrite (bpow_IZR (P - 1)) in Hx1 by lia.
    assert (IZR (2 ^ (P - 1)) - 1 < IZR n) by lra.
    rewrite <- minus_IZR in H. apply lt_IZR in H. lia.
  - intros HP. assert (bpow P <= bpow (-1)) by (apply bpow_le; lia).
    replace (bpow (-1)) with (/ 2) in H
      by (change (-1)%Z with (- (1))%Z; rewrite bpow_opp, bpow_1; reflexivity).
    assert (IZR n < 1) by lra. apply lt_IZR in H1. lia.
Qed.

Lemma scaled_range (v : R) (k E : Z) :
  bpow (k - 1) <= v < bpow k ->
  bpow (k - E - 1) <= v * bpow (- E) < bpow (k - E).
Proof.
  intros [H1 H2]. pose proof (bpow_pos (- E)).
  replace (k - E - 1)%Z with ((k - 1) + - E)%Z by lia.
  replace (k - E)%Z with (k + - E)%Z by lia. rewrite !bpow_add. split; nra.
Qed.

Lemma Rrnd_pos (v r : R) : Rrnd v r -> 0 < v /\ 0 <= r.
Proof.
  intros (k & n & Hk & Hn & ->). pose proof (bpow_pos (k - 1)). split; [lra|].
  destruct (RNE_range _ _ _ Hn (scaled_range v k (fexp k) Hk)) as (H0 & _).
  apply IZR_le in H0. pose proof (bpow_pos (fexp k)). nra.
Qed.

Lemma Rrnd_unique (v r r' : R) : Rrnd v r -> Rrnd v r' -> r = r'.
Proof.
  intros (k & n & Hk & Hn & ->) (k' & n' & Hk' & Hn' & ->).
  assert (k = k') by (apply (mag_unique v); assumption). subst k'.
  now rewrite (is_RNE_unique _ _ _ Hn Hn').
Qed.

Lemma Rrnd_mono (v1 v2 r1 r2 : R) : v1 <= v2 -> Rrnd v1 r1 -> Rrnd v2 r2 -> r1 <= r2.
Proof.
  intros Hv (k1 & n1 & Hk1 & Hn1 & ->) (k2 & n2 & Hk2 & Hn2 & ->).
  assert (Hk : (k1 <= k2)%Z).
  { assert (bpow (k1 - 1) < bpow k2) by lra. apply bpow_lt_inv in H. lia. }
  pose proof (fexp_mono _ _ Hk) as HE.
  destruct (RNE_range _ _ _ Hn1 (scaled_range v1 k1 (fexp k1) Hk1)) as (A0 & A1 & A2 & A3).
  destruct (RNE_range _ _ _ Hn2 (scaled_range v2 k2 (fexp k2) Hk2)) as (B0 & B1 & B2 & B3).
  pose proof (bpow_pos (fexp k1)) as P1. pose proof (bpow_pos (fexp k2)) as P2.
  destruct (Z.eq_dec (fexp k1) (fexp k2)) as [Eq|Ne].
  - rewrite Eq in *.
    assert (n1 <= n2)%Z.
    { apply (is_RNE_mono (v1 * bpow (- fexp k2)) (v2 * bpow (- fexp k2))); try assumption.
      pose proof (bpow_pos (- fexp k2)). nra. }
    apply IZR_le in H. nra.
  - assert (HE2 : fexp k2 = (k2 - 53)%Z) by (rewrite !fexp_eq in *; lia).
    assert (Hlt : (k1 < k2)%Z) by (rewrite !fexp_eq in *; lia).
    specialize (B2 ltac:(lia)). replace (k2 - fexp k2 - 1)%Z with 52%Z in B2 by lia.
    assert (R2 : bpow (k2 - 1) <= IZR n2 * bpow (fexp k2)).
    { replace (k2 - 1)%Z with (52 + fexp k2)%Z by lia. rewrite bpow_add, (bpow_IZR 52) by lia.
      apply IZR_le in B2. nra. }
    assert (R1 : IZR n1 * bpow (fexp k1) <= bpow k1).
    { destruct (Z.le_gt_cases 0 (k1 - fexp k1)) as [HP|HP].
      - specialize (A1 HP). apply IZR_le in A1. rewrite <- bpow_IZR in A1 by lia.
        replace k1 with ((k1 - fexp k1) + fexp k1)%Z at 2 by lia. rewrite bpow_add. nra.
      - rewrite (A3 HP). pose proof (bpow_pos k1). lra. }
    assert (bpow k1 <= bpow (k2 - 1)) by (apply bpow_le; lia). lra.
Qed.

(** A number with at most 53 significant bits and an exponent in range
    rounds to itself. *)
Lemma Rrnd_exact (n e : Z) :
  (0 < n)%Z -> (Zdigits2 n <= 53)%Z -> (-1074 <= e)%Z ->
  Rrnd (IZR n * bpow e) (IZR n * bpow e).
Proof.
  intros Hn Hd He. pose proof (Zdigits2_pos n Hn) as [D1 D2].
  set (d := Zdigits2 n) in *. assert (Hd0 : (0 < d)%Z) by (destruct n; try lia; cbn; lia).
  exists (d + e)%Z, (n * 2 ^ (e - fexp (d + e)))%Z.
  assert (HE : (fexp (d + e) <= e)%Z) by (rewrite fexp_eq; lia).
  pose proof (bpow_pos e) as Pe.
  split; [|split].
  - replace (d + e - 1)%Z with ((d - 1) + e)%Z by lia. rewrite !bpow_add.
    rewrite (bpow_IZR (d - 1)), (bpow_IZR d) by lia.
    apply IZR_le in D1. apply IZR_lt in D2. split; nra.
  - replace (IZR n * bpow e * bpow (- fexp (d + e)))
      with (IZR (n * 2 ^ (e - fexp (d + e)))); [apply is_RNE_Z|].
    rewrite mult_IZR, <- bpow_IZR by lia.
    replace (e - fexp (d + e))%Z with (e + - fexp (d + e))%Z by lia.
    rewrite bpow_add. lra.
  - rewrite mult_IZR, <- bpow_IZR by lia. rewrite Rmult_assoc, <- bpow_add.
    f_equal. f_equal. lia.
Qed.

Lemma mag_exists_aux (v : R) (n : nat) : forall a : Z,
  bpow a <= v < bpow (a + Z.of_nat n) -> exists k, bpow (k - 1) <= v < bpow k.
Proof.
  induction n as [|n IH]; intros a [H1 H2].
  - replace (a + Z.of_nat 0)%Z with a in H2 by lia. lra.
  - destruct (Rlt_le_dec v (bpow (a + Z.of_nat n))) as [L|L].
    + apply (IH a). split; assumption.
    + exists (a + Z.of_nat (S n))%Z. split; [|exact H2].
      replace (a + Z.of_nat (S n) - 1)%Z with (a + Z.of_nat n)%Z by lia. exact L.
Qed.

Lemma pow2_unbounded (b : R) : exists N : nat, b < 2 ^ N.
Proof.
  destruct (Pow_x_infinity 2 ltac:(rewrite Rabs_right; lra) (b + 1)) as [N HN].
  exists N. specialize (HN N (le_n N)). rewrite Rabs_right in HN; [lra|].
  apply Rle_ge. apply pow_le. lra.
Qed.

(** Every positive real lies between two consecutive powers of two. *)
Lemma mag_exists (v : R) : 0 < v -> exists k, bpow (k - 1) <= v < bpow k.
Proof.
  intros Hv. destruct (pow2_unbounded v) as [N HN]. destruct (pow2_unbounded (/ v)) as [M HM].
  apply (mag_exists_aux v (M + N) (- Z.of_nat M)). split.
  - rewrite bpow_opp, bpow_nat. left.
    rewrite <- (Rinv_inv v). apply Rinv_lt_contravar; [|exact HM].
    apply Rmult_lt_0_compat; [now apply Rinv_0_lt_compat|apply pow_lt; lra].
  - replace (- Z.of_nat M + Z.of_nat (M + N))%Z with (Z.of_nat N) by lia.
    now rewrite bpow_nat.
Qed.

Lemma R64_unique (v r r' : R) : R64 v r -> R64 v r' -> r = r'.
Proof.
  intros [[H1 ->]|[[H1 (r0 & Hr & ->)]|[H1 (r0 & Hr & ->)]]]
         [[H2 ->]|[[H2 (r1 & Hr' & ->)]|[H2 (r1 & Hr' & ->)]]]; try lra.
  - now rewrite (Rrnd_unique _ _ _ Hr Hr').
  - now rewrite (Rrnd_unique _ _ _ Hr Hr').
Qed.

Lemma R64_sign (v r : R) : R64 v r -> (0 <= v -> 0 <= r) /\ (v <= 0 -> r <= 0).
Proof.
  pose proof (bpow_pos 1024).
  intros [[H1 ->]|[[H1 (r0 & Hr & ->)]|[H1 (r0 & Hr & ->)]]]; try (split; lra);
    apply Rrnd_pos in Hr as [_ Hr]; split; intros; try lra;
    unfold Rmin; destruct (Rle_dec r0 (bpow 1024)); lra.
Qed.

Lemma R64_mono (v1 v2 r1 r2 : R) : v1 <= v2 -> R64 v1 r1 -> R64 v2 r2 -> r1 <= r2.
Proof.
  intros Hv H1 H2.
  destruct (R64_sign _ _ H1) as [S1 S1']. destruct (R64_sign _ _ H2) as [S2 S2'].
  destruct H1 as [[H1 ->]|[[H1 (r0 & Hr & ->)]|[H1 (r0 & Hr & ->)]]];
  destruct H2 as [[H2 ->]|[[H2 (r0' & Hr' & ->)]|[H2 (r0' & Hr' & ->)]]];
    try lra; try (apply S2; lra); try (apply S1'; lra).
  - pose proof (Rrnd_mono _ _ _ _ Hv Hr Hr').
    apply Rle_min_compat_r. exact H.
  - assert (Hv' : - v2 <= - v1) by lra. pose proof (Rrnd_mono _ _ _ _ Hv' Hr' Hr).
    apply Ropp_le_contravar. apply Rle_min_compat_r. exact H.
Qed.

Lemma R64_bounds (v r : R) : R64 v r -> - bpow 1024 <= r <= bpow 1024.
Proof.
  pose proof (bpow_pos 1024).
  intros [[H1 ->]|[[H1 (r0 & Hr & ->)]|[H1 (r0 & Hr & ->)]]]; [lra| |];
    apply Rrnd_pos in Hr as [_ Hr]; unfold Rmin; destruct (Rle_dec r0 (bpow 1024)); lra.
Qed.

Lemma R64_opp (v r : R) : R64 v r -> R64 (- v) (- r).
Proof.
  intros [[H1 ->]|[[H1 (r0 & Hr & ->)]|[H1 (r0 & Hr & ->)]]].
  - left. split; lra.
  - right. right. split; [lra|]. exists r0. rewrite Ropp_involutive. now split.
  - right. left. split; [lra|]. exists r0. rewrite Ropp_involutive. now split.
Qed.

End Rounding.

Section Order.
Import IEEE.
Local Open Scope R_scope.

Lemma canonical_lt (s1 s2 : bool) (m1 m2 : positive) (e1 e2 : Z) :
  valid_binary (S754_finite s1 m1 e1) = true ->
  valid_binary (S754_finite s2 m2 e2) = true ->
  (e1 < e2)%Z -> IZR (Zpos m1) * bpow e1 < IZR (Zpos m2) * bpow e2.
Proof.
  intros V1 V2 He.
  apply valid_finite_inv in V1 as (C1 & _ & D1 & L1).
  apply valid_finite_inv in V2 as (C2 & _ & D2 & L2).
  rewrite fexp_eq in C1, C2.
  assert (Hd2 : Zpos (digits2_pos m2) = 53%Z) by lia.
  pose proof (digits_bpow m1) as [_ B1]. pose proof (digits_bpow m2) as [B2 _].
  rewrite Hd2 in B2. change (53 - 1)%Z with 52%Z in B2.
  assert (bpow (Zpos (digits2_pos m1)) <= bpow 53) by (apply bpow_le; lia).
  assert (bpow (53 + e1) <= bpow (52 + e2)) by (apply bpow_le; lia).
  rewrite !bpow_add in H0. pose proof (bpow_pos e1). pose proof (bpow_pos e2).
  pose proof (bpow_pos 52). pose proof (bpow_pos 53). nra.
Qed.

Lemma SF2R_finite_pos (m : positive) (e : Z) : 0 < IZR (Zpos m) * bpow e.
Proof.
  apply Rmult_lt_0_compat; [apply IZR_lt; lia|apply bpow_pos].
Qed.

Lemma Rcompare_Lt (x y : R) : x < y -> Rcompare x y = Lt.
Proof. intros H. unfold Rcompare. destruct (total_order_T x y) as [[|]|]; try reflexivity; lra. Qed.

Lemma Rcompare_Eq (x y : R) : x = y -> Rcompare x y = Eq.
Proof. intros H. unfold Rcompare. destruct (total_order_T x y) as [[|]|]; try reflexivity; lra. Qed.

Lemma Rcompare_Gt (x y : R) : y < x -> Rcompare x y = Gt.
Proof. intros H. unfold Rcompare. destruct (total_order_T x y) as [[|]|]; try reflexivity; lra. Qed.

Lemma Rcompare_opp (x y : R) : Rcompare (- x) (- y) = CompOpp (Rcompare x y).
Proof.
  destruct (total_order_T x y) as [[H|H]|H].
  - rewrite (Rcompare_Lt x y H), Rcompare_Gt; [reflexivity|lra].
  - rewrite (Rcompare_Eq x y H), Rcompare_Eq; [reflexivity|lra].
  - rewrite (Rcompare_Gt x y H), Rcompare_Lt; [reflexivity|lra].
Qed.

Lemma poscompare_R (m1 m2 : positive) (b : R) :
  0 < b -> Pos.compare_cont Eq m1 m2 = Rcompare (IZR (Zpos m1) * b) (IZR (Zpos m2) * b).
Proof.
  intros Hb. change (Pos.compare_cont Eq m1 m2) with (Pos.compare m1 m2).
  destruct (Pos.compare_spec m1 m2) as [E|L|L]; symmetry.
  - subst. apply Rcompare_Eq. reflexivity.
  - apply Rcompare_Lt. assert (IZR (Zpos m1) < IZR (Zpos m2)) by (apply IZR_lt; lia). nra.
  - apply Rcompare_Gt. assert (IZR (Zpos m2) < IZR (Zpos m1)) by (apply IZR_lt; lia). nra.
Qed.

(** On valid numbers, the comparison of the format is the comparison of
    the values, the infinities standing at [2^1024] and [-2^1024]. *)
Lemma SFcompare_R (f g : spec_float) :
  valid_binary f = true -> valid_binary g = true ->
  f <> S754_nan -> g <> S754_nan ->
  SFcompare f g = Some (Rcompare (SF2R f) (SF2R g)).
Proof.
  intros Vf Vg Nf Ng. pose proof (bpow_pos 1024) as P.
  destruct f as [sf|sf| |sf mf ef], g as [sg|sg| |sg mg eg]; try contradiction;
    cbn [SFcompare SF2R]; f_equal; symmetry.
  - apply Rcompare_Eq. reflexivity.
  - destruct sg; [apply Rcompare_Gt|apply Rcompare_Lt]; lra.
  - pose proof (SF2R_finite_pos mg eg). destruct sg; [apply Rcompare_Gt|apply Rcompare_Lt]; lra.
  - destruct sf; [apply Rcompare_Lt|apply Rcompare_Gt]; lra.
  - destruct sf, sg; [apply Rcompare_Eq|apply Rcompare_Lt|apply Rcompare_Gt|apply Rcompare_Eq]; lra.
  - pose proof (valid_finite_bound _ _ _ Vg). pose proof (SF2R_finite_pos mg eg).
    destruct sf, sg; [apply Rcompare_Lt|apply Rcompare_Lt|apply Rcompare_Gt|apply Rcompare_Gt]; lra.
  - pose proof (SF2R_finite_pos mf ef). destruct sf; [apply Rcompare_Lt|apply Rcompare_Gt]; lra.
  - pose proof (valid_finite_bound _ _ _ Vf). pose proof (SF2R_finite_pos mf ef).
    destruct sf, sg; [apply Rcompare_Gt|apply Rcompare_Lt|apply Rcompare_Gt|apply Rcompare_Lt]; lra.
  - pose proof (SF2R_finite_pos mf ef). pose proof (SF2R_finite_pos mg eg).
    destruct sf, sg.
    + replace (- IZR (Zpos mf) * bpow ef) with (- (IZR (Zpos mf) * bpow ef)) by lra.
      replace (- IZR (Zpos mg) * bpow eg) with (- (IZR (Zpos mg) * bpow eg)) by lra.
      rewrite Rcompare_opp.
      destruct (Z.compare_spec ef eg) as [E|L|L].
      * subst. now rewrite (poscompare_R mf mg (bpow eg) (bpow_pos eg)).
      * pose proof (canonical_lt _ _ _ _ _ _ Vf Vg L). now rewrite Rcompare_Lt.
      * pose proof (canonical_lt _ _ _ _ _ _ Vg Vf L). now rewrite Rcompare_Gt.
    + apply Rcompare_Lt. lra.
    + apply Rcompare_Gt. lra.
    + destruct (Z.compare_spec ef eg) as [E|L|L].
      * subst. now rewrite (poscompare_R mf mg (bpow eg) (bpow_pos eg)).
      * pose proof (canonical_lt _ _ _ _ _ _ Vf Vg L). now rewrite Rcompare_Lt.
      * pose proof (canonical_lt _ _ _ _ _ _ Vg Vf L). now rewrite Rcompare_Gt.
Qed.

End Order.

Section Operations.
Import IEEE.
Local Open Scope R_scope.

Lemma SFok_R64 (s : bool) (v r : R) (f : spec_float) :
  Rrnd v r -> SFok s r f ->
  R64 (if s then - v else v) (SF2R f) /\ f <> S754_nan /\ valid_binary f = true.
Proof.
  intros Hr [Hv Hf]. pose proof (Rrnd_pos _ _ Hr) as [Hv0 Hr0].
  assert (HR : forall x, x = (if s then - Rmin r (bpow 1024) else Rmin r (bpow 1024)) ->
               R64 (if s then - v else v) x).
  { intros x ->. destruct s; [right; right|right; left]; (split; [lra|]); exists r.
    - rewrite Ropp_involutive. now split.
    - now split. }
  pose proof (bpow_pos 1024) as P.
  split; [|split; [|exact Hv]].
  - apply HR. destruct f as [s'|s'| |s' m e]; cbn [SF2R]; try contradiction.
    + destruct Hf as [-> ->]. rewrite Rmin_left by lra. destruct s; lra.
    + destruct Hf as [-> Hb]. now rewrite Rmin_right.
    + destruct Hf as [-> ->]. pose proof (valid_finite_bound _ _ _ Hv).
      rewrite Rmin_left by lra. destruct s; lra.
  - destruct f; try discriminate. contradiction.
Qed.

Lemma iter_xO (m : positive) (d : positive) :
  Zpos (Pos.iter xO m d) = (Zpos m * 2 ^ Zpos d)%Z.
Proof.
  induction d as [|d IH] using Pos.peano_ind.
  - cbn. lia.
  - rewrite Pos.iter_succ, Pos2Z.inj_xO, IH, Pos2Z.inj_succ, Z.pow_succ_r by lia. lia.
Qed.

Lemma digits_shift (m d : positive) :
  Zpos (digits2_pos (Pos.iter xO m d)) = (Zpos (digits2_pos m) + Zpos d)%Z.
Proof.
  induction d as [|d IH] using Pos.peano_ind.
  - cbn. lia.
  - rewrite Pos.iter_succ. cbn [digits2_pos]. rewrite Pos2Z.inj_succ, IH. lia.
Qed.

Lemma shl_align_spec (m : positive) (e e' : Z) :
  (e' <= e)%Z ->
  let '(m', e'') := shl_align m e e' in
  e'' = e' /\ Zpos m' = (Zpos m * 2 ^ (e - e'))%Z.
Proof.
  intros H. unfold shl_align. destruct (e' - e)%Z as [|p|p] eqn:E; try lia.
  - assert (e' = e) by lia. subst. split; [reflexivity|]. rewrite Z.sub_diag. cbn. lia.
  - split; [reflexivity|]. rewrite iter_xO. f_equal. f_equal. lia.
Qed.

Lemma exact_loc (m e e' : Z) :
  (e' <= e)%Z -> loc_at (IZR m * bpow e * bpow (- e')) (m * 2 ^ (e - e')) loc_Exact.
Proof.
  intros H. cbn [loc_at]. rewrite mult_IZR, <- bpow_IZR by lia.
  rewrite Rmult_assoc, <- bpow_add. reflexivity.
Qed.

Lemma mag_digits (m : positive) (e : Z) :
  bpow (Zpos (digits2_pos m) + e - 1) <= IZR (Zpos m) * bpow e
  < bpow (Zpos (digits2_pos m) + e).
Proof.
  pose proof (digits_bpow m) as [H1 H2]. pose proof (bpow_pos e).
  replace (Zpos (digits2_pos m) + e - 1)%Z with ((Zpos (digits2_pos m) - 1) + e)%Z by lia.
  rewrite !bpow_add. split; nra.
Qed.

Lemma binary_round_spec (s : bool) (m : positive) (e : Z) :
  exists r, Rrnd (IZR (Zpos m) * bpow e) r /\ SFok s r (binary_round prec emax s m e).
Proof.
  unfold binary_round. change (SpecFloat.fexp prec emax) with fexp.
  set (k := (Zpos (digits2_pos m) + e)%Z).
  pose proof (mag_digits m e) as Hk. fold k in Hk.
  pose proof (SF2R_finite_pos m e) as Hv.
  destruct (Z.le_gt_cases (fexp k) e) as [L|L].
  - pose proof (shl_align_spec m e (fexp k) L) as H.
    destruct (shl_align m e (fexp k)) as [mz ez]. destruct H as [-> Hm].
    destruct (binary_round_aux_spec s (Zpos mz) (fexp k) loc_Exact (IZR (Zpos m) * bpow e) k
                ltac:(lia) Hv) as (n & Hn & Hok).
    + rewrite Hm. now apply exact_loc.
    + exact Hk.
    + lia.
    + exists (IZR n * bpow (fexp k)). split; [|exact Hok]. exists k, n. exact (conj Hk (conj Hn eq_refl)).
  - assert (Hs : shl_align m e (fexp k) = (m, e)).
    { unfold shl_align. destruct (fexp k - e)%Z eqn:E; try reflexivity. lia. }
    rewrite Hs.
    destruct (binary_round_aux_spec s (Zpos m) e loc_Exact (IZR (Zpos m) * bpow e) k
                ltac:(lia) Hv) as (n & Hn & Hok).
    + cbn [loc_at]. rewrite Rmult_assoc, <- bpow_add.
      replace (e + - e)%Z with 0%Z by lia. rewrite bpow_0. lra.
    + exact Hk.
    + lia.
    + exists (IZR n * bpow (fexp k)). split; [|exact Hok]. exists k, n. exact (conj Hk (conj Hn eq_refl)).
Qed.

(** [binary_normalize]: the nearest number of the format to an integer
    multiple of a power of two. *)
Lemma binary_normalize_spec (M e : Z) (sz : bool) :
  R64 (IZR M * bpow e) (SF2R (binary_normalize prec emax M e sz))
  /\ binary_normalize prec emax M e sz <> S754_nan
  /\ valid_binary (binary_normalize prec emax M e sz) = true.
Proof.
  destruct M as [|m|m]; cbn [binary_normalize].
  - split; [|split; [discriminate|reflexivity]]. left. cbn. split; lra.
  - destruct (binary_round_spec false m e) as (r & Hr & Hok).
    exact (SFok_R64 false _ _ _ Hr Hok).
  - destruct (binary_round_spec true m e) as (r & Hr & Hok).
    replace (IZR (Zneg m) * bpow e) with (- (IZR (Zpos m) * bpow e)).
    + exact (SFok_R64 true _ _ _ Hr Hok).
    + change (Zneg m) with (- Zpos m)%Z. rewrite opp_IZR. lra.
Qed.

Lemma digits_mul (m1 m2 : positive) :
  (Zpos (digits2_pos m1) + Zpos (digits2_pos m2) - 1 <= Zpos (digits2_pos (m1 * m2)))%Z.
Proof.
  pose proof (digits2_pos_bounds m1) as [A1 A2]. pose proof (digits2_pos_bounds m2) as [B1 B2].
  pose proof (digits2_pos_bounds (m1 * m2)) as [C1 C2].
  set (d1 := Zpos (digits2_pos m1)) in *. set (d2 := Zpos (digits2_pos m2)) in *.
  set (d := Zpos (digits2_pos (m1 * m2))) in *.
  assert (Hd1 : (0 < d1)%Z) by (unfold d1; lia). assert (Hd2 : (0 < d2)%Z) by (unfold d2; lia).
  assert (H : (2 ^ (d1 - 1 + (d2 - 1)) < 2 ^ d)%Z).
  { rewrite Z.pow_add_r by lia. rewrite Pos2Z.inj_mul in C2. nia. }
  apply Z.pow_lt_mono_r_iff in H; unfold d in *; lia.
Qed.

Lemma SFmul_spec (sx sy : bool) (mx my : positive) (ex ey : Z) :
  valid_binary (S754_finite sx mx ex) = true ->
  valid_binary (S754_finite sy my ey) = true ->
  let f := SFmul prec emax (S754_finite sx mx ex) (S754_finite sy my ey) in
  R64 (SF2R (S754_finite sx mx ex) * SF2R (S754_finite sy my ey)) (SF2R f)
  /\ f <> S754_nan /\ valid_binary f = true.
Proof.
  intros Vx Vy. cbn zeta. cbn [SFmul SF2R].
  apply valid_finite_inv in Vx as (Cx & _ & Dx & Lx).
  apply valid_finite_inv in Vy as (Cy & _ & Dy & Ly).
  set (k := (Zpos (digits2_pos (mx * my)) + (ex + ey))%Z).
  pose proof (mag_digits (mx * my) (ex + ey)) as Hk. fold k in Hk.
  pose proof (SF2R_finite_pos (mx * my) (ex + ey)) as Hv.
  destruct (binary_round_aux_spec (xorb sx sy) (Zpos (mx * my)) (ex + ey) loc_Exact
              (IZR (Zpos (mx * my)) * bpow (ex + ey)) k ltac:(lia) Hv) as (n & Hn & Hok).
  - cbn [loc_at]. rewrite Rmult_assoc, <- bpow_add.
    replace (ex + ey + - (ex + ey))%Z with 0%Z by lia. rewrite bpow_0. lra.
  - exact Hk.
  - pose proof (digits_mul mx my). rewrite fexp_eq in *. unfold k. lia.
  - assert (Hr : Rrnd (IZR (Zpos (mx * my)) * bpow (ex + ey)) (IZR n * bpow (fexp k))).
    { exists k, n. exact (conj Hk (conj Hn eq_refl)). }
    destruct (SFok_R64 _ _ _ _ Hr Hok) as (H1 & H2 & H3).
    split; [|split; assumption].
    replace ((if sx then - IZR (Zpos mx) else IZR (Zpos mx)) * bpow ex
             * ((if sy then - IZR (Zpos my) else IZR (Zpos my)) * bpow ey))
      with (if xorb sx sy then - (IZR (Zpos (mx * my)) * bpow (ex + ey))
            else IZR (Zpos (mx * my)) * bpow (ex + ey)); [exact H1|].
    rewrite Pos2Z.inj_mul, mult_IZR, bpow_add. destruct sx, sy; cbn [xorb]; lra.
Qed.

Lemma cond_Zopp_R (s : bool) (m : Z) :
  IZR (cond_Zopp s m) = if s then - IZR m else IZR m.
Proof. destruct s; cbn [cond_Zopp]; [apply opp_IZR|reflexivity]. Qed.

Lemma aligned_value (s : bool) (m : positive) (e ez : Z) :
  (ez <= e)%Z ->
  IZR (cond_Zopp s (Zpos (fst (shl_align m e ez)))) * bpow ez
  = SF2R (S754_finite s m e).
Proof.
  intros H. pose proof (shl_align_spec m e ez H) as A.
  destruct (shl_align m e ez) as [m' e']. destruct A as [_ A]. cbn [fst SF2R].
  rewrite cond_Zopp_R, A, mult_IZR, <- bpow_IZR by lia.
  replace (bpow e) with (bpow (e - ez) * bpow ez)
    by (rewrite <- bpow_add; f_equal; lia).
  destruct s; lra.
Qed.

Lemma SFadd_spec (sx sy : bool) (mx my : positive) (ex ey : Z) :
  let f := SFadd prec emax (S754_finite sx mx ex) (S754_finite sy my ey) in
  R64 (SF2R (S754_finite sx mx ex) + SF2R (S754_finite sy my ey)) (SF2R f)
  /\ f <> S754_nan /\ valid_binary f = true.
Proof.
  cbn zeta. cbn [SFadd].
  set (ez := Z.min ex ey).
  rewrite <- (aligned_value sx mx ex ez), <- (aligned_value sy my ey ez) by (unfold ez; lia).
  rewrite <- Rmult_plus_distr_r, <- plus_IZR.
  apply binary_normalize_spec.
Qed.

Lemma SFsub_spec (sx sy : bool) (mx my : positive) (ex ey : Z) :
  let f := SFsub prec emax (S754_finite sx mx ex) (S754_finite sy my ey) in
  R64 (SF2R (S754_finite sx mx ex) - SF2R (S754_finite sy my ey)) (SF2R f)
  /\ f <> S754_nan /\ valid_binary f = true.
Proof.
  cbn zeta. cbn [SFsub].
  set (ez := Z.min ex ey).
  rewrite <- (aligned_value sx mx ex ez), <- (aligned_value sy my ey ez) by (unfold ez; lia).
  unfold Rminus. rewrite Ropp_mult_distr_l, <- Rmult_plus_distr_r, <- opp_IZR, <- plus_IZR.
  apply binary_normalize_spec.
Qed.

End Operations.

Section Division.
Import IEEE.
Local Open Scope R_scope.

Lemma new_location_spec (nb k q : Z) :
  (0 < nb)%Z -> (0 <= k < nb)%Z ->
  loc_at (IZR q + IZR k / IZR nb) q (new_location nb k).
Proof.
  intros Hnb Hk.
  assert (Pn : 0 < IZR nb) by (apply IZR_lt; lia).
  set (y := IZR k / IZR nb).
  assert (Hy : IZR k = y * IZR nb) by (unfold y; field; lra).
  assert (Hy1 : y < 1).
  { assert (IZR k < IZR nb) by (apply IZR_lt; lia). nra. }
  unfold new_location, new_location_even, new_location_odd.
  assert (K : k = 0%Z \/ k <> 0%Z) by lia.
  destruct K as [K0|K0].
  { assert (y = 0) by (unfold y; rewrite K0; unfold Rdiv; apply Rmult_0_l).
    assert (E : (k =? 0)%Z = true) by (apply Z.eqb_eq; exact K0).
    destruct (Z.even nb); match goal with |- context [if ?c then _ else _] =>
      change c with (k =? 0)%Z; rewrite E end; cbn [loc_at]; lra. }
  assert (E : (k =? 0)%Z = false) by (apply Z.eqb_neq; exact K0).
  assert (Hy0 : 0 < y).
  { assert (0 < IZR k) by (apply IZR_lt; lia). nra. }
  destruct (Z.even nb) eqn:Ev;
    match goal with |- context [if ?c then _ else _] =>
      change c with (k =? 0)%Z; rewrite E end.
  - match goal with |- context [loc_Inexact ?c] => change c with (2 * k ?= nb)%Z end.
    destruct (Z.compare_spec (2 * k) nb) as [E'|L|L]; cbn [loc_at].
    + assert (2 * IZR k = IZR nb) by (rewrite <- E', mult_IZR; reflexivity). nra.
    + assert (2 * IZR k < IZR nb) by (rewrite <- mult_IZR; apply IZR_lt; lia). nra.
    + assert (IZR nb < 2 * IZR k) by (rewrite <- mult_IZR; apply IZR_lt; lia). nra.
  - assert (Hne : (2 * k <> nb)%Z).
    { intros E'. rewrite <- E', Z.even_mul in Ev. discriminate. }
    match goal with |- context [match ?c with Gt => _ | _ => _ end] =>
      change c with (2 * k + 1 ?= nb)%Z end.
    destruct (Z.compare_spec (2 * k + 1) nb) as [E'|L|L]; cbn [loc_at].
    + assert (2 * IZR k < IZR nb) by (rewrite <- mult_IZR; apply IZR_lt; lia). nra.
    + assert (2 * IZR k < IZR nb) by (rewrite <- mult_IZR; apply IZR_lt; lia). nra.
    + assert (IZR nb < 2 * IZR k) by (rewrite <- mult_IZR; apply IZR_lt; lia). nra.
Qed.

Lemma SFdiv_spec (sx sy : bool) (mx my : positive) (ex ey : Z) :
  let f := SFdiv prec emax (S754_finite sx mx ex) (S754_finite sy my ey) in
  R64 (SF2R (S754_finite sx mx ex) / SF2R (S754_finite sy my ey)) (SF2R f)
  /\ f <> S754_nan /\ valid_binary f = true.
Proof.
  cbn zeta. cbn [SFdiv SF2R]. unfold SFdiv_core_binary.
  change (SpecFloat.fexp prec emax) with fexp. cbn [Zdigits2].
  set (d1 := Zpos (digits2_pos mx)). set (d2 := Zpos (digits2_pos my)).
  set (e' := Z.min (fexp (d1 + ex - (d2 + ey))) (ex - ey)).
  set (s := (ex - ey - e')%Z).
  assert (Hs : (0 <= s)%Z) by (unfold s, e'; lia).
  set (m' := match s with Zpos _ => Z.shiftl (Zpos mx) s | Z0 => Zpos mx | Zneg _ => 0%Z end).
  assert (Hm' : m' = (Zpos mx * 2 ^ s)%Z).
  { unfold m'. destruct s as [|p|p]; [cbn; lia| |lia]. rewrite Z.shiftl_mul_pow2; lia. }
  assert (Hm'pos : (0 < m')%Z).
  { rewrite Hm'. apply Z.mul_pos_pos; [lia|]. apply Z.pow_pos_nonneg; lia. }
  clearbody m'.
  pose proof (Z_div_mod m' (Zpos my) ltac:(lia)) as Hdiv.
  destruct (Z.div_eucl m' (Zpos my)) as [q r]. destruct Hdiv as [Hq Hr].
  assert (Hq0 : (0 <= q)%Z) by nia.
  set (v := IZR (Zpos mx) * bpow ex / (IZR (Zpos my) * bpow ey)).
  pose proof (SF2R_finite_pos mx ex) as Px. pose proof (SF2R_finite_pos my ey) as Py.
  assert (Pmy : 0 < IZR (Zpos my)) by (apply IZR_lt; lia).
  assert (Hv : 0 < v) by (unfold v; now apply Rdiv_lt_0_compat).
  assert (Hx : v * bpow (- e') = IZR q + IZR r / IZR (Zpos my)).
  { assert (IZR m' = IZR (Zpos my) * IZR q + IZR r)
      by (rewrite <- mult_IZR, <- plus_IZR; now f_equal).
    replace (IZR q + IZR r / IZR (Zpos my)) with (IZR m' / IZR (Zpos my))
      by (rewrite H; field; lra).
    rewrite Hm', mult_IZR, <- bpow_IZR by lia. unfold v, s.
    replace (ex - ey - e')%Z with (ex + (- ey + - e'))%Z by lia.
    rewrite !bpow_add, !bpow_opp. pose proof (bpow_pos ey). pose proof (bpow_pos e').
    field. split; lra. }
  destruct (mag_exists v Hv) as [k Hk].
  assert (Hke : (e' <= fexp k)%Z).
  { assert (Hlow : bpow (d1 + ex - (d2 + ey) - 1) < v).
    { pose proof (mag_digits mx ex) as [A1 _]. pose proof (mag_digits my ey) as [_ B2].
      fold d1 in A1. fold d2 in B2.
      replace (d1 + ex - (d2 + ey) - 1)%Z with ((d1 + ex - 1) + - (d2 + ey))%Z by lia.
      rewrite bpow_add, bpow_opp. unfold v.
      pose proof (bpow_pos (d1 + ex - 1)). pose proof (bpow_pos (d2 + ey)).
      apply Rlt_le_trans with (bpow (d1 + ex - 1) / (IZR (Zpos my) * bpow ey)).
      - unfold Rdiv. apply Rmult_lt_compat_l; [lra|]. apply Rinv_lt_contravar; [nra|lra].
      - unfold Rdiv. apply Rmult_le_compat_r; [|lra]. left. now apply Rinv_0_lt_compat. }
    assert (bpow (d1 + ex - (d2 + ey) - 1) < bpow k) by lra.
    apply bpow_lt_inv in H.
    assert (fexp (d1 + ex - (d2 + ey)) <= fexp k)%Z by (apply fexp_mono; lia).
    unfold e'. lia. }
  destruct (binary_round_aux_spec (xorb sx sy) q e' (new_location (Zpos my) r) v k Hq0 Hv)
    as (n & Hn & Hok).
  - rewrite Hx. apply new_location_spec; lia.
  - exact Hk.
  - exact Hke.
  - assert (Hrn : Rrnd v (IZR n * bpow (fexp k))) by (exists k, n; exact (conj Hk (conj Hn eq_refl))).
    destruct (SFok_R64 _ _ _ _ Hrn Hok) as (H1 & H2 & H3).
    split; [|split; assumption].
    replace ((if sx then - IZR (Zpos mx) else IZR (Zpos mx)) * bpow ex
             / ((if sy then - IZR (Zpos my) else IZR (Zpos my)) * bpow ey))
      with (if xorb sx sy then - v else v); [exact H1|].
    unfold v. pose proof (bpow_pos ex). pose proof (bpow_pos ey).
    destruct sx, sy; cbn [xorb]; field; lra.
Qed.

Lemma div2_bounds (e : Z) : (2 * Z.div2 e <= e <= 2 * Z.div2 e + 1)%Z.
Proof.
  rewrite Z.div2_div. pose proof (Z.div_mod e 2 ltac:(lia)).
  pose proof (Z.mod_pos_bound e 2 ltac:(lia)). lia.
Qed.

Lemma sqrt_loc (m' q r : Z) :
  (0 <= q)%Z -> m' = (q * q + r)%Z -> (0 <= r <= 2 * q)%Z ->
  loc_at (sqrt (IZR m')) q
    (if (r =? 0)%Z then loc_Exact else loc_Inexact (if (r <=? q)%Z then Lt else Gt)).
Proof.
  intros Hq Hm Hr.
  assert (Pq : 0 <= IZR q) by (apply IZR_le; lia).
  assert (Em : IZR m' = IZR q * IZR q + IZR r) by (rewrite Hm, plus_IZR, mult_IZR; reflexivity).
  assert (lower : forall a, 0 <= a -> a * a < IZR m' -> a < sqrt (IZR m')).
  { intros a Ha H. rewrite <- (sqrt_square a Ha). apply sqrt_lt_1_alt. split; [nra|exact H]. }
  assert (upper : forall a, 0 <= a -> IZR m' < a * a -> sqrt (IZR m') < a).
  { intros a Ha H. rewrite <- (sqrt_square a Ha). apply sqrt_lt_1_alt. split; [|exact H].
    rewrite Em. assert (0 <= IZR r) by (apply IZR_le; lia). nra. }
  destruct (r =? 0)%Z eqn:R0; [apply Z.eqb_eq in R0|apply Z.eqb_neq in R0]; cbn [loc_at].
  - subst r. rewrite Em. replace (IZR q * IZR q + 0) with (IZR q * IZR q) by lra.
    now apply sqrt_square.
  - assert (Pr : 1 <= IZR r) by (apply IZR_le; lia).
    destruct (r <=? q)%Z eqn:L; [apply Z.leb_le in L|apply Z.leb_gt in L].
    + assert (IZR r <= IZR q) by (apply IZR_le; lia).
      split; [apply lower; nra|apply upper; nra].
    + assert (IZR q + 1 <= IZR r) by (rewrite <- plus_IZR; apply IZR_le; lia).
      assert (IZR r <= 2 * IZR q) by (rewrite <- mult_IZR; apply IZR_le; lia).
      split; [apply lower; nra|apply upper; nra].
Qed.

Lemma SFsqrt_spec (mx : positive) (ex : Z) :
  let f := SFsqrt prec emax (S754_finite false mx ex) in
  R64 (sqrt (SF2R (S754_finite false mx ex))) (SF2R f)
  /\ f <> S754_nan /\ valid_binary f = true.
Proof.
  cbn zeta. cbn [SFsqrt SF2R]. unfold SFsqrt_core_binary.
  change (SpecFloat.fexp prec emax) with fexp. cbn [Zdigits2].
  set (d := Zpos (digits2_pos mx)).
  set (e' := Z.min (fexp (Z.div2 (d + ex + 1))) (Z.div2 ex)).
  set (s := (ex - 2 * e')%Z).
  assert (Hs : (0 <= s)%Z) by (unfold s, e'; pose proof (div2_bounds ex); lia).
  set (m' := match s with Zpos _ => Z.shiftl (Zpos mx) s | Z0 => Zpos mx | Zneg _ => 0%Z end).
  assert (Hm' : m' = (Zpos mx * 2 ^ s)%Z).
  { unfold m'. destruct s as [|p|p]; [cbn; lia| |lia]. rewrite Z.shiftl_mul_pow2; lia. }
  assert (Hm'pos : (0 < m')%Z).
  { rewrite Hm'. apply Z.mul_pos_pos; [lia|]. apply Z.pow_pos_nonneg; lia. }
  clearbody m'.
  pose proof (Z.sqrtrem_spec m' ltac:(lia)) as Hsq.
  pose proof (Z.sqrtrem_sqrt m') as Hfst. pose proof (Z.sqrt_nonneg m') as Hnn.
  destruct (Z.sqrtrem m') as [q r]. cbn [fst] in Hfst. subst q.
  destruct Hsq as [Hq Hr]. set (q := Z.sqrt m') in *.
  set (v := IZR (Zpos mx) * bpow ex).
  pose proof (SF2R_finite_pos mx ex) as Hv. fold v in Hv.
  assert (Hsv : 0 < sqrt v) by now apply sqrt_lt_R0.
  assert (Hx : sqrt v * bpow (- e') = sqrt (IZR m')).
  { assert (Ev : v = IZR m' * (bpow e' * bpow e')).
    { unfold v. rewrite Hm', mult_IZR, <- bpow_IZR by lia. rewrite <- bpow_add.
      rewrite Rmult_assoc, <- bpow_add. f_equal. f_equal. unfold s. lia. }
    rewrite Ev. rewrite sqrt_mult_alt by (apply IZR_le; lia).
    rewrite sqrt_square by (left; apply bpow_pos).
    rewrite Rmult_assoc, <- bpow_add. replace (e' + - e')%Z with 0%Z by lia.
    rewrite bpow_0. lra. }
  destruct (mag_exists (sqrt v) Hsv) as [k Hk].
  assert (Hke : (e' <= fexp k)%Z).
  { pose proof (mag_digits mx ex) as [A1 _]. fold d in A1. fold v in A1.
    assert (Hsq : v < bpow (k + k)).
    { rewrite bpow_add. rewrite <- (sqrt_sqrt v) by lra.
      destruct Hk as [_ Hk]. nra. }
    assert (bpow (d + ex - 1) < bpow (k + k)) by lra.
    apply bpow_lt_inv in H.
    assert (Z.div2 (d + ex + 1) <= k)%Z by (pose proof (div2_bounds (d + ex + 1)); lia).
    assert (fexp (Z.div2 (d + ex + 1)) <= fexp k)%Z by now apply fexp_mono.
    unfold e'. lia. }
  destruct (binary_round_aux_spec false q e'
              (if (r =? 0)%Z then loc_Exact else loc_Inexact (if (r <=? q)%Z then Lt else Gt))
              (sqrt v) k Hnn Hsv) as (n & Hn & Hok).
  - rewrite Hx. apply sqrt_loc; [exact Hnn|exact Hq|lia].
  - exact Hk.
  - exact Hke.
  - assert (Hrn : Rrnd (sqrt v) (IZR n * bpow (fexp k)))
      by (exists k, n; exact (conj Hk (conj Hn eq_refl))).
    exact (SFok_R64 false _ _ _ Hrn Hok).
Qed.

End Division.

Section Doubles.
Import IEEE Number.
Local Open Scope R_scope.

Lemma SFcompare_refl (f : spec_float) : f <> S754_nan -> SFcompare f f = Some Eq.
Proof.
  destruct f as [s|s| |s m e]; try contradiction; intros _; cbn [SFcompare].
  - reflexivity.
  - now destruct s.
  - rewrite Z.compare_refl. change (Pos.compare_cont Eq m m) with (Pos.compare m m).
    rewrite Pos.compare_refl. now destruct s.
Qed.

Lemma is_nan_spec (x : float) : is_nan x = true <-> Prim2SF x = S754_nan.
Proof.
  unfold is_nan. rewrite FloatAxioms.eqb_spec. unfold SFeqb. split.
  - intros H. destruct (Prim2SF x) eqn:E; try reflexivity;
      rewrite SFcompare_refl in H by discriminate; discriminate.
  - intros ->. reflexivity.
Qed.

Lemma is_nan_false (x : float) : is_nan x = false <-> Prim2SF x <> S754_nan.
Proof.
  rewrite <- is_nan_spec. destruct (is_nan x); split; congruence.
Qed.

Lemma is_infinity_spec (x : float) :
  is_infinity x = true <-> exists s, Prim2SF x = S754_infinity s.
Proof.
  unfold is_infinity. rewrite FloatAxioms.eqb_spec, FloatAxioms.abs_spec.
  change (Prim2SF infinity) with (S754_infinity false). unfold SFeqb. split.
  - destruct (Prim2SF x) as [s|s| |s m e]; cbn; try discriminate. intros _. now exists s.
  - intros [s ->]. reflexivity.
Qed.


Lemma is_finite_spec (x : float) : is_finite x = true <-> finite_SF (Prim2SF x).
Proof.
  unfold is_finite. rewrite negb_true_iff, orb_false_iff.
  split.
  - intros [H1 H2]. apply is_nan_false in H1.
    destruct (Prim2SF x) as [s|s| |s m e] eqn:E; cbn; try exact I; try contradiction.
    assert (is_infinity x = true) by (apply is_infinity_spec; now exists s). congruence.
  - intros H. split.
    + apply is_nan_false. destruct (Prim2SF x); try discriminate; contradiction.
    + destruct (is_infinity x) eqn:E; [|reflexivity].
      apply is_infinity_spec in E as [s E]. rewrite E in H. contradiction.
Qed.

Lemma finite_not_nan (x : float) : is_finite x = true -> is_nan x = false.
Proof.
  unfold is_finite. rewrite negb_true_iff, orb_false_iff. tauto.
Qed.

Lemma V_bound (x : float) : - bpow 1024 <= V x <= bpow 1024.
Proof.
  unfold V. pose proof (Prim2SF_valid x) as Hv. pose proof (bpow_pos 1024).
  destruct (Prim2SF x) as [s|s| |s m e]; cbn [SF2R]; try lra.
  - destruct s; lra.
  - pose proof (valid_finite_bound _ _ _ Hv). pose proof (SF2R_finite_pos m e).
    destruct s; lra.
Qed.

Lemma finite_V_bound (x : float) : is_finite x = true -> - bpow 1024 < V x < bpow 1024.
Proof.
  intros H. apply is_finite_spec in H. unfold V.
  pose proof (Prim2SF_valid x) as Hv. pose proof (bpow_pos 1024).
  destruct (Prim2SF x) as [s|s| |s m e]; cbn [SF2R]; try contradiction; try lra.
  pose proof (valid_finite_bound _ _ _ Hv). pose proof (SF2R_finite_pos m e).
  destruct s; lra.
Qed.

Lemma V_bound_finite (x : float) :
  is_nan x = false -> - bpow 1024 < V x < bpow 1024 -> is_finite x = true.
Proof.
  intros Hn Hb. apply is_finite_spec. apply is_nan_false in Hn. unfold V in Hb.
  destruct (Prim2SF x) as [s|s| |s m e]; cbn [SF2R finite_SF] in *; try exact I; try contradiction.
  destruct s; lra.
Qed.

(** The comparisons of doubles are those of the values. *)
Lemma compare_V (x y : float) :
  is_nan x = false -> is_nan y = false ->
  SFcompare (Prim2SF x) (Prim2SF y) = Some (Rcompare (V x) (V y)).
Proof.
  intros Hx Hy. apply SFcompare_R; try apply Prim2SF_valid; now apply is_nan_false.
Qed.

Lemma ltb_V (x y : float) :
  is_nan x = false -> is_nan y = false -> ((x <? y)%float = true <-> V x < V y).
Proof.
  intros Hx Hy. rewrite FloatAxioms.ltb_spec. unfold SFltb. rewrite (compare_V x y Hx Hy).
  unfold Rcompare. destruct (total_order_T (V x) (V y)) as [[H|H]|H];
    split; intros; try discriminate; try reflexivity; lra.
Qed.

Lemma leb_V (x y : float) :
  is_nan x = false -> is_nan y = false -> ((x <=? y)%float = true <-> V x <= V y).
Proof.
  intros Hx Hy. rewrite FloatAxioms.leb_spec. unfold SFleb. rewrite (compare_V x y Hx Hy).
  unfold Rcompare. destruct (total_order_T (V x) (V y)) as [[H|H]|H];
    split; intros; try discriminate; try reflexivity; lra.
Qed.

Lemma eqb_V (x y : float) :
  is_nan x = false -> is_nan y = false -> ((x =? y)%float = true <-> V x = V y).
Proof.
  intros Hx Hy. rewrite FloatAxioms.eqb_spec. unfold SFeqb. rewrite (compare_V x y Hx Hy).
  unfold Rcompare. destruct (total_order_T (V x) (V y)) as [[H|H]|H];
    split; intros; try discriminate; try reflexivity; lra.
Qed.

(** A comparison that holds has no [NaN] operand. *)
Lemma compare_some_nonnan (f g : spec_float) (c : comparison) :
  SFcompare f g = Some c -> f <> S754_nan /\ g <> S754_nan.
Proof.
  destruct f, g; cbn; try discriminate; intros _; split; discriminate.
Qed.

Lemma ltb_nonnan (x y : float) : (x <? y)%float = true -> is_nan x = false /\ is_nan y = false.
Proof.
  rewrite FloatAxioms.ltb_spec. unfold SFltb. destruct (SFcompare _ _) as [c|] eqn:E; [|discriminate].
  intros _. apply compare_some_nonnan in E. now rewrite !is_nan_false.
Qed.

Lemma leb_nonnan (x y : float) : (x <=? y)%float = true -> is_nan x = false /\ is_nan y = false.
Proof.
  rewrite FloatAxioms.leb_spec. unfold SFleb. destruct (SFcompare _ _) as [c|] eqn:E; [|discriminate].
  intros _. apply compare_some_nonnan in E. now rewrite !is_nan_false.
Qed.

Lemma eqb_nonnan (x y : float) : (x =? y)%float = true -> is_nan x = false /\ is_nan y = false.
Proof.
  rewrite FloatAxioms.eqb_spec. unfold SFeqb. destruct (SFcompare _ _) as [c|] eqn:E; [|discriminate].
  intros _. apply compare_some_nonnan in E. now rewrite !is_nan_false.
Qed.

Lemma nan_compare (x y : float) :
  is_nan x = true \/ is_nan y = true ->
  (x <? y)%float = false /\ (x <=? y)%float = false /\ (x =? y)%float = false.
Proof.
  intros H.
  destruct (x <? y)%float eqn:E1; [apply ltb_nonnan in E1; destruct H; destruct E1; congruence|].
  destruct (x <=? y)%float eqn:E2; [apply leb_nonnan in E2; destruct H; destruct E2; congruence|].
  destruct (x =? y)%float eqn:E3; [apply eqb_nonnan in E3; destruct H; destruct E3; congruence|].
  repeat split.
Qed.

(** A valid finite number rounds to itself. *)
Lemma R64_valid (f : spec_float) :
  valid_binary f = true -> finite_SF f -> R64 (SF2R f) (SF2R f).
Proof.
  intros Hv Hf. destruct f as [s|s| |s m e]; try contradiction.
  - left. cbn. split; reflexivity.
  - pose proof (valid_finite_bound _ _ _ Hv) as Hb.
    apply valid_finite_inv in Hv as (_ & _ & D & L).
    pose proof (Rrnd_exact (Zpos m) e ltac:(lia) D L) as Hr.
    pose proof (SF2R_finite_pos m e) as P. cbn [SF2R].
    destruct s; [right; right|right; left].
    + split; [lra|]. exists (IZR (Zpos m) * bpow e).
      replace (- (- IZR (Zpos m) * bpow e)) with (IZR (Zpos m) * bpow e) by lra.
      split; [exact Hr|]. rewrite Rmin_left by lra. lra.
    + split; [lra|]. exists (IZR (Zpos m) * bpow e).
      split; [exact Hr|]. rewrite Rmin_left by lra. lra.
Qed.

Lemma R64_V (x : float) : is_finite x = true -> R64 (V x) (V x).
Proof.
  intros H. apply R64_valid; [apply Prim2SF_valid|now apply is_finite_spec].
Qed.

(** A value that a finite double has is left alone by rounding. *)
Lemma R64_exact (v r : R) (c : float) :
  R64 v r -> is_finite c = true -> V c = v -> r = v.
Proof.
  intros H Hc Hv. apply (R64_unique v); [exact H|]. rewrite <- Hv. now apply R64_V.
Qed.

Lemma R64_0 : R64 0 0.
Proof. left. split; reflexivity. Qed.

Ltac nonnan_of H := apply is_nan_false; rewrite H; discriminate.

Lemma mul_V (x y : float) :
  is_finite x = true -> is_finite y = true ->
  R64 (V x * V y) (V (x * y)) /\ is_nan (x * y)%float = false.
Proof.
  intros Hx Hy. apply is_finite_spec in Hx, Hy. rewrite is_nan_false. unfold V.
  rewrite FloatAxioms.mul_spec. pose proof (Prim2SF_valid x) as Vx. pose proof (Prim2SF_valid y) as Vy.
  destruct (Prim2SF x) as [sx|sx| |sx mx ex], (Prim2SF y) as [sy|sy| |sy my ey];
    try contradiction.
  - cbn. split; [|discriminate]. rewrite Rmult_0_l. apply R64_0.
  - cbn [SF64mul SFmul SF2R]. split; [|discriminate]. rewrite Rmult_0_l. apply R64_0.
  - cbn [SF64mul SFmul SF2R]. split; [|discriminate]. rewrite Rmult_0_r. apply R64_0.
  - destruct (SFmul_spec sx sy mx my ex ey Vx Vy) as (H1 & H2 & _). split; assumption.
Qed.

Lemma add_V (x y : float) :
  is_finite x = true -> is_finite y = true ->
  R64 (V x + V y) (V (x + y)) /\ is_nan (x + y)%float = false.
Proof.
  intros Hx Hy. apply is_finite_spec in Hx, Hy. rewrite is_nan_false. unfold V.
  rewrite FloatAxioms.add_spec. pose proof (Prim2SF_valid x) as Vx. pose proof (Prim2SF_valid y) as Vy.
  destruct (Prim2SF x) as [sx|sx| |sx mx ex] eqn:Ex, (Prim2SF y) as [sy|sy| |sy my ey] eqn:Ey;
    try contradiction.
  - split; [|destruct sx, sy; discriminate]. cbn [SF2R]. rewrite Rplus_0_l.
    replace (SF2R (SF64add (S754_zero sx) (S754_zero sy))) with 0 by (destruct sx, sy; reflexivity).
    apply R64_0.
  - cbn [SF64add SFadd]. split; [|discriminate]. change (SF2R (S754_zero sx)) with 0. rewrite Rplus_0_l.
    now apply R64_valid.
  - cbn [SF64add SFadd]. split; [|discriminate]. change (SF2R (S754_zero sy)) with 0. rewrite Rplus_0_r.
    now apply R64_valid.
  - destruct (SFadd_spec sx sy mx my ex ey) as (H1 & H2 & _). split; assumption.
Qed.

Lemma sub_V (x y : float) :
  is_finite x = true -> is_finite y = true ->
  R64 (V x - V y) (V (x - y)) /\ is_nan (x - y)%float = false.
Proof.
  intros Hx Hy. apply is_finite_spec in Hx, Hy. rewrite is_nan_false. unfold V.
  rewrite FloatAxioms.sub_spec. pose proof (Prim2SF_valid x) as Vx. pose proof (Prim2SF_valid y) as Vy.
  destruct (Prim2SF x) as [sx|sx| |sx mx ex] eqn:Ex, (Prim2SF y) as [sy|sy| |sy my ey] eqn:Ey;
    try contradiction.
  - split; [|destruct sx, sy; discriminate]. cbn [SF2R]. rewrite Rminus_0_r.
    replace (SF2R (SF64sub (S754_zero sx) (S754_zero sy))) with 0 by (destruct sx, sy; reflexivity).
    apply R64_0.
  - cbn [SF64sub SFsub]. split; [|discriminate].
    replace (SF2R (S754_zero sx) - SF2R (S754_finite sy my ey))
      with (SF2R (S754_finite (negb sy) my ey)) by (cbn [SF2R]; destruct sy; cbn [negb]; lra).
    apply R64_valid; [exact Vy|exact I].
  - cbn [SF64sub SFsub]. split; [|discriminate]. change (SF2R (S754_zero sy)) with 0. rewrite Rminus_0_r.
    now apply R64_valid.
  - destruct (SFsub_spec sx sy mx my ex ey) as (H1 & H2 & _). split; assumption.
Qed.

Lemma div_V (x y : float) :
  is_finite x = true -> is_finite y = true -> V y <> 0 ->
  R64 (V x / V y) (V (x / y)) /\ is_nan (x / y)%float = false.
Proof.
  intros Hx Hy Hy0. apply is_finite_spec in Hx, Hy. rewrite is_nan_false. unfold V in *.
  rewrite FloatAxioms.div_spec.
  destruct (Prim2SF x) as [sx|sx| |sx mx ex] eqn:Ex, (Prim2SF y) as [sy|sy| |sy my ey] eqn:Ey;
    try contradiction; try (cbn [SF2R] in Hy0; lra).
  - cbn [SF64div SFdiv SF2R]. split; [|discriminate]. unfold Rdiv. rewrite Rmult_0_l. apply R64_0.
  - destruct (SFdiv_spec sx sy mx my ex ey) as (H1 & H2 & _). split; assumption.
Qed.

Lemma sqrt_V (x : float) :
  is_finite x = true -> 0 <= V x ->
  R64 (sqrt (V x)) (V (PrimFloat.sqrt x)) /\ is_nan (PrimFloat.sqrt x) = false.
Proof.
  intros Hx Hx0. apply is_finite_spec in Hx. rewrite is_nan_false. unfold V in *.
  rewrite FloatAxioms.sqrt_spec.
  destruct (Prim2SF x) as [sx|sx| |sx mx ex] eqn:Ex; try contradiction.
  - cbn [SF64sqrt SFsqrt SF2R]. split; [|discriminate]. rewrite sqrt_0. apply R64_0.
  - destruct sx.
    + pose proof (SF2R_finite_pos mx ex). cbn [SF2R] in Hx0. lra.
    + destruct (SFsqrt_spec mx ex) as (H1 & H2 & _). split; assumption.
Qed.

Lemma Prim2SF_of_Z (z : Z) : Prim2SF (of_Z z) = binary_normalize prec emax z 0 false.
Proof.
  unfold of_Z. apply Prim2SF_SF2Prim. apply binary_normalize_spec.
Qed.

Lemma of_Z_V (z : Z) : R64 (IZR z) (V (of_Z z)) /\ is_nan (of_Z z) = false.
Proof.
  unfold V. rewrite is_nan_false, Prim2SF_of_Z.
  destruct (binary_normalize_spec z 0 false) as (H1 & H2 & _).
  rewrite bpow_0, Rmult_1_r in H1. split; assumption.
Qed.

(** Integers of at most 53 bits are doubles. *)
Lemma R64_int (z : Z) : (Z.abs z <= 2 ^ 53)%Z -> R64 (IZR z) (IZR z).
Proof.
  intros Hz.
  assert (Hpos : forall n, (0 < n <= 2 ^ 53)%Z -> Rrnd (IZR n) (IZR n) /\ IZR n < bpow 1024).
  { intros n Hn. split.
    - destruct (Z.eq_dec n (2 ^ 53)) as [->|Hne].
      + pose proof (Rrnd_exact 1 53 ltac:(lia) ltac:(cbn; lia) ltac:(lia)) as H.
        rewrite Rmult_1_l, (bpow_IZR 53) in H by lia. exact H.
      + pose proof (Rrnd_exact n 0 ltac:(lia)) as H. rewrite bpow_0, Rmult_1_r in H.
        apply H; [|lia]. pose proof (Zdigits2_pos n ltac:(lia)) as [D1 D2].
        assert (2 ^ (Zdigits2 n - 1) < 2 ^ 53)%Z by lia.
        apply Z.pow_lt_mono_r_iff in H0; [lia|lia|]. pose proof (Zdigits2_nonneg n). lia.
    - apply Rle_lt_trans with (IZR (2 ^ 53)); [apply IZR_le; lia|].
      rewrite <- bpow_IZR by lia. apply bpow_lt. lia. }
  destruct (Z.lt_trichotomy z 0) as [L|[E|L]].
  - right. right. split; [apply IZR_lt; lia|]. exists (IZR (- z)).
    destruct (Hpos (- z)%Z ltac:(lia)) as [H1 H2]. rewrite <- opp_IZR.
    split; [exact H1|]. rewrite Rmin_left by lra. rewrite opp_IZR. lra.
  - left. subst z. split; reflexivity.
  - right. left. split; [apply IZR_lt; lia|]. exists (IZR z).
    destruct (Hpos z ltac:(lia)) as [H1 H2]. split; [exact H1|]. rewrite Rmin_left by lra. lra.
Qed.

Lemma of_Z_exact (z : Z) :
  (Z.abs z <= 2 ^ 53)%Z -> V (of_Z z) = IZR z /\ is_finite (of_Z z) = true.
Proof.
  intros Hz. destruct (of_Z_V z) as [H1 H2].
  assert (E : V (of_Z z) = IZR z) by (apply (R64_unique (IZR z)); [exact H1|now apply R64_int]).
  split; [exact E|]. apply V_bound_finite; [exact H2|]. rewrite E.
  assert (IZR (2 ^ 53) < bpow 1024) by (rewrite <- bpow_IZR by lia; apply bpow_lt; lia).
  assert (- IZR (2 ^ 53) <= IZR z <= IZR (2 ^ 53)).
  { rewrite <- opp_IZR. split; apply IZR_le; lia. }
  lra.
Qed.

End Doubles.

Section NumberFacts.
Import IEEE Number.
Local Open Scope R_scope.

(** *** [Math.min] and [Math.max] *)

Lemma min_V (x y : float) :
  is_nan x = false -> is_nan y = false ->
  V (min x y) = Rmin (V x) (V y) /\ is_nan (min x y) = false
  /\ (min x y = x \/ min x y = y).
Proof.
  intros Hx Hy. unfold min. rewrite Hx, Hy. cbn [orb].
  destruct (x <? y)%float eqn:L1.
  { apply (ltb_V x y Hx Hy) in L1. rewrite Rmin_left by lra. auto. }
  destruct (y <? x)%float eqn:L2.
  { apply (ltb_V y x Hy Hx) in L2. rewrite Rmin_right by lra. auto. }
  assert (E : V x = V y).
  { destruct (Rtotal_order (V x) (V y)) as [H|[H|H]]; [|exact H|].
    - apply (ltb_V x y Hx Hy) in H. congruence.
    - apply (ltb_V y x Hy Hx) in H. congruence. }
  destruct (get_sign x).
  - rewrite Rmin_left by lra. auto.
  - rewrite Rmin_right by lra. auto.
Qed.

Lemma max_V (x y : float) :
  is_nan x = false -> is_nan y = false ->
  V (max x y) = Rmax (V x) (V y) /\ is_nan (max x y) = false
  /\ (max x y = x \/ max x y = y).
Proof.
  intros Hx Hy. unfold max. rewrite Hx, Hy. cbn [orb].
  destruct (x <? y)%float eqn:L1.
  { apply (ltb_V x y Hx Hy) in L1. rewrite Rmax_right by lra. auto. }
  destruct (y <? x)%float eqn:L2.
  { apply (ltb_V y x Hy Hx) in L2. rewrite Rmax_left by lra. auto. }
  assert (E : V x = V y).
  { destruct (Rtotal_order (V x) (V y)) as [H|[H|H]]; [|exact H|].
    - apply (ltb_V x y Hx Hy) in H. congruence.
    - apply (ltb_V y x Hy Hx) in H. congruence. }
  destruct (get_sign x).
  - rewrite Rmax_right by lra. auto.
  - rewrite Rmax_left by lra. auto.
Qed.

Lemma min_nan (x y : float) : is_nan x = true \/ is_nan y = true -> min x y = nan.
Proof. unfold min. intros [-> | ->]; [reflexivity|]. now rewrite orb_true_r. Qed.

Lemma max_nan (x y : float) : is_nan x = true \/ is_nan y = true -> max x y = nan.
Proof. unfold max. intros [-> | ->]; [reflexivity|]. now rewrite orb_true_r. Qed.

(** *** Values of numbers given by their representation *)

Lemma V_finite (x : float) (s : bool) (m : positive) (e : Z) :
  Prim2SF x = S754_finite s m e ->
  V x = IZR (cond_Zopp s (Zpos m)) * bpow e /\ is_finite x = true.
Proof.
  intros H. split.
  - unfold V. rewrite H. cbn [SF2R]. rewrite cond_Zopp_R. reflexivity.
  - apply is_finite_spec. now rewrite H.
Qed.

Lemma V_zero (x : float) (s : bool) :
  Prim2SF x = S754_zero s -> V x = 0 /\ is_finite x = true.
Proof.
  intros H. split; [unfold V; now rewrite H|]. apply is_finite_spec. now rewrite H.
Qed.

Lemma V_infinity (x : float) (s : bool) :
  Prim2SF x = S754_infinity s ->
  V x = (if s then - bpow 1024 else bpow 1024) /\ is_nan x = false /\ is_finite x = false.
Proof.
  intros H. split; [unfold V; now rewrite H|]. split.
  - apply is_nan_false. rewrite H. discriminate.
  - destruct (is_finite x) eqn:E; [|reflexivity]. apply is_finite_spec in E.
    rewrite H in E. contradiction.
Qed.

(** A double that is not [NaN] is finite or an infinity. *)
Lemma nonnan_cases (x : float) :
  is_nan x = false ->
  is_finite x = true \/ Prim2SF x = S754_infinity false \/ Prim2SF x = S754_infinity true.
Proof.
  intros H. apply is_nan_false in H.
  destruct (Prim2SF x) as [s|s| |s m e] eqn:E; try contradiction.
  - left. apply is_finite_spec. now rewrite E.
  - destruct s; auto.
  - left. apply is_finite_spec. now rewrite E.
Qed.

Lemma V_int (c : float) (z : Z) :
  c = of_Z z -> (Z.abs z <= 2 ^ 53)%Z -> V c = IZR z /\ is_finite c = true.
Proof. intros -> H. now apply of_Z_exact. Qed.

(** *** [Math.round] *)

Lemma Zfloor_half (z : Z) : Zfloor (IZR z + / 2) = z.
Proof. apply Zfloor_eq. lra. Qed.

Lemma round_V (x : float) :
  is_finite x = true ->
  V (round x) = IZR (Zfloor (V x + / 2)) /\ is_finite (round x) = true.
Proof.
  intros Hf. unfold round. pose proof (Prim2SF_valid x) as Hv.
  destruct (Prim2SF x) as [s|s| |s m e] eqn:E.
  - destruct (V_zero x s E) as [-> _]. split; [|exact Hf].
    rewrite Rplus_0_l. symmetry. f_equal. apply Zfloor_eq. lra.
  - split; [|exact Hf]. apply is_finite_spec in Hf. now rewrite E in Hf.
  - apply is_finite_spec in Hf. now rewrite E in Hf.
  - destruct (V_finite x s m e E) as [Vx _].
    set (M := cond_Zopp s (Zpos m)) in *.
    destruct (Z.leb_spec 0 e) as [He|He].
    + split; [|exact Hf]. rewrite Vx, bpow_IZR, <- mult_IZR by lia.
      now rewrite Zfloor_half.
    + set (n := ((2 * M + 2 ^ (- e)) / 2 ^ (1 - e))%Z).
      assert (Hd : (0 < 2 ^ (1 - e))%Z) by (apply Z.pow_pos_nonneg; lia).
      assert (Hn : Zfloor (V x + / 2) = n).
      { apply Zfloor_eq.
        pose proof (Z.div_mod (2 * M + 2 ^ (- e)) (2 ^ (1 - e)) ltac:(lia)) as Hdm.
        pose proof (Z.mod_pos_bound (2 * M + 2 ^ (- e)) (2 ^ (1 - e)) Hd) as Hr.
        fold n in Hdm. set (r := ((2 * M + 2 ^ (- e)) mod 2 ^ (1 - e))%Z) in *.
        assert (Hx : V x + / 2 = IZR (2 * M + 2 ^ (- e)) / IZR (2 ^ (1 - e))).
        { rewrite Vx, plus_IZR, mult_IZR, <- !bpow_IZR by lia.
          replace (1 - e)%Z with (1 + - e)%Z by lia. rewrite bpow_add, bpow_1.
          replace e with (- - e)%Z at 1 by lia. rewrite (bpow_opp (- e)).
          pose proof (bpow_pos (- e)). field. lra. }
        rewrite Hx, Hdm, plus_IZR, mult_IZR.
        assert (Pd : 0 < IZR (2 ^ (1 - e))) by (apply IZR_lt; lia).
        assert (0 <= IZR r < IZR (2 ^ (1 - e))) by (split; [apply IZR_le|apply IZR_lt]; lia).
        replace ((IZR (2 ^ (1 - e)) * IZR n + IZR r) / IZR (2 ^ (1 - e)))
          with (IZR n + IZR r / IZR (2 ^ (1 - e))) by (field; lra).
        assert (0 <= IZR r / IZR (2 ^ (1 - e)) < 1).
        { split; [apply Rmult_le_pos; [lra|left; now apply Rinv_0_lt_compat]|].
          apply Rmult_lt_reg_r with (IZR (2 ^ (1 - e))); [lra|].
          unfold Rdiv. rewrite Rmult_assoc, Rinv_l by lra. lra. }
        lra. }
      rewrite Hn.
      assert (Hbound : (Z.abs n <= 2 ^ 53)%Z).
      { apply valid_finite_inv in Hv as (_ & _ & D & _).
        pose proof (digits2_pos_bounds m) as [_ D2].
        assert (Zpos m < 2 ^ 53)%Z.
        { apply Z.lt_le_trans with (2 ^ Zpos (digits2_pos m))%Z; [exact D2|].
          apply Z.pow_le_mono_r; lia. }
        assert (Ha : (Z.abs M < 2 ^ 53)%Z) by (unfold M; destruct s; cbn [cond_Zopp]; lia).
        assert (He1 : (2 ^ (1 - e) = 2 * 2 ^ (- e))%Z).
        { replace (1 - e)%Z with (Z.succ (- e)) by lia. rewrite Z.pow_succ_r by lia. reflexivity. }
        assert (Hp : (2 <= 2 ^ (- e))%Z).
        { change 2%Z with (2 ^ 1)%Z at 1. apply Z.pow_le_mono_r; lia. }
        unfold n. rewrite He1.
        assert (- 2 ^ 53 <= (2 * M + 2 ^ (- e)) / (2 * 2 ^ (- e)) <= 2 ^ 53)%Z; [|lia].
        split.
        - apply Z.div_le_lower_bound; [lia|]. nia.
        - apply Z.div_le_upper_bound; [lia|]. nia. }
      destruct (Z.eqb_spec n 0) as [Hz|Hz].
      * rewrite Hz. destruct s; split; reflexivity.
      * now apply of_Z_exact.
Qed.

Lemma round_not_finite (x : float) : is_finite x = false -> round x = x.
Proof.
  intros H. unfold round. destruct (Prim2SF x) as [s|s| |s m e] eqn:E; try reflexivity.
  assert (is_finite x = true) by (apply is_finite_spec; now rewrite E). congruence.
Qed.

End NumberFacts.

Section Calculus.
Import IEEE Number.
Local Open Scope R_scope.

Lemma inf_eq (x : float) : Prim2SF x = S754_infinity false -> x = infinity.
Proof. intros H. apply Prim2SF_inj. now rewrite H. Qed.

Lemma neg_inf_eq (x : float) : Prim2SF x = S754_infinity true -> x = neg_infinity.
Proof. intros H. apply Prim2SF_inj. now rewrite H. Qed.

Lemma V_inf : V infinity = bpow 1024.
Proof. reflexivity. Qed.

Lemma V_neg_inf : V neg_infinity = - bpow 1024.
Proof. reflexivity. Qed.

Lemma R64_bpow (j : Z) : (-1074 <= j <= 1023)%Z -> R64 (bpow j) (bpow j).
Proof.
  intros Hj. right. left. split; [apply bpow_pos|]. exists (bpow j). split.
  - pose proof (Rrnd_exact 1 j ltac:(lia) ltac:(cbn; lia) ltac:(lia)) as H.
    now rewrite Rmult_1_l in H.
  - rewrite Rmin_left; [reflexivity|]. apply bpow_le. lia.
Qed.

(** Rounding keeps a bound that is a power of two. *)
Lemma R64_within (v r : R) (j : Z) :
  R64 v r -> (-1074 <= j <= 1023)%Z -> - bpow j <= v <= bpow j -> - bpow j <= r <= bpow j.
Proof.
  intros H Hj [H1 H2]. pose proof (R64_bpow j Hj) as Hb. split.
  - apply (R64_mono (- bpow j) v); [exact H1|now apply R64_opp|exact H].
  - apply (R64_mono v (bpow j)); [exact H2|exact H|exact Hb].
Qed.

Lemma within_intro (x : float) (j : Z) :
  is_nan x = false -> (j <= 1023)%Z -> - bpow j <= V x <= bpow j -> within x j.
Proof.
  intros Hn Hj Hb. split; [|exact Hb]. apply V_bound_finite; [exact Hn|].
  assert (bpow j < bpow 1024) by (apply bpow_lt; lia). lra.
Qed.

Lemma within_weaken (x : float) (i j : Z) : within x i -> (i <= j)%Z -> within x j.
Proof.
  intros [H1 H2] Hij. split; [exact H1|]. pose proof (bpow_le i j Hij). lra.
Qed.

Lemma within_add (x y : float) (a b j : Z) :
  within x a -> within y b -> (a < j)%Z -> (b < j)%Z -> (-1074 <= j <= 1023)%Z ->
  within (x + y)%float j /\ R64 (V x + V y) (V (x + y)).
Proof.
  intros [Fx Bx] [Fy By] Ha Hb Hj. destruct (add_V x y Fx Fy) as [H Hn].
  split; [|exact H]. apply within_intro; [exact Hn|lia|].
  apply (R64_within (V x + V y)); [exact H|exact Hj|].
  assert (bpow a <= bpow (j - 1)) by (apply bpow_le; lia).
  assert (bpow b <= bpow (j - 1)) by (apply bpow_le; lia).
  rewrite bpow_pred in *. lra.
Qed.

Lemma within_sub (x y : float) (a b j : Z) :
  within x a -> within y b -> (a < j)%Z -> (b < j)%Z -> (-1074 <= j <= 1023)%Z ->
  within (x - y)%float j /\ R64 (V x - V y) (V (x - y)).
Proof.
  intros [Fx Bx] [Fy By] Ha Hb Hj. destruct (sub_V x y Fx Fy) as [H Hn].
  split; [|exact H]. apply within_intro; [exact Hn|lia|].
  apply (R64_within (V x - V y)); [exact H|exact Hj|].
  assert (bpow a <= bpow (j - 1)) by (apply bpow_le; lia).
  assert (bpow b <= bpow (j - 1)) by (apply bpow_le; lia).
  rewrite bpow_pred in *. lra.
Qed.

Lemma within_mul (x y : float) (a b : Z) :
  within x a -> within y b -> (-1074 <= a + b <= 1023)%Z ->
  within (x * y)%float (a + b) /\ R64 (V x * V y) (V (x * y)).
Proof.
  intros [Fx Bx] [Fy By] Hj. destruct (mul_V x y Fx Fy) as [H Hn].
  split; [|exact H]. apply within_intro; [exact Hn|lia|].
  apply (R64_within (V x * V y)); [exact H|exact Hj|].
  rewrite bpow_add. pose proof (bpow_pos a). pose proof (bpow_pos b).
  assert (Rabs (V x * V y) <= bpow a * bpow b).
  { rewrite Rabs_mult. apply Rmult_le_compat; try apply Rabs_pos; apply Rabs_le; lra. }
  revert H2. unfold Rabs. destruct (Rcase_abs (V x * V y)); lra.
Qed.

(** Division by a finite number of magnitude at least one. *)
Lemma within_div (x y : float) (a : Z) :
  within x a -> is_finite y = true -> 1 <= V y -> (-1074 <= a <= 1023)%Z ->
  within (x / y)%float a /\ R64 (V x / V y) (V (x / y)).
Proof.
  intros [Fx Bx] Fy Hy Hj. destruct (div_V x y Fx Fy ltac:(lra)) as [H Hn].
  split; [|exact H]. apply within_intro; [exact Hn|lia|].
  apply (R64_within (V x / V y)); [exact H|exact Hj|].
  pose proof (bpow_pos a).
  assert (Hi : 0 < / V y <= 1).
  { split; [apply Rinv_0_lt_compat; lra|]. rewrite <- Rinv_1. apply Rinv_le_contravar; lra. }
  unfold Rdiv. split; nra.
Qed.

Lemma within_sqrt (x : float) (a : Z) :
  within x a -> 0 <= V x -> (0 <= a <= 1023)%Z ->
  within (PrimFloat.sqrt x) a /\ R64 (sqrt (V x)) (V (PrimFloat.sqrt x)).
Proof.
  intros [Fx Bx] H0 Hj. destruct (sqrt_V x Fx H0) as [H Hn].
  split; [|exact H]. apply within_intro; [exact Hn|lia|].
  apply (R64_within (sqrt (V x))); [exact H|lia|].
  pose proof (sqrt_pos (V x)). pose proof (bpow_pos a).
  assert (1 <= bpow a) by (apply bpow_ge_1; lia).
  split; [lra|].
  destruct (Rle_lt_dec (V x) 1) as [L|L].
  - assert (Hs : sqrt (V x) <= sqrt 1) by (apply sqrt_le_1_alt; exact L).
    rewrite sqrt_1 in Hs. lra.
  - assert (Hs : sqrt (V x) <= V x).
    { rewrite <- (sqrt_square (V x)) at 2 by lra. apply sqrt_le_1_alt. nra. }
    lra.
Qed.

(** *** Numbers that are not negative *)

Lemma nonneg_cases (x : float) :
  nonneg x -> (is_finite x = true /\ 0 <= V x) \/ x = infinity.
Proof.
  intros [Hn H0]. destruct (nonnan_cases x Hn) as [F|[I|I]].
  - left. now split.
  - right. now apply inf_eq.
  - destruct (V_infinity x true I) as (E & _). pose proof (bpow_pos 1024). lra.
Qed.

Lemma nonneg_inf : nonneg infinity.
Proof. split; [reflexivity|]. rewrite V_inf. left. apply bpow_pos. Qed.

Lemma nonneg_finite (x : float) : is_finite x = true -> 0 <= V x -> nonneg x.
Proof. intros F H. split; [now apply finite_not_nan|exact H]. Qed.

Lemma posfin_SF (c : float) :
  posfin c -> exists m e, Prim2SF c = S754_finite false m e.
Proof.
  intros [F P]. apply is_finite_spec in F. unfold V in P.
  destruct (Prim2SF c) as [s|s| |s m e]; try contradiction; cbn [SF2R] in P; try lra.
  destruct s; [|now exists m, e]. pose proof (SF2R_finite_pos m e). lra.
Qed.

Lemma finite_SF_cases (x : float) :
  is_finite x = true ->
  (exists s, Prim2SF x = S754_zero s) \/ (exists s m e, Prim2SF x = S754_finite s m e).
Proof.
  intros F. apply is_finite_spec in F.
  destruct (Prim2SF x) as [s|s| |s m e]; try contradiction; [left|right]; eauto.
Qed.

Lemma add_inf_l (y : float) : is_finite y = true \/ y = infinity -> (infinity + y)%float = infinity.
Proof.
  intros H. apply Prim2SF_inj. rewrite FloatAxioms.add_spec.
  change (Prim2SF infinity) with (S754_infinity false).
  destruct H as [F| ->]; [|reflexivity].
  destruct (finite_SF_cases y F) as [[s ->]|(s & m & e & ->)]; reflexivity.
Qed.

Lemma add_inf_r (x : float) : is_finite x = true \/ x = infinity -> (x + infinity)%float = infinity.
Proof.
  intros H. apply Prim2SF_inj. rewrite FloatAxioms.add_spec.
  change (Prim2SF infinity) with (S754_infinity false).
  destruct H as [F| ->]; [|reflexivity].
  destruct (finite_SF_cases x F) as [[s ->]|(s & m & e & ->)]; reflexivity.
Qed.

Lemma add_neg_inf_r (x : float) : is_finite x = true -> (x + neg_infinity)%float = neg_infinity.
Proof.
  intros F. apply Prim2SF_inj. rewrite FloatAxioms.add_spec.
  change (Prim2SF neg_infinity) with (S754_infinity true).
  destruct (finite_SF_cases x F) as [[s ->]|(s & m & e & ->)]; reflexivity.
Qed.

Lemma mul_inf_l (c : float) : posfin c -> (infinity * c)%float = infinity.
Proof.
  intros H. apply Prim2SF_inj. rewrite FloatAxioms.mul_spec.
  destruct (posfin_SF c H) as (m & e & ->). reflexivity.
Qed.

Lemma mul_neg_inf_l (c : float) : posfin c -> (neg_infinity * c)%float = neg_infinity.
Proof.
  intros H. apply Prim2SF_inj. rewrite FloatAxioms.mul_spec.
  destruct (posfin_SF c H) as (m & e & ->). reflexivity.
Qed.

Lemma div_inf_l (c : float) : posfin c -> (infinity / c)%float = infinity.
Proof.
  intros H. apply Prim2SF_inj. rewrite FloatAxioms.div_spec.
  destruct (posfin_SF c H) as (m & e & ->). reflexivity.
Qed.

Lemma div_neg_inf_l (c : float) : posfin c -> (neg_infinity / c)%float = neg_infinity.
Proof.
  intros H. apply Prim2SF_inj. rewrite FloatAxioms.div_spec.
  destruct (posfin_SF c H) as (m & e & ->). reflexivity.
Qed.

Lemma div_inf_r (x : float) : is_finite x = true -> 0 <= V x -> is_nan (x / infinity)%float = false /\ V (x / infinity)%float = 0.
Proof.
  intros F H. unfold V. rewrite is_nan_false, FloatAxioms.div_spec.
  change (Prim2SF infinity) with (S754_infinity false).
  destruct (finite_SF_cases x F) as [[s ->]|(s & m & e & ->)]; cbn; split; try discriminate; reflexivity.
Qed.

Lemma sqrt_inf : PrimFloat.sqrt infinity = infinity.
Proof. reflexivity. Qed.

Lemma add_nonneg (x y : float) : nonneg x -> nonneg y -> nonneg (x + y)%float.
Proof.
  intros Hx Hy.
  destruct (nonneg_cases x Hx) as [[Fx Px]| ->], (nonneg_cases y Hy) as [[Fy Py]| ->].
  - destruct (add_V x y Fx Fy) as [H Hn]. split; [exact Hn|].
    apply (R64_sign _ _ H). lra.
  - rewrite add_inf_r by auto. apply nonneg_inf.
  - rewrite add_inf_l by auto. apply nonneg_inf.
  - rewrite add_inf_l by auto. apply nonneg_inf.
Qed.

Lemma mul_nonneg (x c : float) : nonneg x -> posfin c -> nonneg (x * c)%float.
Proof.
  intros Hx Hc. destruct (nonneg_cases x Hx) as [[Fx Px]| ->].
  - destruct Hc as [Fc Pc]. destruct (mul_V x c Fx Fc) as [H Hn]. split; [exact Hn|].
    apply (R64_sign _ _ H). nra.
  - rewrite mul_inf_l by assumption. apply nonneg_inf.
Qed.

Lemma mul_nonneg_finite (x y : float) :
  is_finite x = true -> is_finite y = true -> 0 <= V x * V y -> nonneg (x * y)%float.
Proof.
  intros Fx Fy P. destruct (mul_V x y Fx Fy) as [H Hn]. split; [exact Hn|].
  now apply (R64_sign _ _ H).
Qed.

Lemma div_nonneg (x c : float) : nonneg x -> posfin c -> nonneg (x / c)%float.
Proof.
  intros Hx Hc. destruct (nonneg_cases x Hx) as [[Fx Px]| ->].
  - destruct Hc as [Fc Pc]. destruct (div_V x c Fx Fc ltac:(lra)) as [H Hn]. split; [exact Hn|].
    apply (R64_sign _ _ H). apply Rmult_le_pos; [exact Px|]. left. now apply Rinv_0_lt_compat.
  - rewrite div_inf_l by assumption. apply nonneg_inf.
Qed.

Lemma sqrt_nonneg (x : float) : nonneg x -> nonneg (PrimFloat.sqrt x).
Proof.
  intros Hx. destruct (nonneg_cases x Hx) as [[Fx Px]| ->].
  - destruct (sqrt_V x Fx Px) as [H Hn]. split; [exact Hn|].
    apply (R64_sign _ _ H). apply sqrt_pos.
  - rewrite sqrt_inf. apply nonneg_inf.
Qed.

Lemma round_nonneg (x : float) : nonneg x -> nonneg (round x).
Proof.
  intros Hx. destruct (nonneg_cases x Hx) as [[Fx Px]| ->].
  - destruct (round_V x Fx) as [E F]. apply nonneg_finite; [exact F|].
    rewrite E. apply IZR_le. apply Zfloor_lub. simpl. lra.
  - rewrite round_not_finite by reflexivity. apply nonneg_inf.
Qed.

(** *** Monotone functions *)

Lemma monotone_ext (f : float -> float) (g : R -> R) :
  (forall x, is_finite x = true -> R64 (g (V x)) (V (f x)) /\ is_nan (f x) = false) ->
  (forall a b, a <= b -> g a <= g b) ->
  f infinity = infinity -> f neg_infinity = neg_infinity ->
  monotone f.
Proof.
  intros Hfin Hg Hpi Hni x y Hx Hy Hxy.
  assert (Hnan : forall z, is_nan z = false -> is_nan (f z) = false).
  { intros z Hz. destruct (nonnan_cases z Hz) as [F|[I|I]].
    - now apply Hfin.
    - rewrite (inf_eq z I), Hpi. reflexivity.
    - rewrite (neg_inf_eq z I), Hni. reflexivity. }
  split; [|split; now apply Hnan].
  pose proof (V_bound (f x)) as Bx. pose proof (V_bound (f y)) as By.
  destruct (nonnan_cases y Hy) as [Fy|[Iy|Iy]].
  - destruct (nonnan_cases x Hx) as [Fx|[Ix|Ix]].
    + destruct (Hfin x Fx) as [Rx _]. destruct (Hfin y Fy) as [Ry _].
      apply (R64_mono (g (V x)) (g (V y))); [now apply Hg|exact Rx|exact Ry].
    + pose proof (finite_V_bound y Fy). destruct (V_infinity x false Ix) as (E & _). lra.
    + rewrite (neg_inf_eq x Ix), Hni, V_neg_inf. lra.
  - rewrite (inf_eq y Iy), Hpi, V_inf. lra.
  - destruct (V_infinity y true Iy) as (E & _).
    destruct (nonnan_cases x Hx) as [Fx|[Ix|Ix]].
    + pose proof (finite_V_bound x Fx). lra.
    + destruct (V_infinity x false Ix) as (E' & _). pose proof (bpow_pos 1024). lra.
    + rewrite (neg_inf_eq x Ix), (neg_inf_eq y Iy). lra.
Qed.

Lemma antitone_ext (f : float -> float) (g : R -> R) :
  (forall x, is_finite x = true -> R64 (g (V x)) (V (f x)) /\ is_nan (f x) = false) ->
  (forall a b, a <= b -> g b <= g a) ->
  f infinity = neg_infinity -> f neg_infinity = infinity ->
  antitone f.
Proof.
  intros Hfin Hg Hpi Hni x y Hx Hy Hxy.
  assert (Hnan : forall z, is_nan z = false -> is_nan (f z) = false).
  { intros z Hz. destruct (nonnan_cases z Hz) as [F|[I|I]].
    - now apply Hfin.
    - rewrite (inf_eq z I), Hpi. reflexivity.
    - rewrite (neg_inf_eq z I), Hni. reflexivity. }
  split; [|split; now apply Hnan].
  pose proof (V_bound (f x)) as Bx. pose proof (V_bound (f y)) as By.
  destruct (nonnan_cases y Hy) as [Fy|[Iy|Iy]].
  - destruct (nonnan_cases x Hx) as [Fx|[Ix|Ix]].
    + destruct (Hfin x Fx) as [Rx _]. destruct (Hfin y Fy) as [Ry _].
      apply (R64_mono (g (V y)) (g (V x))); [now apply Hg|exact Ry|exact Rx].
    + pose proof (finite_V_bound y Fy). destruct (V_infinity x false Ix) as (E & _). lra.
    + rewrite (neg_inf_eq x Ix), Hni, V_inf. lra.
  - rewrite (inf_eq y Iy), Hpi, V_neg_inf. lra.
  - destruct (V_infinity y true Iy) as (E & _).
    destruct (nonnan_cases x Hx) as [Fx|[Ix|Ix]].
    + pose proof (finite_V_bound x Fx). lra.
    + destruct (V_infinity x false Ix) as (E' & _). pose proof (bpow_pos 1024). lra.
    + rewrite (neg_inf_eq x Ix), (neg_inf_eq y Iy). lra.
Qed.

Lemma mulc_monotone (c : float) : posfin c -> monotone (fun x => x * c)%float.
Proof.
  intros Hc. apply (monotone_ext _ (fun v => v * V c)).
  - intros x Fx. apply mul_V; [exact Fx|apply Hc].
  - intros a b Hab. destruct Hc as [_ Pc]. nra.
  - now apply mul_inf_l.
  - now apply mul_neg_inf_l.
Qed.

Lemma divc_monotone (c : float) : posfin c -> monotone (fun x => x / c)%float.
Proof.
  intros Hc. apply (monotone_ext _ (fun v => v / V c)).
  - intros x Fx. apply div_V; [exact Fx|apply Hc|]. destruct Hc as [_ Pc]. lra.
  - intros a b Hab. destruct Hc as [_ Pc]. unfold Rdiv.
    apply Rmult_le_compat_r; [|exact Hab]. left. now apply Rinv_0_lt_compat.
  - now apply div_inf_l.
  - now apply div_neg_inf_l.
Qed.

Lemma addc_monotone (c : float) : is_finite c = true -> monotone (fun x => c + x)%float.
Proof.
  intros Fc. apply (monotone_ext _ (fun v => V c + v)).
  - intros x Fx. now apply add_V.
  - intros a b Hab. lra.
  - apply add_inf_r. now left.
  - now apply add_neg_inf_r.
Qed.

Lemma sub_inf_r (c : float) : is_finite c = true -> (c - infinity)%float = neg_infinity.
Proof.
  intros F. apply Prim2SF_inj. rewrite FloatAxioms.sub_spec.
  change (Prim2SF infinity) with (S754_infinity false).
  destruct (finite_SF_cases c F) as [[s ->]|(s & m & e & ->)]; reflexivity.
Qed.

Lemma sub_neg_inf_r (c : float) : is_finite c = true -> (c - neg_infinity)%float = infinity.
Proof.
  intros F. apply Prim2SF_inj. rewrite FloatAxioms.sub_spec.
  change (Prim2SF neg_infinity) with (S754_infinity true).
  destruct (finite_SF_cases c F) as [[s ->]|(s & m & e & ->)]; reflexivity.
Qed.

Lemma subc_antitone (c : float) : is_finite c = true -> antitone (fun x => c - x)%float.
Proof.
  intros Fc. apply (antitone_ext _ (fun v => V c - v)).
  - intros x Fx. now apply sub_V.
  - intros a b Hab. lra.
  - now apply sub_inf_r.
  - now apply sub_neg_inf_r.
Qed.

Lemma round_monotone : monotone round.
Proof.
  intros x y Hx Hy Hxy.
  assert (Hnan : forall z, is_nan z = false -> is_nan (round z) = false).
  { intros z Hz. destruct (is_finite z) eqn:F.
    - apply finite_not_nan. now apply round_V.
    - now rewrite round_not_finite. }
  split; [|split; now apply Hnan].
  destruct (is_finite x) eqn:Fx, (is_finite y) eqn:Fy.
  - destruct (round_V x Fx) as [-> _]. destruct (round_V y Fy) as [-> _].
    apply IZR_le. apply Zfloor_lub. pose proof (Zfloor_bound (V x + / 2)). lra.
  - rewrite (round_not_finite y Fy). destruct (nonnan_cases y Hy) as [F|[I|I]]; [congruence| |].
    + rewrite (inf_eq y I), V_inf. apply V_bound.
    + destruct (V_infinity y true I) as (E & _). pose proof (finite_V_bound x Fx). lra.
  - rewrite (round_not_finite x Fx). destruct (nonnan_cases x Hx) as [F|[I|I]]; [congruence| |].
    + destruct (V_infinity x false I) as (E & _). pose proof (finite_V_bound y Fy). lra.
    + rewrite (neg_inf_eq x I), V_neg_inf. apply V_bound.
  - now rewrite !round_not_finite.
Qed.

Lemma minc_monotone (c : float) : is_nan c = false -> monotone (min c).
Proof.
  intros Hc x y Hx Hy Hxy.
  destruct (min_V c x Hc Hx) as (-> & N1 & _). destruct (min_V c y Hc Hy) as (-> & N2 & _).
  split; [|split; assumption]. apply Rle_min_compat_l. exact Hxy.
Qed.

Lemma maxc_monotone (c : float) : is_nan c = false -> monotone (max c).
Proof.
  intros Hc x y Hx Hy Hxy.
  destruct (max_V c x Hc Hx) as (-> & N1 & _). destruct (max_V c y Hc Hy) as (-> & N2 & _).
  split; [|split; assumption]. apply Rle_max_compat_l. exact Hxy.
Qed.

Lemma monotone_comp (f g : float -> float) :
  monotone f -> monotone g -> monotone (fun x => g (f x)).
Proof.
  intros Hf Hg x y Hx Hy Hxy. destruct (Hf x y Hx Hy Hxy) as (H & Nx & Ny).
  exact (Hg (f x) (f y) Nx Ny H).
Qed.

Lemma antitone_comp (f g : float -> float) :
  monotone f -> antitone g -> antitone (fun x => g (f x)).
Proof.
  intros Hf Hg x y Hx Hy Hxy. destruct (Hf x y Hx Hy Hxy) as (H & Nx & Ny).
  exact (Hg (f x) (f y) Nx Ny H).
Qed.

(** Between a normal number and the next there is no double. *)
Lemma float_gap (a v : float) (m : positive) (e : Z) :
  Prim2SF a = S754_finite false m e -> (2 ^ 52 <= Zpos m)%Z ->
  is_nan v = false -> V a < V v -> IZR (Zpos m + 1) * bpow e <= V v.
Proof.
  intros Ha Hm Hv Hlt. pose proof (Prim2SF_valid a) as Va. rewrite Ha in Va.
  destruct (V_finite a false m e Ha) as [Ea _]. cbn [cond_Zopp] in Ea.
  pose proof (valid_finite_inv _ _ _ Va) as (_ & Le & D & Lm).
  pose proof (digits2_pos_bounds m) as [_ D2].
  assert (Hm53 : (Zpos m + 1 <= 2 ^ 53)%Z).
  { assert (Zpos m < 2 ^ 53)%Z; [|lia].
    apply Z.lt_le_trans with (2 ^ Zpos (digits2_pos m))%Z; [exact D2|].
    apply Z.pow_le_mono_r; lia. }
  pose proof (bpow_pos e) as Pe.
  assert (Hm53R : IZR (Zpos m + 1) <= bpow 53) by (rewrite bpow_IZR by lia; now apply IZR_le).
  destruct (nonnan_cases v Hv) as [F|[I|I]].
  - pose proof (Prim2SF_valid v) as Vv.
    destruct (finite_SF_cases v F) as [[s Ez]|(s & m' & e' & Ef)].
    + destruct (V_zero v s Ez) as [E0 _]. pose proof (SF2R_finite_pos m e). lra.
    + rewrite Ef in Vv. destruct (V_finite v s m' e' Ef) as [Ev _].
      pose proof (SF2R_finite_pos m e). pose proof (SF2R_finite_pos m' e').
      destruct s; cbn [cond_Zopp] in Ev.
      { change (Zneg m') with (- Zpos m')%Z in Ev. rewrite opp_IZR in Ev. lra. }
      destruct (Z.lt_trichotomy e' e) as [L|[E|L]].
      * pose proof (canonical_lt _ _ _ _ _ _ Vv Va L). lra.
      * subst e'. rewrite Ev. apply Rmult_le_compat_r; [lra|]. apply IZR_le.
        assert (IZR (Zpos m) < IZR (Zpos m')) by nra. apply lt_IZR in H1. lia.
      * pose proof (valid_finite_inv _ _ _ Vv) as (C' & _ & D' & L').
        rewrite fexp_eq in C'.
        assert (Hd' : Zpos (digits2_pos m') = 53%Z) by lia.
        pose proof (digits_bpow m') as [B' _]. rewrite Hd' in B'. change (53 - 1)%Z with 52%Z in B'.
        assert (bpow (53 + e) <= bpow (52 + e')) by (apply bpow_le; lia).
        rewrite !bpow_add in H1. rewrite Ev. pose proof (bpow_pos e').
        assert (IZR (Zpos m + 1) * bpow e <= bpow 53 * bpow e)
          by (apply Rmult_le_compat_r; lra).
        assert (bpow 52 * bpow e' <= IZR (Zpos m') * bpow e')
          by (apply Rmult_le_compat_r; lra).
        lra.
  - destruct (V_infinity v false I) as (-> & _).
    assert (bpow (53 + e) <= bpow 1024) by (apply bpow_le; lia).
    rewrite bpow_add in H.
    assert (IZR (Zpos m + 1) * bpow e <= bpow 53 * bpow e)
      by (apply Rmult_le_compat_r; lra).
    lra.
  - destruct (V_infinity v true I) as (E & _). pose proof (SF2R_finite_pos m e).
    pose proof (bpow_pos 1024). lra.
Qed.

End Calculus.

Set Implicit Arguments.

(** ** Readings and what they push *)

Section Readings.
Import App Stores Parser IEEE.

Lemma same_buffers_refl a : same_buffers a a.
Proof. repeat split. Qed.

Lemma same_buffers_trans a b c : same_buffers a b -> same_buffers b c -> same_buffers a c.
Proof. intros (?&?&?&?) (?&?&?&?). repeat split; congruence. Qed.

Lemma within_capacity_same a b : same_buffers a b -> within_capacity b -> within_capacity a.
Proof.
  intros (H1 & H2 & H3 & H4). unfold within_capacity, history.
  now rewrite H1, H2, H3, H4.
Qed.

Lemma V_0 : V 0 = 0%R.
Proof. unfold V. cbn. reflexivity. Qed.

(** A number above zero is truthy: the first test of line 331 follows
    from the second. *)
Lemma positive_truthy (b : float) : (0 <? b)%float = true -> Number.truthy b = true.
Proof.
  intros H. destruct (ltb_nonnan _ _ H) as [H0 Hb].
  apply (ltb_V _ _ H0 Hb) in H. rewrite V_0 in H.
  unfold Number.truthy. rewrite Hb. cbn [orb].
  destruct (is_zero b) eqn:Hz; [|reflexivity].
  unfold is_zero in Hz. apply (eqb_V _ _ Hb H0) in Hz. rewrite V_0 in Hz. lra.
Qed.

Lemma truthy_positive (b : float) : Number.truthy b && (0 <? b)%float = (0 <? b)%float.
Proof.
  destruct (0 <? b)%float eqn:H; [|apply andb_false_r].
  now rewrite (positive_truthy H).
Qed.

(** Lines 320-356 touch the buffers through the pushes of the Reading,
    and not at all when there is none. *)
Lemma store_fields_buffers m now f a :
  same_buffers (store_fields m now f a)
    (match reading_of f with
     | Some r => fold_left store (pushes_of now r) a
     | None => a
     end).
Proof.
  unfold store_fields, reading_of.
  destruct (negb (Number.isNaN (val1 f)) && negb (Number.isNaN (val2 f)));
    [|apply same_buffers_refl].
  destruct (arduinoBPM f) as [b|]; [|apply same_buffers_refl].
  rewrite truthy_positive.
  destruct (0 <? b)%float; [|apply same_buffers_refl].
  destruct (arduinoIrr f) as [i|]; [destruct (0 <=? i)%float|];
    destruct m; repeat split.
Qed.

Lemma fold_store_same ps : forall x y,
  same_buffers x y -> same_buffers (fold_left store ps x) (fold_left store ps y).
Proof.
  induction ps as [|q ps IH]; intros x y Hxy; [exact Hxy|].
  cbn [fold_left]. apply IH. destruct Hxy as (H1 & H2 & H3 & H4).
  destruct q; cbn [store]; unfold store_samples, store_beat, store_irregularity;
    rewrite ?H1, ?H2, ?H3, ?H4;
    repeat match goal with |- context [if ?c then _ else _] => destruct c end;
    repeat split; try reflexivity; cbn; assumption.
Qed.

Lemma read_value_buffers m now a value :
  same_buffers (read_value m now a value)
    (match reading_of_value value with
     | Some r => fold_left store (pushes_of now r) a
     | None => a
     end).
Proof.
  unfold read_value, reading_of_value.
  destruct value as [|c v]; [apply same_buffers_refl|].
  destruct (is_status (JS.trim (String c v))).
  - destruct (JS.includes (JS.trim (String c v)) "Complete"); repeat split.
  - destruct (2 <=? List.length (JS.split_commas (JS.trim (String c v))))%nat;
      [|repeat split].
    eapply same_buffers_trans; [apply store_fields_buffers|].
    destruct (reading_of _); [|repeat split].
    apply fold_store_same. repeat split.
Qed.

End Readings.

Section Capacity.
Import App Stores Parser.

Lemma compute_buffers a : same_buffers (compute a) a.
Proof.
  unfold compute.
  destruct (negb (hasArduinoIrr a) && (List.length (beatsRef a) <? 3)%nat);
    [repeat split|].
  destruct (assess (heart_rate a) (rhythm_irregularity a)). repeat split.
Qed.

Lemma disconnect_empties a : port a = true -> all_empty (disconnectSerial a).
Proof.
  intros Hp. unfold disconnectSerial, all_empty, history. rewrite Hp. cbn [negb].
  cbn. destruct (arduinoIrregularity a) eqn:E; cbn; rewrite ?E; repeat split.
Qed.

Lemma all_empty_within a : all_empty a -> within_capacity a.
Proof.
  intros (H1 & H2 & H3 & H4). unfold within_capacity.
  rewrite H1, H2, H3, H4. cbn; unfold MAX_SAMPLES. lia.
Qed.

Lemma step_within_capacity s e :
  within_capacity (ui s) -> within_capacity (ui (step s e)).
Proof.
  intros H. destruct e; cbn [step ui];
    try (eapply within_capacity_same; [|exact H]; repeat split; fail).
  - eapply within_capacity_same; [apply read_value_buffers|].
    destruct (reading_of_value value); [|exact H].
    now apply fold_store.
  - unfold disconnectSerial. destruct (port (ui s)) eqn:Hp; cbn [negb]; [|exact H].
    apply all_empty_within. generalize (disconnect_empties _ Hp).
    unfold disconnectSerial. now rewrite Hp.
  - eapply within_capacity_same; [apply compute_buffers|exact H].
Qed.

(** No buffer of a mounted component is ever over its capacity. *)
Lemma reachable_within_capacity es : within_capacity (ui (run start es)).
Proof.
  unfold run.
  assert (H : within_capacity (ui start)) by (apply all_empty_within; repeat split).
  revert H. generalize start. induction es as [|e es IH]; intros s H; [exact H|].
  cbn [fold_left]. apply IH. now apply step_within_capacity.
Qed.

(** C4. From buffers within capacity, any sequence of pushes leaves every
    buffer within capacity (1500, 1500, 50 and 10); a buffer that was sent
    more items than its capacity is full and holds exactly the last
    capacity-many of them, in the order they were pushed. In every state a
    mounted component can reach, the buffers are within capacity. *)
Theorem ring_buffers_fifo (a : app) (ps : list push) :
  within_capacity a ->
  let a' := fold_left store ps a in
  within_capacity a'
  /\ (MAX_SAMPLES < List.length (leadII_of ps) ->
      samplesRef a' = slice_last MAX_SAMPLES (leadII_of ps)
      /\ List.length (samplesRef a') = MAX_SAMPLES)
  /\ (MAX_SAMPLES < List.length (leadI_of ps) ->
      samples2Ref a' = slice_last MAX_SAMPLES (leadI_of ps)
      /\ List.length (samples2Ref a') = MAX_SAMPLES)
  /\ (50 < List.length (beats_of ps) ->
      beatsRef a' = slice_last 50 (beats_of ps)
      /\ List.length (beatsRef a') = 50)
  /\ (10 < List.length (irregularities_of ps) ->
      history a' = slice_last 10 (irregularities_of ps)
      /\ List.length (history a') = 10)
  /\ (forall es, within_capacity (ui (run start es))).
Proof.
  intros Ha; cbn zeta.
  destruct (fold_store ps Ha) as (Hw & H1 & H2 & H3 & H4).
  assert (Hfull : forall (A : Type) c (l xs : list A), c < List.length xs ->
            slice_last c (l ++ xs) = slice_last c xs
            /\ List.length (slice_last c (l ++ xs)) = c).
  { intros A c l xs Hlen. split.
    - apply slice_last_app_full. lia.
    - rewrite slice_last_length, length_app. lia. }
  rewrite H1, H2, H3, H4.
  repeat (split; [solve [exact Hw | intros Hlen; now apply Hfull]|]).
  apply reachable_within_capacity.
Qed.

(** C6, as the code has it. From buffers within capacity, a value of the
    reader that yields a Reading appends Lead II and Lead I to their
    sample arrays; with a BPM it also appends the ingestion time to the
    beat array, which is otherwise left alone; the irregularity is
    appended to the device history only when the Reading has a BPM as well
    as an irregularity, and the history is otherwise left alone; each
    array keeps the last capacity-many of its items. A value that yields
    no Reading leaves the four buffers as they were. *)
Theorem reading_pushes (m : bool) (now : Z) (a : app) (value : string) (r : Reading) :
  within_capacity a ->
  reading_of_value value = Some r ->
  let a' := read_value m now a value in
  samplesRef a' = slice_last MAX_SAMPLES (samplesRef a ++ [leadII r])
  /\ samples2Ref a' = slice_last MAX_SAMPLES (samples2Ref a ++ [leadI r])
  /\ beatsRef a' = match deviceBpm r with
                   | Some _ => slice_last 50 (beatsRef a ++ [now])
                   | None => beatsRef a
                   end
  /\ history a' = match deviceBpm r, deviceIrregularity r with
                  | Some _, Some i => slice_last 10 (history a ++ [i])
                  | _, _ => history a
                  end
  /\ (forall value', reading_of_value value' = None ->
      same_buffers (read_value m now a value') a).
Proof.
  intros Ha Hr; cbn zeta.
  assert (Hnone : forall value', reading_of_value value' = None ->
            same_buffers (read_value m now a value') a).
  { intros value' Hn. generalize (read_value_buffers m now a value'). now rewrite Hn. }
  destruct (read_value_buffers m now a value) as (E1 & E2 & E3 & E4).
  unfold history at 1. rewrite E1, E2, E3, E4, Hr. clear E1 E2 E3 E4.
  destruct (fold_store (pushes_of now r) Ha) as (_ & H1 & H2 & H3 & H4).
  unfold history at 1 in H4. rewrite H1, H2, H3, H4. clear H1 H2 H3 H4.
  destruct Ha as (Hs & Heq & Hb & Hh).
  unfold pushes_of.
  destruct (deviceBpm r) as [b|], (deviceIrregularity r) as [i|];
    cbn [leadII_of leadI_of beats_of irregularities_of flat_map List.app];
    rewrite ?app_nil_r;
    rewrite ?(slice_last_short _ Hb), ?(slice_last_short _ Hh);
    (split; [reflexivity|split; [reflexivity|split; [reflexivity|split;
       [reflexivity|exact Hnone]]]]).
Qed.

End Capacity.

(** ** Session flags *)

Section SessionFlags.
Import App Stores Parser Session.

Ltac by_cases :=
  repeat match goal with
    | |- context [if ?c then _ else _] => destruct c
    | |- context [match ?x with Some _ => _ | None => _ end] => destruct x
    end;
  reflexivity.

Lemma store_keeps_flags a p : flags (store a p) = flags a.
Proof.
  destruct p; cbn [store]; unfold store_samples, store_beat, store_irregularity, flags;
    by_cases.
Qed.

Lemma store_fields_flags m now f a :
  flags (store_fields m now f a)
  = (port a, calibrating a,
     match reading_of f with
     | Some r => match deviceBpm r with
                 | Some _ => if m then monitoringActive a else true
                 | None => monitoringActive a
                 end
     | None => monitoringActive a
     end).
Proof.
  unfold store_fields, reading_of.
  destruct (negb (Number.isNaN (val1 f)) && negb (Number.isNaN (val2 f)));
    [|reflexivity].
  cbn [deviceBpm].
  pose proof (store_keeps_flags a (Samples (val1 f) (val2 f))) as Hs. cbn [store] in Hs.
  destruct (arduinoBPM f) as [b|]; [|exact Hs].
  rewrite truthy_positive. destruct (0 <? b)%float; [|exact Hs].
  set (a1 := store_samples (val1 f) (val2 f) a) in *.
  set (a2 := setLastParsedBpm (Some b) (setBpm (Some b) a1)).
  assert (H2 : flags a2 = flags a) by exact Hs.
  pose proof (store_keeps_flags a2 (Beat now)) as H3. cbn [store] in H3.
  set (a3 := store_beat now a2) in *.
  assert (H4 : forall a4,
             a4 = match arduinoIrr f with
                  | Some i => if (0 <=? i)%float
                              then setLastParsedIrr (Some i) (store_irregularity i a3)
                              else a3
                  | None => a3
                  end -> flags a4 = flags a).
  { intros a4 ->. rewrite <- H2, <- H3.
    destruct (arduinoIrr f) as [i|]; [|reflexivity].
    destruct (0 <=? i)%float; [|reflexivity].
    exact (store_keeps_flags a3 (Irregularity i)). }
  specialize (H4 _ eq_refl). revert H4. generalize (match arduinoIrr f with
    | Some i => if (0 <=? i)%float
                then setLastParsedIrr (Some i) (store_irregularity i a3) else a3
    | None => a3 end).
  intros a4 H4. unfold flags in *. destruct m; cbn [negb]; [exact H4|].
  injection H4 as Hp Hc _. cbn. now rewrite Hp, Hc.
Qed.

(** What a value of the reader does to the flags. *)
Lemma read_value_flags m now a value :
  flags (read_value m now a value)
  = match value with
    | EmptyString => flags a
    | _ =>
        if is_status (JS.trim value) then
          (port a,
           if JS.includes (JS.trim value) "Complete" then false else calibrating a,
           monitoringActive a)
        else
          (port a, calibrating a,
           match reading_of_value value with
           | Some r => match deviceBpm r with
                       | Some _ => if m then monitoringActive a else true
                       | None => monitoringActive a
                       end
           | None => monitoringActive a
           end)
    end.
Proof.
  unfold read_value, reading_of_value.
  destruct value as [|c v]; [reflexivity|].
  destruct (is_status (JS.trim (String c v))).
  - destruct (JS.includes (JS.trim (String c v)) "Complete"); reflexivity.
  - destruct (2 <=? List.length (JS.split_commas (JS.trim (String c v))))%nat;
      [|reflexivity].
    now rewrite store_fields_flags.
Qed.

End SessionFlags.

Section SessionMachine.
Import App Stores Parser Session.


(** C9, as the code has it. A disconnect request while a port is held
    leaves the session Disconnected with all four buffers empty and the
    BPM forgotten; the session opened next starts Calibrating with every
    buffer empty, and its buffers hold nothing but what that session
    pushes. A transport failure clears the calibrating flag and nothing
    else: the port stays held and the buffers keep their contents. *)
Theorem disconnect_clears (a : app) :
  port a = true ->
  let d := disconnectSerial a in
  let c := connect_opened d in
  Disconnected d /\ all_empty d /\ bpm d = None
  /\ flags d = (false, false, false)
  /\ Calibrating c /\ all_empty c
  /\ (forall ps,
        let c' := fold_left store ps c in
        samplesRef c' = slice_last MAX_SAMPLES (leadII_of ps)
        /\ samples2Ref c' = slice_last MAX_SAMPLES (leadI_of ps)
        /\ beatsRef c' = slice_last 50 (beats_of ps)
        /\ history c' = slice_last 10 (irregularities_of ps))
  /\ same_buffers (connect_error a) a
  /\ flags (connect_error a) = (true, false, monitoringActive a).
Proof.
  intros Hp; cbn zeta.
  pose proof (disconnect_empties _ Hp) as He.
  assert (Hc : all_empty (connect_opened (disconnectSerial a))).
  { destruct He as (H1 & H2 & H3 & H4). unfold all_empty, history in *.
    repeat split; assumption. }
  assert (Hd : bpm (disconnectSerial a) = None /\ flags (disconnectSerial a) = (false, false, false)).
  { unfold disconnectSerial. rewrite Hp. cbn.
    destruct (arduinoIrregularity a); split; reflexivity. }
  destruct Hd as [Hb Hf].
  repeat match goal with |- _ /\ _ => split end; try assumption.
  - unfold Disconnected. now injection Hf.
  - split; reflexivity.
  - intros ps; cbn zeta.
    destruct (fold_store ps (all_empty_within Hc)) as (_ & H1 & H2 & H3 & H4).
    destruct Hc as (E1 & E2 & E3 & E4).
    rewrite H1, H2, H3, H4, E1, E2, E3, E4. repeat split.
  - repeat split.
  - unfold flags. cbn. now rewrite Hp.
Qed.

End SessionMachine.

(** ** The properties at concrete inputs *)

Section Instances.
Import App Stores Parser Session.

(** A text of two complete lines and a partial, cut inside a field and
    inside a line, against the same text in one chunk. *)
Lemma framer_chunk_invariance_witness :
  let nl := String LineBreakTransformer.LF EmptyString in
  let text := ("0.1,0.2,70" ++ nl ++ "0.3,0.4" ++ nl ++ "0.5")%string in
  let chunks := ["0.1,0."; "2,70" ++ nl ++ "0.3"; ",0.4" ++ nl ++ "0.5"]%string in
  LineBreakTransformer.enqueued (LineBreakTransformer.feed chunks)
  = ["0.1,0.2,70"; "0.3,0.4"]%string
  /\ LineBreakTransformer.run chunks = ["0.1,0.2,70"; "0.3,0.4"; "0.5"]%string
  /\ LineBreakTransformer.run [text] = LineBreakTransformer.run chunks.
Proof.
  intros nl text chunks.
  destruct (@framer_chunk_invariance text chunks [text] eq_refl eq_refl)
    as (_ & _ & _ & _ & _ & _ & Hrun & Hinv).
  split; [reflexivity|]. split; [rewrite Hrun; reflexivity | exact Hinv].
Defined.

(** 1501 sample pairs, 51 beats and 11 irregularities pushed into the
    buffers of a fresh component. *)
Lemma ring_buffers_fifo_witness :
  let ps := map (fun n => Samples (Number.of_nat n) (- Number.of_nat n)) (seq 0 1501)
            ++ map (fun n => Beat (Z.of_nat n)) (seq 0 51)
            ++ map (fun n => Irregularity (Number.of_nat n)) (seq 0 11) in
  let a' := fold_left store ps initial in
  samplesRef a' = map (fun n => (- Number.of_nat n)%float) (seq 1 1500)
  /\ samples2Ref a' = map Number.of_nat (seq 1 1500)
  /\ beatsRef a' = map Z.of_nat (seq 1 50)
  /\ history a' = map Number.of_nat (seq 1 10).
Proof.
  intros ps a'.
  assert (Hi : within_capacity initial) by (apply all_empty_within; repeat split).
  destruct (@ring_buffers_fifo initial ps Hi) as (_ & H1 & H2 & H3 & H4 & _).
  destruct H1 as [H1 _]; [apply Nat.ltb_lt; vm_compute; reflexivity|].
  destruct H2 as [H2 _]; [apply Nat.ltb_lt; vm_compute; reflexivity|].
  destruct H3 as [H3 _]; [apply Nat.ltb_lt; vm_compute; reflexivity|].
  destruct H4 as [H4 _]; [apply Nat.ltb_lt; vm_compute; reflexivity|].
  subst a'. rewrite H1, H2, H3, H4. vm_compute. repeat split.
Defined.

(** A line with both optional fields, and one whose irregularity is
    [Infinity], from a fresh component. *)
Lemma reading_pushes_witness :
  let a := read_value false 1000 initial "0.1,0.2,72,0.05" in
  let b := read_value false 1000 initial "0.1,0.2,72,Infinity" in
  (samplesRef a = [Number.of_ratio 2 10] /\ samples2Ref a = [Number.of_ratio 1 10]
   /\ beatsRef a = [1000%Z] /\ history a = [Number.of_ratio 5 100])
  /\ history b = [infinity].
Proof.
  assert (Hi : within_capacity initial) by (apply all_empty_within; repeat split).
  split.
  - destruct (@reading_pushes false 1000 initial "0.1,0.2,72,0.05"
                (mkReading (Number.of_ratio 1 10) (Number.of_ratio 2 10)
                   (Some 72%float) (Some (Number.of_ratio 5 100)))
                Hi eq_refl) as (H1 & H2 & H3 & H4 & _).
    cbv zeta. rewrite H1, H2, H3, H4. repeat split.
  - destruct (@reading_pushes false 1000 initial "0.1,0.2,72,Infinity"
                (mkReading (Number.of_ratio 1 10) (Number.of_ratio 2 10)
                   (Some 72%float) (Some infinity))
                Hi eq_refl) as (_ & _ & _ & H4 & _).
    cbv zeta. rewrite H4. reflexivity.
Defined.

(** C6 as stated fails: a line whose BPM field is 0 carries no BPM but an
    irregularity of 0.5; the code leaves the irregularity history alone,
    where the claim has 0.5 pushed. *)
Lemma irregularity_without_bpm_is_dropped :
  let value := "0.1,0.2,0,0.5"%string in
  let r := mkReading (Number.of_ratio 1 10) (Number.of_ratio 2 10) None
             (Some (Number.of_ratio 5 10)) in
  reading_of_value value = Some r
  /\ history (read_value false 1000 initial value) = []
  /\ history (fold_left store (spec_pushes_of 1000 r) initial) = [Number.of_ratio 5 10].
Proof. vm_compute. repeat split. Qed.



(** A session that has taken in one line, then a disconnect request. *)
Lemma disconnect_clears_witness :
  let a := ui (run start [Opened; Value 1000 "0.1,0.2,72,0.05"]) in
  samplesRef a = [Number.of_ratio 2 10]
  /\ all_empty (disconnectSerial a)
  /\ all_empty (connect_opened (disconnectSerial a)).
Proof.
  intros a.
  destruct (@disconnect_clears a eq_refl) as (_ & H1 & _ & _ & _ & H2 & _).
  split; [reflexivity|]. split; assumption.
Defined.

(** C9 as stated fails: after a read that throws, the port is still held,
    monitoring is still on and the four buffers still hold what the session
    took in. *)
Lemma transport_failure_keeps_buffers :
  let a := ui (run start [Opened; Value 1000 "0.1,0.2,72,0.05"; ReadFailed]) in
  flags a = (true, false, true)
  /\ samplesRef a = [Number.of_ratio 2 10] /\ samples2Ref a = [Number.of_ratio 1 10]
  /\ beatsRef a = [1000%Z] /\ history a = [Number.of_ratio 5 100].
Proof. vm_compute. repeat split. Qed.

End Instances.

(** ** Risk scorer *)

Section Scorer.
Import App Stores IEEE.

Lemma hasArduinoIrr_history a : hasArduinoIrr a = true <-> history a <> [].
Proof.
  unfold hasArduinoIrr, history.
  destruct (arduinoIrregularity a) as [[|x h]|]; split; congruence.
Qed.

(** The value of a small whole number. *)
Lemma V_whole (z : Z) :
  (Z.abs z <=? 2 ^ 53)%Z = true -> V (Number.of_Z z) = IZR z /\ is_finite (Number.of_Z z) = true.
Proof. intros H. apply of_Z_exact. now apply Z.leb_le. Qed.

Lemma bpow_1024_large (z : Z) : (Z.abs z <=? 2 ^ 53)%Z = true -> (Rabs (IZR z) < bpow 1024)%R.
Proof.
  intros H. apply Z.leb_le in H. rewrite <- abs_IZR.
  apply Rle_lt_trans with (IZR (2 ^ 53)); [now apply IZR_le|].
  rewrite <- bpow_IZR by lia. apply bpow_lt. lia.
Qed.

(** A number between two whole numbers is finite. *)
Lemma between_finite (x : float) (lo hi : Z) :
  is_nan x = false ->
  (Z.abs lo <=? 2 ^ 53)%Z = true -> (Z.abs hi <=? 2 ^ 53)%Z = true ->
  (IZR lo <= V x <= IZR hi)%R -> is_finite x = true.
Proof.
  intros Hn Hlo Hhi [H1 H2]. apply V_bound_finite; [exact Hn|].
  pose proof (bpow_1024_large _ Hlo) as Blo. pose proof (bpow_1024_large _ Hhi) as Bhi.
  unfold Rabs in *. destruct (Rcase_abs (IZR lo)), (Rcase_abs (IZR hi)); lra.
Qed.

(** The scorer publishes what [assess] makes of the heart rate and the
    irregularity whenever it does not stop at line 60. *)
Lemma compute_publishes a :
  hasArduinoIrr a = true \/ (3 <= List.length (beatsRef a))%nat ->
  breakdown (compute a) = fst (assess (heart_rate a) (rhythm_irregularity a))
  /\ healthCategory (compute a) = snd (assess (heart_rate a) (rhythm_irregularity a)).
Proof.
  intros H. unfold compute.
  replace (negb (hasArduinoIrr a) && (List.length (beatsRef a) <? 3)%nat)%bool with false.
  - destruct (assess (heart_rate a) (rhythm_irregularity a)). split; reflexivity.
  - symmetry. destruct H as [->|H]; [reflexivity|].
    apply andb_false_iff. right. apply Nat.ltb_ge. exact H.
Qed.

(** The two heart-rate bands: each gives 0, 20 or 40 points, never both
    more than 0, and their sum in doubles is exact. *)
Lemma band_points (hr : float) :
  let b := (if hr <? 50 then 40 else if hr <? 60 then 20 else 0)%float in
  let t := (if 120 <? hr then 40 else if 100 <? hr then 20 else 0)%float in
  exists kb kt : Z,
    b = Number.of_Z kb /\ t = Number.of_Z kt /\ (b + t)%float = Number.of_Z (kb + kt)
    /\ (kb = 0 \/ kb = 20 \/ kb = 40)%Z /\ (kt = 0 \/ kt = 20 \/ kt = 40)%Z
    /\ (kb = 0 \/ kt = 0)%Z.
Proof.
  cbn zeta.
  assert (V50 : V 50 = 50%R) by (apply (V_int 50 50 eq_refl); vm_compute; discriminate).
  assert (V60 : V 60 = 60%R) by (apply (V_int 60 60 eq_refl); vm_compute; discriminate).
  assert (V100 : V 100 = 100%R) by (apply (V_int 100 100 eq_refl); vm_compute; discriminate).
  assert (V120 : V 120 = 120%R) by (apply (V_int 120 120 eq_refl); vm_compute; discriminate).
  assert (Hlow : forall c d, ((hr <? c)%float = true -> (d <? hr)%float = true ->
                              (V d < V c)%R)).
  { intros c d H1 H2.
    destruct (ltb_nonnan _ _ H1) as [Nh Nc]. destruct (ltb_nonnan _ _ H2) as [Nd _].
    apply (ltb_V _ _ Nh Nc) in H1. apply (ltb_V _ _ Nd Nh) in H2. lra. }
  destruct (hr <? 50)%float eqn:H50; [|destruct (hr <? 60)%float eqn:H60];
    (destruct (120 <? hr)%float eqn:H120; [|destruct (100 <? hr)%float eqn:H100]);
    try (exfalso; match goal with
           | A : (hr <? ?c)%float = true, B : (?d <? hr)%float = true |- _ =>
               pose proof (Hlow c d A B); lra
           end).
  - exists 40%Z, 0%Z. repeat split; auto.
  - exists 20%Z, 0%Z. repeat split; auto.
  - exists 0%Z, 40%Z. repeat split; auto.
  - exists 0%Z, 20%Z. repeat split; auto.
  - exists 0%Z, 0%Z. repeat split; auto.
Qed.

(** [irr * 40] for an irregularity in [0,1]: the product is the nearest
    double, within [0,40], and [Math.round] takes it to a whole number of
    that range, the nearest one, the upper one on a tie. *)
Lemma irregularity_points (irr : float) :
  (0 <=? irr)%float = true -> (irr <=? 1)%float = true ->
  let p := (irr * 40)%float in
  R64 (V irr * 40) (V p)
  /\ exists k : Z, V (Number.round p) = IZR k /\ is_finite (Number.round p) = true
                   /\ (0 <= k <= 40)%Z /\ (IZR k - / 2 <= V p < IZR k + / 2)%R.
Proof.
  intros H0 H1; cbn zeta.
  destruct (leb_nonnan _ _ H0) as [N0 Ni]. destruct (leb_nonnan _ _ H1) as [_ N1].
  apply (leb_V _ _ N0 Ni) in H0. apply (leb_V _ _ Ni N1) in H1.
  assert (V1 : V 1 = 1%R) by (apply (V_int 1 1 eq_refl); vm_compute; discriminate).
  assert (V40 : V 40 = 40%R /\ is_finite 40 = true)
    by (apply (V_int 40 40 eq_refl); vm_compute; discriminate).
  destruct V40 as [V40 F40]. rewrite V_0 in H0. rewrite V1 in H1.
  assert (Fi : is_finite irr = true).
  { apply (between_finite irr 0 1 Ni eq_refl eq_refl). lra. }
  destruct (mul_V irr 40 Fi F40) as [Hp Np]. rewrite V40 in Hp.
  split; [exact Hp|].
  assert (Bp : (0 <= V (irr * 40)%float <= 40)%R).
  { split.
    - apply (R64_mono 0 (V irr * 40) _ _); [lra|exact R64_0|exact Hp].
    - apply (R64_mono (V irr * 40) 40 _ _); [lra|exact Hp|].
      apply (R64_int 40). vm_compute. discriminate. }
  assert (Fp : is_finite (irr * 40)%float = true).
  { apply (between_finite _ 0 40 Np eq_refl eq_refl). exact Bp. }
  destruct (round_V _ Fp) as [Hr Fr].
  exists (Zfloor (V (irr * 40)%float + / 2)).
  pose proof (Zfloor_bound (V (irr * 40)%float + / 2)) as [Z1 Z2].
  split; [exact Hr|]. split; [exact Fr|]. split; [|lra].
  split.
  - apply Z.lt_succ_r, lt_IZR. rewrite succ_IZR. lra.
  - apply Z.lt_succ_r, lt_IZR. rewrite succ_IZR. lra.
Qed.

(** The sum of the band points and of whole irregularity points up to
    40 is exact and at most 80, and the clamp leaves it as it is. *)
Lemma clamped_sum (b t i : float) (kb kt k : Z) :
  (b + t)%float = Number.of_Z (kb + kt) -> (0 <= kb + kt <= 40)%Z ->
  V i = IZR k -> is_finite i = true -> (0 <= k <= 40)%Z ->
  let s := Number.max 0 (Number.min 100 (b + t + i)%float) in
  V s = IZR (kb + kt + k) /\ is_nan s = false.
Proof.
  intros Ebt Bbt Hk Fk Bk; cbn zeta.
  assert (Wbt : V (b + t)%float = IZR (kb + kt) /\ is_finite (b + t)%float = true).
  { rewrite Ebt. apply of_Z_exact. lia. }
  destruct Wbt as [Vbt Fbt].
  destruct (add_V (b + t)%float i Fbt Fk) as [Hs Ns]. rewrite Vbt, Hk, <- plus_IZR in Hs.
  assert (Vs0 : V (b + t + i)%float = IZR (kb + kt + k)).
  { apply (R64_unique _ _ _ Hs). apply R64_int. lia. }
  assert (V100 : V 100 = 100%R /\ is_finite 100 = true)
    by (apply (V_int 100 100 eq_refl); vm_compute; discriminate).
  destruct V100 as [V100 F100].
  destruct (min_V 100 (b + t + i)%float (finite_not_nan _ F100) Ns) as (Vm & Nm & _).
  destruct (max_V 0 _ eq_refl Nm) as (Vx & Nx & _).
  split; [|exact Nx].
  rewrite Vx, Vm, Vs0, V100, V_0.
  assert (0 <= IZR (kb + kt + k) <= 80)%R.
  { split; [apply (IZR_le 0)|apply (IZR_le _ 80)]; lia. }
  rewrite Rmin_right by lra. apply Rmax_right. lra.
Qed.

(** C1. For a heart rate and an irregularity in [0,1], in doubles: the
    bradycardia points are 40 below 50, 20 below 60, else 0; the
    tachycardia points 40 above 120, 20 above 100, else 0; the
    irregularity points are [Math.round] of the product [irr * 40], the
    whole number nearest to that product, and lie in [0,40]; the score is
    the sum clamped to [0,100], which here is the exact sum, and lies in
    [0,100]; the category is High from 70, Moderate from 35, Normal
    below. A run of the scorer that does not stop for lack of data
    publishes exactly these. *)
Theorem risk_score (hr irr : float) :
  (0 <=? irr)%float = true -> (irr <=? 1)%float = true ->
  let pts := fst (assess hr irr) in
  let h := snd (assess hr irr) in
  brady pts = (if hr <? 50 then 40 else if hr <? 60 then 20 else 0)%float
  /\ tachy pts = (if 120 <? hr then 40 else if 100 <? hr then 20 else 0)%float
  /\ irregularity pts = Number.round (irr * 40)%float
  /\ R64 (V irr * 40) (V (irr * 40)%float)
  /\ (exists k : Z, V (irregularity pts) = IZR k /\ (0 <= k <= 40)%Z
                    /\ (IZR k - / 2 <= V (irr * 40)%float < IZR k + / 2)%R)
  /\ ((0 <=? irregularity pts)%float = true /\ (irregularity pts <=? 40)%float = true)
  /\ score h = Number.max 0 (Number.min 100 (brady pts + tachy pts + irregularity pts)%float)
  /\ (V (score h) = V (brady pts) + V (tachy pts) + V (irregularity pts))%R
  /\ ((0 <=? score h)%float = true /\ (score h <=? 100)%float = true)
  /\ level h = (if (70 <=? score h)%float then High
                else if (35 <=? score h)%float then Moderate else Normal)
  /\ (level h = High <-> (70 <= V (score h))%R)
  /\ (level h = Normal <-> (V (score h) < 35)%R)
  /\ (forall a,
        hasArduinoIrr a = true \/ (3 <= List.length (beatsRef a))%nat ->
        heart_rate a = hr -> rhythm_irregularity a = irr ->
        breakdown (compute a) = pts /\ healthCategory (compute a) = h).
Proof.
  intros H0 H1; cbn zeta.
  assert (Hpub : forall a,
             hasArduinoIrr a = true \/ (3 <= List.length (beatsRef a))%nat ->
             heart_rate a = hr -> rhythm_irregularity a = irr ->
             breakdown (compute a) = fst (assess hr irr)
             /\ healthCategory (compute a) = snd (assess hr irr)).
  { intros a Ha <- <-. now apply compute_publishes. }
  revert Hpub. unfold assess.
  destruct (irregularity_points H0 H1) as (Hp & k & Hk & Fk & Bk & Nk).
  destruct (band_points hr) as (kb & kt & Eb & Et & Ebt & Rb & Rt & Rbt).
  set (b := (if hr <? 50 then 40 else if hr <? 60 then 20 else 0)%float) in *.
  set (t := (if 120 <? hr then 40 else if 100 <? hr then 20 else 0)%float) in *.
  set (i := Number.round (irr * 40)%float) in *.
  set (s := Number.max 0 (Number.min 100 (b + t + i)%float)).
  assert (Wb : V b = IZR kb /\ is_finite b = true).
  { rewrite Eb. apply V_whole. destruct Rb as [->|[->| ->]]; reflexivity. }
  assert (Wt : V t = IZR kt /\ is_finite t = true).
  { rewrite Et. apply V_whole. destruct Rt as [->|[->| ->]]; reflexivity. }
  destruct Wb as [Vb Fb], Wt as [Vt Ft].
  assert (Bsum : (0 <= kb + kt + k <= 80)%Z) by lia.
  assert (Bbt : (0 <= kb + kt <= 40)%Z) by lia.
  destruct (@clamped_sum b t i kb kt k Ebt Bbt Hk Fk Bk) as [Vs Nx]. fold s in Vs, Nx.
  assert (V100 : V 100 = 100%R /\ is_finite 100 = true)
    by (apply (V_int 100 100 eq_refl); vm_compute; discriminate).
  destruct V100 as [V100 F100].
  assert (V70 : V 70 = 70%R /\ is_finite 70 = true)
    by (apply (V_int 70 70 eq_refl); vm_compute; discriminate).
  assert (V35 : V 35 = 35%R /\ is_finite 35 = true)
    by (apply (V_int 35 35 eq_refl); vm_compute; discriminate).
  assert (V40 : V 40 = 40%R /\ is_finite 40 = true)
    by (apply (V_int 40 40 eq_refl); vm_compute; discriminate).
  destruct V70 as [V70 F70], V35 as [V35 F35], V40 as [V40 F40].
  pose proof (leb_V 70 s (finite_not_nan _ F70) Nx) as L70.
  pose proof (leb_V 35 s (finite_not_nan _ F35) Nx) as L35.
  rewrite V70 in L70. rewrite V35 in L35.
  assert (Ri : (0 <= IZR k <= 40)%R).
  { split; [apply (IZR_le 0)|apply (IZR_le _ 40)]; lia. }
  assert (Rs : (0 <= V s <= 100)%R).
  { rewrite Vs. split; [apply (IZR_le 0)|apply (IZR_le _ 100)]; lia. }
  assert (Ci : (0 <=? i)%float = true /\ (i <=? 40)%float = true).
  { split.
    - apply (leb_V 0 i eq_refl (finite_not_nan _ Fk)). rewrite V_0, Hk. lra.
    - apply (leb_V i 40 (finite_not_nan _ Fk) (finite_not_nan _ F40)). rewrite V40, Hk. lra. }
  assert (Cs : (0 <=? s)%float = true /\ (s <=? 100)%float = true).
  { split.
    - apply (leb_V 0 s eq_refl Nx). rewrite V_0. lra.
    - apply (leb_V s 100 Nx (finite_not_nan _ F100)). rewrite V100. lra. }
  assert (Esum : (V s = V b + V t + V i)%R).
  { rewrite Vs, Vb, Vt, Hk, !plus_IZR. reflexivity. }
  intros Hpub.
  destruct (70 <=? s)%float eqn:H70; [|destruct (35 <=? s)%float eqn:H35];
    cbn [fst snd brady tachy irregularity score level] in *;
    fold s; rewrite ?H70, ?H35;
    (split; [reflexivity|]); (split; [reflexivity|]); (split; [reflexivity|]);
    (split; [exact Hp|]);
    (split; [exists k; split; [exact Hk|split; [exact Bk|exact Nk]]|]);
    (split; [exact Ci|]); (split; [reflexivity|]); (split; [exact Esum|]);
    (split; [exact Cs|]); (split; [reflexivity|]).
  - pose proof (proj1 L70 eq_refl) as G70.
    split; [split; [intros _; exact G70|reflexivity]|].
    split; [split; [discriminate|]|exact Hpub].
    intros Hlt. lra.
  - assert (~ (70 <= V s)%R) by (intros Hge; apply L70 in Hge; discriminate).
    pose proof (proj1 L35 eq_refl) as G35.
    split; [split; [discriminate|intros; contradiction]|].
    split; [split; [discriminate|intros; lra]|exact Hpub].
  - assert (~ (70 <= V s)%R) by (intros Hge; apply L70 in Hge; discriminate).
    assert (~ (35 <= V s)%R) by (intros Hge; apply L35 in Hge; discriminate).
    split; [split; [discriminate|intros; contradiction]|].
    split; [split; [intros _; lra|reflexivity]|exact Hpub].
Qed.

End Scorer.

Section ShortCircuit.
Import App Stores.

(** C3. The scorer stops with "Insufficient data" and score 0, the
    breakdown untouched, exactly when the device irregularity history is
    empty and there are fewer than 3 beat timestamps; in every other state
    it publishes the breakdown and the assessment of [assess], whose
    category is Normal, Moderate or High. *)
Theorem insufficient_data (a : app) :
  let short := history a = [] /\ (List.length (beatsRef a) < 3)%nat in
  (short ->
     healthCategory (compute a) = mkHealth InsufficientData 0 desc_insufficient
     /\ breakdown (compute a) = breakdown a)
  /\ (~ short ->
        breakdown (compute a) = fst (assess (heart_rate a) (rhythm_irregularity a))
        /\ healthCategory (compute a) = snd (assess (heart_rate a) (rhythm_irregularity a)))
  /\ (level (healthCategory (compute a)) = InsufficientData <-> short).
Proof.
  cbn zeta.
  assert (Hlvl : forall hr irr, level (snd (assess hr irr)) <> InsufficientData).
  { intros hr irr. unfold assess.
    repeat match goal with |- context [if ?c then _ else _] => destruct c end;
      discriminate. }
  destruct (hasArduinoIrr a) eqn:Hh.
  - assert (Hne : history a <> []) by now apply hasArduinoIrr_history.
    destruct (compute_publishes a (or_introl Hh)) as [Hb Hc].
    split; [intros [He _]; contradiction|].
    split; [intros _; split; assumption|].
    split; [intros H; rewrite Hc in H; now apply Hlvl in H|intros [He _]; contradiction].
  - assert (He : history a = []).
    { unfold hasArduinoIrr, history in *.
      destruct (arduinoIrregularity a) as [[|x h]|]; congruence. }
    destruct (Nat.ltb_spec (List.length (beatsRef a)) 3) as [Hl|Hl].
    + assert (Hc : compute a
                   = setHealthCategory (mkHealth InsufficientData 0 desc_insufficient) a).
      { unfold compute. rewrite Hh. apply Nat.ltb_lt in Hl. now rewrite Hl. }
      rewrite Hc.
      split; [intros _; split; reflexivity|].
      split; [intros Hn; exfalso; apply Hn; split; assumption|].
      split; [intros _; split; assumption|reflexivity].
    + destruct (compute_publishes a (or_intror Hl)) as [Hb Hc].
      split; [intros [_ H]; lia|].
      split; [intros _; split; assumption|].
      split; [intros H; rewrite Hc in H; now apply Hlvl in H|intros [_ H]; lia].
Qed.

End ShortCircuit.

(** ** Rhythm estimator *)

Section Estimator.
Import App Stores Rhythm Clock IEEE.

(** [computeStats] returns the mean and the population standard deviation
    of an array that is not empty. *)
Lemma computeStats_spec (l : list float) : l <> [] -> computeStats l = (mean l, sd l).
Proof. destruct l; [congruence|reflexivity]. Qed.

Lemma ibis_skipn (n : nat) : forall beats, ibis (skipn n beats) = skipn n (ibis beats).
Proof.
  induction n as [|n IH]; intros beats; [reflexivity|].
  destruct beats as [|t0 [|t1 rest]]; [reflexivity|destruct n; reflexivity|].
  cbn [skipn ibis]. apply IH.
Qed.

Lemma ibis_length (beats : list Z) : List.length (ibis beats) = (List.length beats - 1)%nat.
Proof.
  induction beats as [|t0 [|t1 rest] IH]; [reflexivity|reflexivity|].
  cbn [ibis List.length] in *. lia.
Qed.

(** The last [k] intervals are the intervals of the last [k + 1] beats. *)
Lemma ibis_slice_last (k : nat) (beats : list Z) :
  slice_last k (ibis beats) = ibis (slice_last (S k) beats).
Proof.
  unfold slice_last. rewrite ibis_skipn, ibis_length. f_equal. lia.
Qed.

Lemma rhythm_device a :
  history a <> [] ->
  rhythm_irregularity a = mean (slice_last 5 (history a)).
Proof.
  intros H. apply hasArduinoIrr_history in H.
  unfold rhythm_irregularity. rewrite H. reflexivity.
Qed.

Lemma rhythm_fallback a :
  history a = [] ->
  let intervals := map Number.of_Z (slice_last 8 (ibis (beatsRef a))) in
  rhythm_irregularity a
  = Number.min 1 ((if 0 <? mean intervals then sd intervals / mean intervals else 0) * 3)%float.
Proof.
  intros H; cbn zeta.
  assert (Hh : hasArduinoIrr a = false).
  { destruct (hasArduinoIrr a) eqn:E; [|reflexivity].
    apply hasArduinoIrr_history in E. contradiction. }
  unfold rhythm_irregularity. rewrite Hh.
  destruct (map Number.of_Z (slice_last 8 (ibis (beatsRef a)))) as [|x l] eqn:E.
  - reflexivity.
  - rewrite computeStats_spec by discriminate. reflexivity.
Qed.

Lemma Forall_skipn {A} (P : A -> Prop) n : forall l, Forall P l -> Forall P (skipn n l).
Proof.
  induction n as [|n IH]; intros l H; [exact H|].
  destruct l as [|x l]; [constructor|]. cbn [skipn]. apply IH. now inversion H.
Qed.

(** The intervals between time values are below [2^54] in magnitude. *)
Lemma time_value_intervals (beats : list Z) :
  Forall time_value beats -> Forall (fun d => Z.abs d <= 2 ^ 54)%Z (ibis beats).
Proof.
  induction beats as [|t0 [|t1 rest] IH]; intros H; [constructor|constructor|].
  inversion H as [|? ? H0 H']; subst. cbn [ibis]. constructor; [|now apply IH].
  inversion H' as [|? ? H1 _]; subst. unfold time_value in *. lia.
Qed.

Lemma of_Z_within (z : Z) (j : Z) :
  (Z.abs z <= 2 ^ j)%Z -> (0 <= j <= 1023)%Z -> within (Number.of_Z z) j.
Proof.
  intros Hz Hj. destruct (of_Z_V z) as [Hr Hn].
  apply within_intro; [exact Hn|lia|].
  apply (R64_within (IZR z) _ j Hr); [lia|].
  rewrite (bpow_IZR j) by lia. rewrite <- opp_IZR.
  split; apply IZR_le; lia.
Qed.

(** A sum of [n] numbers below [2^j], from an accumulator below [2^j], is
    below [2^(j+n)]. *)
Lemma sum_within (j : Z) (l : list float) : forall (acc : float) (i : Z),
  Forall (fun x => within x j) l -> within acc i -> (j <= i)%Z -> (0 <= j)%Z ->
  (i + Z.of_nat (List.length l) <= 1023)%Z ->
  within (fold_left PrimFloat.add l acc) (i + Z.of_nat (List.length l)).
Proof.
  induction l as [|x l IH]; intros acc i Hl Ha Hji Hj Hb.
  - cbn [fold_left List.length Z.of_nat]. now rewrite Z.add_0_r.
  - cbn [fold_left]. inversion Hl as [|? ? Hx Hl']; subst.
    replace (i + Z.of_nat (List.length (x :: l)))%Z
      with ((i + 1) + Z.of_nat (List.length l))%Z by (cbn [List.length]; lia).
    cbn [List.length] in Hb.
    apply IH; [exact Hl'| |lia|lia|lia].
    refine (proj1 (within_add acc x i j (i + 1) Ha Hx _ _ _)).
    all: lia.
Qed.

Lemma of_nat_posfin (n : nat) :
  (1 <= n <= 1000)%nat ->
  posfin (Number.of_nat n) /\ (1 <= V (Number.of_nat n))%R.
Proof.
  intros Hn. unfold Number.of_nat.
  destruct (of_Z_exact (Z.of_nat n)) as [Hv Hf].
  { assert (2 ^ 20 <= 2 ^ 53)%Z by (apply Z.pow_le_mono_r; lia).
    assert (2 ^ 20 = 1048576)%Z by reflexivity. lia. }
  assert (1 <= V (Number.of_Z (Z.of_nat n)))%R.
  { rewrite Hv. apply (IZR_le 1). lia. }
  split; [split; [exact Hf|lra]|assumption].
Qed.

(** A sum of squares of finite numbers is a number and not below zero. *)
Lemma squares_nonneg (m : float) (l : list float) : forall acc,
  is_finite m = true -> Forall (fun x => is_finite (x - m)%float = true) l ->
  nonneg acc ->
  nonneg (fold_left (fun a b => a + (b - m) * (b - m))%float l acc).
Proof.
  induction l as [|x l IH]; intros acc Hm Hl Ha; [exact Ha|].
  cbn [fold_left]. inversion Hl as [|? ? Hx Hl']; subst.
  apply IH; [exact Hm|exact Hl'|].
  apply add_nonneg; [exact Ha|].
  apply mul_nonneg_finite; [exact Hx|exact Hx|].
  apply Rle_0_sqr.
Qed.

(** Mean and standard deviation of up to 1000 intervals between time
    values: the mean is finite, the deviation a number not below zero. *)
Lemma stats_of_intervals (ds : list Z) :
  ds <> [] -> (List.length ds <= 900)%nat -> Forall (fun d => Z.abs d <= 2 ^ 54)%Z ds ->
  let l := map Number.of_Z ds in
  is_finite (mean l) = true /\ nonneg (sd l).
Proof.
  intros Hne Hlen Hds; cbn zeta.
  set (l := map Number.of_Z ds).
  assert (Hl : Forall (fun x => within x 54) l).
  { unfold l. apply Forall_map. revert Hds. apply Forall_impl.
    intros d Hd. apply of_Z_within; [exact Hd|lia]. }
  assert (Hn : (1 <= List.length l <= 1000)%nat).
  { unfold l. rewrite length_map. destruct ds; [congruence|cbn [List.length] in *; lia]. }
  destruct (of_nat_posfin Hn) as [Pn Gn].
  assert (Hsum : within (fold_left PrimFloat.add l 0%float) (54 + Z.of_nat (List.length l))).
  { apply (@sum_within 54); [exact Hl| |lia|lia|].
    - apply within_intro; [reflexivity|lia|]. rewrite V_0.
      pose proof (bpow_pos 54). lra.
    - unfold l. rewrite length_map. lia. }
  assert (Hmean : within (mean l) (54 + Z.of_nat (List.length l))).
  { unfold mean. apply within_div; [exact Hsum|apply Pn|exact Gn|].
    unfold l. rewrite length_map. lia. }
  split; [apply Hmean|].
  unfold sd. apply sqrt_nonneg. apply div_nonneg; [|exact Pn].
  apply squares_nonneg; [apply Hmean| |].
  - revert Hl. apply Forall_impl. intros x Hx.
    apply (within_sub x (mean l) 54 (54 + Z.of_nat (List.length l))
             (55 + Z.of_nat (List.length l)) Hx Hmean); try lia.
    unfold l. rewrite length_map. lia.
  - split; [reflexivity|rewrite V_0; lra].
Qed.

(** The irregularity figure of the fallback path is a number in [0,1] for
    beat timestamps that are time values. *)
Lemma fallback_range a :
  history a = [] -> Forall time_value (beatsRef a) ->
  (0 <=? rhythm_irregularity a)%float = true /\ (rhythm_irregularity a <=? 1)%float = true.
Proof.
  intros Hh Ht. rewrite (rhythm_fallback a Hh). cbn zeta.
  set (ds := slice_last 8 (ibis (beatsRef a))).
  assert (V1 : V 1 = 1%R /\ is_finite 1 = true)
    by (apply (V_int 1 1 eq_refl); vm_compute; discriminate).
  destruct V1 as [V1 F1].
  assert (Hcv : nonneg ((if 0 <? mean (map Number.of_Z ds)
                         then sd (map Number.of_Z ds) / mean (map Number.of_Z ds)
                         else 0) * 3)%float).
  { destruct (0 <? mean (map Number.of_Z ds))%float eqn:Hpos.
    - assert (Hne : ds <> []).
      { intros E. rewrite E in Hpos. vm_compute in Hpos. discriminate. }
      assert (Hlen : (List.length ds <= 900)%nat).
      { unfold ds. rewrite slice_last_length. lia. }
      assert (Hds : Forall (fun d => Z.abs d <= 2 ^ 54)%Z ds).
      { unfold ds, slice_last. apply Forall_skipn. now apply time_value_intervals. }
      destruct (stats_of_intervals Hne Hlen Hds) as [Fm Ns].
      destruct (ltb_nonnan _ _ Hpos) as [N0 Nm].
      apply (ltb_V _ _ N0 Nm) in Hpos. rewrite V_0 in Hpos.
      apply mul_nonneg.
      + apply div_nonneg; [exact Ns|]. split; [exact Fm|exact Hpos].
      + assert (V3 : V 3 = 3%R /\ is_finite 3 = true)
          by (apply (V_int 3 3 eq_refl); vm_compute; discriminate).
        destruct V3 as [V3 F3]. split; [exact F3|rewrite V3; lra].
    - split; [reflexivity|]. vm_compute. lra. }
  destruct Hcv as [Nc Pc].
  destruct (min_V 1 _ (finite_not_nan _ F1) Nc) as (Vm & Nm & _).
  split.
  - apply (leb_V 0 _ eq_refl Nm). rewrite V_0, Vm, V1. apply Rmin_glb; lra.
  - apply (leb_V _ _ Nm (finite_not_nan _ F1)). rewrite Vm, V1. apply Rmin_l.
Qed.

(** C2, as the code has it, in doubles. With a device history, the
    irregularity is the mean of its last five entries at most. Without
    one, it is [min(1, 3 cv)], where [cv] is [sd/mean] when the mean is
    positive and 0 otherwise, mean and population standard deviation being
    taken over the last eight inter-beat intervals at most, which are the
    intervals of the last nine beats; for beat timestamps that are time
    values this figure is a number in [0,1]. It is the figure of the
    specification whenever there is a device history, and also when there
    are three to eight beats and the mean interval is not negative. *)
Theorem irregularity_estimate (a : app) :
  (history a <> [] ->
     rhythm_irregularity a = mean (slice_last 5 (history a)))
  /\ (history a = [] ->
        let intervals := map Number.of_Z (slice_last 8 (ibis (beatsRef a))) in
        let cv := (if 0 <? mean intervals
                   then sd intervals / mean intervals else 0)%float in
        rhythm_irregularity a = Number.min 1 (cv * 3)%float
        /\ (intervals <> [] -> computeStats intervals = (mean intervals, sd intervals))
        /\ (Forall time_value (beatsRef a) ->
            (0 <=? rhythm_irregularity a)%float = true
            /\ (rhythm_irregularity a <=? 1)%float = true))
  /\ slice_last 8 (ibis (beatsRef a)) = ibis (slice_last 9 (beatsRef a))
  /\ (history a <> [] -> rhythm_irregularity a = spec_irregularity a)
  /\ (history a = [] -> (3 <= List.length (beatsRef a) <= 8)%nat ->
      (0 <=? mean (map Number.of_Z (ibis (beatsRef a))))%float = true ->
      rhythm_irregularity a = spec_irregularity a).
Proof.
  split; [apply rhythm_device|].
  split; [|split; [apply ibis_slice_last|split]].
  - intros H; cbn zeta. split; [exact (rhythm_fallback a H)|].
    split; [apply computeStats_spec|]. now apply fallback_range.
  - intros H. rewrite (rhythm_device a H). unfold spec_irregularity.
    destruct (history a); [contradiction|reflexivity].
  - intros H Hlen Hmean. rewrite (rhythm_fallback a H). cbn zeta.
    unfold spec_irregularity. rewrite H.
    rewrite !slice_last_short by (rewrite ?ibis_length; lia).
    set (l := map Number.of_Z (ibis (beatsRef a))) in *.
    destruct (leb_nonnan _ _ Hmean) as [N0 Nm].
    apply (leb_V _ _ N0 Nm) in Hmean. rewrite V_0 in Hmean.
    destruct (0 <? mean l)%float eqn:Hlt, (mean l =? 0)%float eqn:Heq; try reflexivity.
    + apply (ltb_V _ _ N0 Nm) in Hlt. apply (eqb_V _ _ Nm N0) in Heq.
      rewrite V_0 in Hlt, Heq. lra.
    + assert (Hz : V (mean l) <> 0%R).
      { intros E. assert (Hq : (mean l =? 0)%float = true).
        { apply (eqb_V _ _ Nm N0). now rewrite V_0. }
        congruence. }
      assert (Hp : (0 <? mean l)%float = true).
      { apply (ltb_V _ _ N0 Nm). rewrite V_0. lra. }
      congruence.
Qed.

End Estimator.

(** ** Record parser *)

Section RecordParser.
Import App Stores Parser Session Numerals IEEE.

Lemma digit_value_decimal (c : ascii) :
  JS.digit_value 10 c = if is_digit c then Some (Z.of_nat (JS.code c) - 48)%Z else None.
Proof.
  unfold JS.digit_value, is_digit.
  set (n := JS.code c).
  destruct (Nat.leb_spec 48 n), (Nat.leb_spec n 57); cbn [andb];
    repeat first
      [ progress cbn [andb]
      | match goal with
        | |- context [(?x <=? ?y)%Z] => destruct (Z.leb_spec x y)
        | |- context [(?x <? ?y)%Z] => destruct (Z.ltb_spec x y)
        end ];
    try reflexivity; lia.
Qed.

Lemma digit_not_white c : is_digit c = true -> JS.isWhite c = false.
Proof.
  unfold is_digit, JS.isWhite. set (n := JS.code c). intros H.
  apply andb_true_iff in H as [H1 H2]. apply Nat.leb_le in H1, H2.
  destruct (Nat.leb_spec 9 n), (Nat.leb_spec n 13), (Nat.eqb_spec n 32), (Nat.eqb_spec n 160);
    cbn; try reflexivity; lia.
Qed.

Lemma digit_not_char c (x : ascii) :
  is_digit c = true -> (JS.code x < 48 \/ 57 < JS.code x)%nat -> Ascii.eqb c x = false.
Proof.
  unfold is_digit. intros H Hx.
  apply andb_true_iff in H as [H1 H2]. apply Nat.leb_le in H1, H2.
  destruct (Ascii.eqb_spec c x) as [->|]; [lia|reflexivity].
Qed.

Lemma digits_decimal (ds rest : string) : forall acc n,
  all_digits ds = true -> starts_with_digit rest = false ->
  JS.digits 10 acc n (ds ++ rest) = (decimal acc ds, (n + String.length ds)%nat, rest).
Proof.
  induction ds as [|c ds IH]; intros acc n Hd Hr.
  - cbn [append decimal String.length]. rewrite Nat.add_0_r.
    destruct rest as [|c r]; [reflexivity|].
    cbn [JS.digits]. rewrite digit_value_decimal.
    cbn [starts_with_digit] in Hr. now rewrite Hr.
  - cbn [all_digits] in Hd. apply andb_true_iff in Hd as [Hc Hd].
    cbn [append JS.digits decimal String.length].
    rewrite digit_value_decimal, Hc, IH by assumption.
    f_equal. f_equal. lia.
Qed.

Lemma parseInt_prefix (ds rest : string) :
  ds <> EmptyString -> all_digits ds = true -> starts_with_digit rest = false ->
  JS.hex_prefix (ds ++ rest) = None ->
  JS.parseInt (ds ++ rest) = Number.of_Z (decimal 0 ds).
Proof.
  intros Hne Hd Hr Hx. destruct ds as [|c ds]; [contradiction|].
  pose proof Hd as Hd'. cbn [all_digits] in Hd'. apply andb_true_iff in Hd' as [Hc _].
  unfold JS.parseInt.
  assert (Ht : JS.trimStart (String c ds ++ rest) = (String c ds ++ rest)%string).
  { cbn [append JS.trimStart]. now rewrite (digit_not_white _ Hc). }
  rewrite Ht.
  assert (Hs : JS.sign (String c ds ++ rest) = (false, (String c ds ++ rest)%string)).
  { cbn [append JS.sign].
    rewrite (digit_not_char _ "-" Hc), (digit_not_char _ "+" Hc); [reflexivity| |]; cbn; lia. }
  rewrite Hs, Hx, (digits_decimal _ _ 0 0 Hd Hr). reflexivity.
Qed.

(** The double nearest to a whole number is above zero exactly when the
    whole number is. *)
Lemma of_Z_positive (n : Z) : (0 <? Number.of_Z n)%float = (0 <? n)%Z.
Proof.
  destruct (of_Z_V n) as [Hr Hn].
  assert (R1 : R64 1 1) by (apply (R64_int 1); vm_compute; discriminate).
  destruct (Z.ltb_spec 0 n) as [Hp|Hp].
  - apply (ltb_V 0 _ eq_refl Hn). rewrite V_0.
    assert (1 <= V (Number.of_Z n))%R; [|lra].
    apply (R64_mono 1 (IZR n) _ _); [apply (IZR_le 1); lia|exact R1|exact Hr].
  - destruct (0 <? Number.of_Z n)%float eqn:E; [|reflexivity].
    apply (ltb_V 0 _ eq_refl Hn) in E. rewrite V_0 in E.
    assert (V (Number.of_Z n) <= 0)%R; [|lra].
    apply (R64_mono (IZR n) 0 _ _); [apply (IZR_le _ 0); lia|exact Hr|exact R64_0].
Qed.

Lemma prefix_tail (c : ascii) (rest : string) (p : string) : forall s,
  ~ In c (list_ascii_of_string p) ->
  String.prefix p (s ++ String c rest) = String.prefix p s.
Proof.
  induction p as [|a p IH]; intros s Hp; [destruct s; reflexivity|].
  cbn [list_ascii_of_string] in Hp.
  assert (Ha : a <> c) by (intros ->; apply Hp; now left).
  assert (Hp' : ~ In c (list_ascii_of_string p)) by (intros H; apply Hp; now right).
  destruct s as [|b s]; cbn [append String.prefix].
  - destruct (ascii_dec a c); [contradiction|reflexivity].
  - destruct (ascii_dec a b); [now apply IH|reflexivity].
Qed.

Section Tail.
Variables (c : ascii) (rest : string).
Hypothesis Hc : float_char c = false.
Local Abbreviation t := (String c rest).

Lemma tail_facts :
  is_digit c = false /\ Ascii.eqb c "." = false /\ Ascii.eqb c "e" = false
  /\ Ascii.eqb c "E" = false /\ Ascii.eqb c "+" = false /\ Ascii.eqb c "-" = false
  /\ infinity_char c = false /\ JS.isWhite c = false.
Proof.
  unfold float_char in Hc. repeat (apply orb_false_iff in Hc as [Hc ?]).
  repeat split; assumption.
Qed.

Lemma trimStart_tail (s : string) : JS.trimStart (s ++ t) = (JS.trimStart s ++ t)%string.
Proof.
  destruct tail_facts as (_ & _ & _ & _ & _ & _ & _ & Hw).
  induction s as [|x s IH]; cbn [append JS.trimStart].
  - cbn [JS.trimStart]. now rewrite Hw.
  - destruct (JS.isWhite x); [exact IH|reflexivity].
Qed.

Lemma sign_tail (s : string) :
  JS.sign (s ++ t) = (fst (JS.sign s), (snd (JS.sign s) ++ t)%string).
Proof.
  destruct tail_facts as (_ & _ & _ & _ & Hp & Hm & _).
  destruct s as [|x s]; cbn [append JS.sign].
  - cbn [JS.sign]. now rewrite Hp, Hm.
  - destruct (Ascii.eqb x "-"); [reflexivity|].
    destruct (Ascii.eqb x "+"); reflexivity.
Qed.

Lemma digits_tail (s : string) : forall acc n,
  JS.digits 10 acc n (s ++ t)
  = (fst (fst (JS.digits 10 acc n s)), snd (fst (JS.digits 10 acc n s)),
     (snd (JS.digits 10 acc n s) ++ t)%string).
Proof.
  destruct tail_facts as (Hd & _).
  induction s as [|x s IH]; intros acc n; cbn [append JS.digits].
  - cbn [JS.digits]. now rewrite digit_value_decimal, Hd.
  - destruct (JS.digit_value 10 x); [apply IH|reflexivity].
Qed.

Lemma exponent_tail (s : string) : JS.exponent (s ++ t) = JS.exponent s.
Proof.
  destruct tail_facts as (_ & _ & He & HE & _).
  destruct s as [|x s]; cbn [append JS.exponent].
  - cbn [JS.exponent]. now rewrite He, HE.
  - destruct (Ascii.eqb x "e" || Ascii.eqb x "E")%bool; [|reflexivity].
    rewrite sign_tail. destruct (JS.sign s) as [neg r]. cbn [fst snd].
    rewrite digits_tail. destruct (JS.digits 10 0 0 r) as [[v k] r']. reflexivity.
Qed.

Lemma infinity_tail (s : string) :
  String.prefix "Infinity" (s ++ t) = String.prefix "Infinity" s.
Proof.
  destruct tail_facts as (_ & _ & _ & _ & _ & _ & Hi & _).
  apply prefix_tail. intros Hin.
  unfold infinity_char in Hi. repeat (apply orb_false_iff in Hi as [Hi ?]).
  repeat match goal with
    | H : Ascii.eqb c _ = false |- _ => apply Ascii.eqb_neq in H
    end.
  cbn [list_ascii_of_string In] in Hin.
  repeat (destruct Hin as [Hin|Hin]; [congruence|]). exact Hin.
Qed.

Lemma parseFloat_tail (s : string) : JS.parseFloat (s ++ t) = JS.parseFloat s.
Proof.
  destruct tail_facts as (_ & Hdot & _).
  unfold JS.parseFloat. rewrite trimStart_tail, sign_tail.
  destruct (JS.sign (JS.trimStart s)) as [neg s1]. cbn [fst snd].
  rewrite infinity_tail. destruct (String.prefix "Infinity" s1); [reflexivity|].
  rewrite digits_tail. destruct (JS.digits 10 0 0 s1) as [[ip ni] s2]. cbn [fst snd].
  destruct s2 as [|x s2]; cbn [append].
  - rewrite Hdot.
    change t with (EmptyString ++ t)%string. now rewrite exponent_tail.
  - destruct (Ascii.eqb x ".").
    + rewrite digits_tail. destruct (JS.digits 10 ip 0 s2) as [[m nf] s3]. cbn [fst snd].
      now rewrite exponent_tail.
    + change (String x (s2 ++ t)) with (String x s2 ++ t)%string.
      now rewrite exponent_tail.
Qed.
End Tail.

Ltac fields :=
  cbn [port bpm lastSerialLine lastParsedBpm lastParsedIrr healthCategory breakdown
       calibrating monitoringActive samplesRef samples2Ref beatsRef arduinoIrregularity
       setPort setBpm setLastSerialLine setLastParsedBpm setLastParsedIrr
       setHealthCategory setBreakdown setCalibrating setMonitoringActive setSamples
       setSamples2 setBeats setArduinoIrregularity].

(** The cells that the stores do not touch. *)
Lemma store_keeps_cells a p :
  bpm (store a p) = bpm a /\ lastParsedBpm (store a p) = lastParsedBpm a
  /\ lastParsedIrr (store a p) = lastParsedIrr a.
Proof.
  destruct p; cbn [store]; unfold store_samples, store_beat, store_irregularity;
    repeat match goal with |- context [if ?c then _ else _] => destruct c end;
    repeat split.
Qed.

(** What lines 320-356 do with the four fields of a data line. *)
Lemma store_fields_spec m now f a :
  within_capacity a ->
  let a' := store_fields m now f a in
  if Number.isNaN (val1 f) || Number.isNaN (val2 f) then
    same_buffers a' a /\ bpm a' = bpm a
    /\ lastParsedBpm a' = lastParsedBpm a /\ lastParsedIrr a' = lastParsedIrr a
  else
    samplesRef a' = slice_last MAX_SAMPLES (samplesRef a ++ [val2 f])
    /\ samples2Ref a' = slice_last MAX_SAMPLES (samples2Ref a ++ [val1 f])
    /\ match arduinoBPM f with
       | Some b =>
           if (0 <? b)%float then
             bpm a' = Some b /\ lastParsedBpm a' = Some b
             /\ beatsRef a' = slice_last 50 (beatsRef a ++ [now])
             /\ match arduinoIrr f with
                | Some i =>
                    if (0 <=? i)%float then
                      history a' = slice_last 10 (history a ++ [i])
                      /\ lastParsedIrr a' = Some i
                    else
                      arduinoIrregularity a' = arduinoIrregularity a
                      /\ lastParsedIrr a' = lastParsedIrr a
                | None =>
                    arduinoIrregularity a' = arduinoIrregularity a
                    /\ lastParsedIrr a' = lastParsedIrr a
                end
           else
             bpm a' = bpm a /\ lastParsedBpm a' = lastParsedBpm a
             /\ beatsRef a' = beatsRef a
             /\ arduinoIrregularity a' = arduinoIrregularity a
             /\ lastParsedIrr a' = lastParsedIrr a
       | None =>
           bpm a' = bpm a /\ lastParsedBpm a' = lastParsedBpm a
           /\ beatsRef a' = beatsRef a
           /\ arduinoIrregularity a' = arduinoIrregularity a
           /\ lastParsedIrr a' = lastParsedIrr a
       end.
Proof.
  intros (Hs & Heq & Hb & Hh); cbn zeta. unfold store_fields.
  destruct (Number.isNaN (val1 f)), (Number.isNaN (val2 f)); cbn [negb andb orb];
    try (repeat split; fail).
  destruct (store_samples_spec (val1 f) (val2 f) a Heq) as (S1 & S2 & S3 & S4).
  destruct (store_keeps_cells a (Samples (val1 f) (val2 f))) as (C1 & C2 & C3).
  cbn [store] in C1, C2, C3.
  set (a1 := store_samples (val1 f) (val2 f) a) in *.
  assert (Hrest : samplesRef a1 = slice_last MAX_SAMPLES (samplesRef a ++ [val2 f])
                  /\ samples2Ref a1 = slice_last MAX_SAMPLES (samples2Ref a ++ [val1 f])
                  /\ bpm a1 = bpm a /\ lastParsedBpm a1 = lastParsedBpm a
                  /\ beatsRef a1 = beatsRef a
                  /\ arduinoIrregularity a1 = arduinoIrregularity a
                  /\ lastParsedIrr a1 = lastParsedIrr a).
  { repeat split; assumption. }
  destruct (arduinoBPM f) as [b|]; [|exact Hrest].
  rewrite truthy_positive. destruct (0 <? b)%float; [|exact Hrest].
  set (a2 := setLastParsedBpm (Some b) (setBpm (Some b) a1)).
  destruct (store_beat_spec now a2) as (B1 & B2 & B3 & B4).
  destruct (store_keeps_cells a2 (Beat now)) as (D1 & D2 & D3). cbn [store] in D1, D2, D3.
  set (a3 := store_beat now a2) in *.
  change (samplesRef a2) with (samplesRef a1) in B1.
  change (samples2Ref a2) with (samples2Ref a1) in B2.
  change (beatsRef a2) with (beatsRef a1) in B3.
  change (arduinoIrregularity a2) with (arduinoIrregularity a1) in B4.
  change (bpm a2) with (Some b) in D1.
  change (lastParsedBpm a2) with (Some b) in D2.
  change (lastParsedIrr a2) with (lastParsedIrr a1) in D3.
  rewrite S1 in B1. rewrite S2 in B2. rewrite S3 in B3. rewrite S4 in B4. rewrite C3 in D3.
  assert (Hh3 : List.length (history a3) <= 10).
  { unfold history. rewrite B4. exact Hh. }
  assert (E : forall a4, samplesRef a4 = samplesRef a3 -> samples2Ref a4 = samples2Ref a3 ->
                bpm a4 = bpm a3 -> lastParsedBpm a4 = lastParsedBpm a3 ->
                beatsRef a4 = beatsRef a3 ->
                let a' := if negb m then setMonitoringActive true a4 else a4 in
                samplesRef a' = slice_last MAX_SAMPLES (samplesRef a ++ [val2 f])
                /\ samples2Ref a' = slice_last MAX_SAMPLES (samples2Ref a ++ [val1 f])
                /\ bpm a' = Some b /\ lastParsedBpm a' = Some b
                /\ beatsRef a' = slice_last 50 (beatsRef a ++ [now])
                /\ arduinoIrregularity a' = arduinoIrregularity a4
                /\ lastParsedIrr a' = lastParsedIrr a4).
  { intros a4 E1 E2 E3 E4 E5; cbn zeta.
    rewrite B1 in E1. rewrite B2 in E2. rewrite D1 in E3. rewrite D2 in E4. rewrite B3 in E5.
    destruct m; cbn [negb]; fields; repeat split; assumption. }
  destruct (arduinoIrr f) as [i|].
  - destruct (0 <=? i)%float.
    + destruct (store_irregularity_spec i a3 Hh3) as (I1 & I2 & I3 & I4).
      destruct (store_keeps_cells a3 (Irregularity i)) as (K1 & K2 & K3).
      cbn [store] in K1, K2, K3.
      destruct (E (setLastParsedIrr (Some i) (store_irregularity i a3)))
        as (G1 & G2 & G3 & G4 & G5 & G6 & G7); try assumption.
      split; [exact G1|]. split; [exact G2|]. split; [exact G3|]. split; [exact G4|].
      split; [exact G5|]. split; [|exact G7].
      unfold history at 1. rewrite G6. cbn [arduinoIrregularity setLastParsedIrr].
      rewrite I4. unfold history. now rewrite B4.
    + destruct (E a3) as (G1 & G2 & G3 & G4 & G5 & G6 & G7); try reflexivity.
      split; [exact G1|]. split; [exact G2|]. split; [exact G3|]. split; [exact G4|].
      split; [exact G5|]. rewrite G6, G7. split; [exact B4|exact D3].
  - destruct (E a3) as (G1 & G2 & G3 & G4 & G5 & G6 & G7); try reflexivity.
    split; [exact G1|]. split; [exact G2|]. split; [exact G3|]. split; [exact G4|].
    split; [exact G5|]. rewrite G6, G7. split; [exact B4|exact D3].
Qed.

(** What the read loop does with a data line, field by field. *)
Lemma read_value_fields m now a value :
  within_capacity a ->
  value <> EmptyString -> is_status (JS.trim value) = false ->
  let parts := JS.split_commas (JS.trim value) in
  (2 <= List.length parts)%nat ->
  let v1 := JS.parseFloat (nth 0 parts EmptyString) in
  let v2 := JS.parseFloat (nth 1 parts EmptyString) in
  let b := JS.parseInt (nth 2 parts EmptyString) in
  let i := JS.parseFloat (nth 3 parts EmptyString) in
  let a' := read_value m now a value in
  if Number.isNaN v1 || Number.isNaN v2 then
    same_buffers a' a /\ bpm a' = bpm a
    /\ lastParsedBpm a' = lastParsedBpm a /\ lastParsedIrr a' = lastParsedIrr a
  else
    samplesRef a' = slice_last MAX_SAMPLES (samplesRef a ++ [v2])
    /\ samples2Ref a' = slice_last MAX_SAMPLES (samples2Ref a ++ [v1])
    /\ if (3 <=? List.length parts)%nat && (0 <? b)%float then
         bpm a' = Some b /\ lastParsedBpm a' = Some b
         /\ beatsRef a' = slice_last 50 (beatsRef a ++ [now])
         /\ if (4 <=? List.length parts)%nat && (0 <=? i)%float then
              history a' = slice_last 10 (history a ++ [i])
              /\ lastParsedIrr a' = Some i
            else
              arduinoIrregularity a' = arduinoIrregularity a
              /\ lastParsedIrr a' = lastParsedIrr a
       else
         bpm a' = bpm a /\ lastParsedBpm a' = lastParsedBpm a
         /\ beatsRef a' = beatsRef a
         /\ arduinoIrregularity a' = arduinoIrregularity a
         /\ lastParsedIrr a' = lastParsedIrr a.
Proof.
  intros Ha Hne Hs parts Hlen; cbn zeta. unfold read_value.
  destruct value as [|c v]; [contradiction|].
  rewrite Hs. fold parts. apply Nat.leb_le in Hlen. rewrite Hlen.
  assert (Ha' : within_capacity (setLastSerialLine (JS.trim (String c v)) a)) by exact Ha.
  pose proof (store_fields_spec m now (parse_fields parts) Ha') as H. cbn zeta in H.
  revert H.
  generalize (store_fields m now (parse_fields parts)
                (setLastSerialLine (JS.trim (String c v)) a)).
  intros a' H.
  unfold parse_fields in H. cbn [val1 val2 arduinoBPM arduinoIrr] in H.
  change (samplesRef (setLastSerialLine (JS.trim (String c v)) a)) with (samplesRef a) in H.
  change (samples2Ref (setLastSerialLine (JS.trim (String c v)) a)) with (samples2Ref a) in H.
  change (beatsRef (setLastSerialLine (JS.trim (String c v)) a)) with (beatsRef a) in H.
  change (history (setLastSerialLine (JS.trim (String c v)) a)) with (history a) in H.
  change (arduinoIrregularity (setLastSerialLine (JS.trim (String c v)) a))
    with (arduinoIrregularity a) in H.
  change (bpm (setLastSerialLine (JS.trim (String c v)) a)) with (bpm a) in H.
  change (lastParsedBpm (setLastSerialLine (JS.trim (String c v)) a))
    with (lastParsedBpm a) in H.
  change (lastParsedIrr (setLastSerialLine (JS.trim (String c v)) a))
    with (lastParsedIrr a) in H.
  revert H.
  destruct (Number.isNaN (JS.parseFloat (nth 0 parts EmptyString))
            || Number.isNaN (JS.parseFloat (nth 1 parts EmptyString))).
  - intros ((H1 & H2 & H3 & H4) & H5). split; [|exact H5].
    repeat split; assumption.
  - intros (H1 & H2 & H). split; [exact H1|]. split; [exact H2|]. revert H.
    destruct (3 <=? List.length parts)%nat; cbn [andb]; [|exact (fun H => H)].
    destruct (0 <? JS.parseInt (nth 2 parts EmptyString))%float; [|exact (fun H => H)].
    intros (H3 & H4 & H5 & H). split; [exact H3|]. split; [exact H4|].
    split; [exact H5|]. revert H.
    destruct (4 <=? List.length parts)%nat; cbn [andb]; exact (fun H => H).
Qed.




End RecordParser.

(** ** The scorer at concrete states *)

Section ScorerInstances.
Import App Stores Parser Session Rhythm Clock.

Lemma compute_short a :
  history a = [] -> (List.length (beatsRef a) < 3)%nat ->
  compute a = setHealthCategory (mkHealth InsufficientData 0 desc_insufficient) a.
Proof.
  intros Hh Hl. unfold compute.
  replace (hasArduinoIrr a) with false.
  - apply Nat.ltb_lt in Hl. now rewrite Hl.
  - destruct (hasArduinoIrr a) eqn:E; [|reflexivity].
    apply hasArduinoIrr_history in E. contradiction.
Qed.

Lemma compute_keeps_port a : port (compute a) = port a.
Proof.
  unfold compute.
  destruct (negb (hasArduinoIrr a) && (List.length (beatsRef a) <? 3)%nat);
    [reflexivity|].
  destruct (assess (heart_rate a) (rhythm_irregularity a)). reflexivity.
Qed.

Lemma disconnect_keeps_breakdown a : breakdown (disconnectSerial a) = breakdown a.
Proof.
  unfold disconnectSerial. destruct (port a); cbn; [|reflexivity].
  destruct (arduinoIrregularity a); reflexivity.
Qed.

(** A slow heart rate with the device irregularities 0.4816 and 0.9934:
    their mean in doubles is 0.7374999999999999, just below 0.7375, and
    gives 29 points where 0.7375 would give 30. *)
Lemma risk_score_witness :
  let a := ui (run start [Opened; Value 1000 "0.1,0.2,45,0.4816";
                          Value 2000 "0.1,0.2,45,0.9934"]) in
  (rhythm_irregularity a <? Number.of_ratio 7375 10000)%float = true
  /\ breakdown (compute a) = mkPoints 40 0 29
  /\ healthCategory (compute a) = mkHealth Moderate 69 desc_moderate.
Proof.
  intros a.
  destruct (@risk_score 45 (rhythm_irregularity a) eq_refl eq_refl)
    as (_ & _ & _ & _ & _ & _ & _ & _ & _ & _ & _ & _ & Hpub).
  destruct (Hpub a (or_introl eq_refl) eq_refl eq_refl) as [Hb Hh].
  split; [reflexivity|]. rewrite Hb, Hh. split; reflexivity.
Defined.

(** A fresh component, and one that has a device irregularity. *)
Lemma insufficient_data_witness :
  let a := ui (run start [Opened; Value 1000 "0.1,0.2,72,0.05"]) in
  healthCategory (compute initial) = mkHealth InsufficientData 0 desc_insufficient
  /\ level (healthCategory (compute a)) <> InsufficientData.
Proof.
  intros a. split.
  - refine (proj1 (proj1 (insufficient_data initial) (conj eq_refl _))).
    cbn. lia.
  - intros H. apply (proj2 (proj2 (insufficient_data a))) in H.
    destruct H as [H _]. discriminate H.
Defined.

(** Two device irregularities: their mean; and four beats without a
    device history: a figure in [0,1]. *)
Lemma irregularity_estimate_witness :
  let a := ui (run start [Opened; Value 1000 "0.1,0.2,72,0.05";
                          Value 1800 "0.1,0.2,72,0.15"]) in
  let b := ui (run start [Opened; Value 1000 "0.1,0.2,72"; Value 1991 "0.1,0.2,72";
                          Value 2723 "0.1,0.2,72"; Value 3553 "0.1,0.2,72"]) in
  (rhythm_irregularity a = ((Number.of_ratio 5 100 + Number.of_ratio 15 100) / 2)%float
   /\ spec_irregularity a = rhythm_irregularity a)
  /\ ((0 <=? rhythm_irregularity b)%float = true
      /\ (rhythm_irregularity b <=? 1)%float = true
      /\ spec_irregularity b = rhythm_irregularity b).
Proof.
  intros a b. split.
  - assert (Hne : history a <> []) by discriminate.
    destruct (irregularity_estimate a) as (H1 & _ & _ & H2 & _).
    rewrite <- (H2 Hne), (H1 Hne). split; reflexivity.
  - assert (Hh : history b = []) by reflexivity.
    destruct (irregularity_estimate b) as (_ & H1 & _ & _ & H2).
    destruct (H1 Hh) as (_ & _ & H3).
    assert (Ht : Forall time_value (beatsRef b)).
    { repeat constructor; vm_compute; discriminate. }
    destruct (H3 Ht) as [G1 G2]. split; [exact G1|]. split; [exact G2|].
    symmetry. apply (H2 Hh); [vm_compute; lia|reflexivity].
Defined.

(** C2 as stated fails: nine beats, the first interval 9 s and the seven
    after it 1 s. The code takes the last eight intervals, all of them, and
    the irregularity is 1; the intervals of the last eight beats are the
    seven equal ones, for which the claim gives 0. *)
Lemma last_eight_intervals_not_eight_beats :
  let T := 1700000000000%Z in
  let line := "0.1,0.2,72"%string in
  let a := ui (run start
                 (Opened :: map (fun d => Value (T + d) line)
                            [0; 9000; 10000; 11000; 12000; 13000; 14000; 15000; 16000]%Z)) in
  history a = []
  /\ ibis (beatsRef a) = [9000; 1000; 1000; 1000; 1000; 1000; 1000; 1000]%Z
  /\ rhythm_irregularity a = 1%float
  /\ spec_irregularity a = 0%float.
Proof. vm_compute. repeat split. Qed.

(** C7 on the code. A line whose irregularity field is 5 is stored, and
    the next run of the scorer publishes 200 irregularity points, outside
    [0,40]. After a run that published 40 + 0 + 4 points and a disconnect,
    the next run stops for lack of data: it publishes score 0 and leaves
    the breakdown at 40 + 0 + 4, whose clamped sum is 44. *)
Theorem breakdown_out_of_range :
  let a := ui (run start [Opened; Value 1000 "0.1,0.2,72,5"; Tick]) in
  let b := ui (run start [Opened; Value 1000 "0.1,0.2,45,0.1"; Tick;
                          DisconnectPressed; Tick]) in
  breakdown a = mkPoints 0 0 200
  /\ healthCategory a = mkHealth High 100 desc_high
  /\ breakdown b = mkPoints 40 0 4
  /\ healthCategory b = mkHealth InsufficientData 0 desc_insufficient.
Proof. vm_compute. repeat split. Qed.

End ScorerInstances.

(** * Further properties of the code *)

(** ** Invariants of reachable states *)

Section Reachability.
Import App Stores Parser Session Clock IEEE.

Ltac fields :=
  cbn [port bpm lastSerialLine lastParsedBpm lastParsedIrr healthCategory breakdown
       calibrating monitoringActive samplesRef samples2Ref beatsRef arduinoIrregularity
       setPort setBpm setLastSerialLine setLastParsedBpm setLastParsedIrr
       setHealthCategory setBreakdown setCalibrating setMonitoringActive setSamples
       setSamples2 setBeats setArduinoIrregularity].

Ltac cases :=
  repeat match goal with
    | |- context [if ?c then _ else _] => destruct c; fields
    | |- context [match ?x with Some _ => _ | None => _ end] => destruct x; fields
    end.

(** A property of the component that every handler keeps holds in every
    state a mounted component can reach. *)
Lemma run_invariant (P : app -> Prop) :
  P initial -> (forall s e, P (ui s) -> P (ui (step s e))) ->
  forall es, P (ui (run start es)).
Proof.
  intros H0 Hstep es. unfold run.
  change initial with (ui start) in H0. revert H0. generalize start.
  induction es as [|e es IH]; intros s H; [exact H|].
  cbn [fold_left]. apply IH, Hstep, H.
Qed.

(** The same for a property that the read loop keeps when the clock
    yields time values. *)
Lemma run_invariant_clock (P : app -> Prop) :
  P initial ->
  (forall s e, Forall time_value (times_of [e]) -> P (ui s) -> P (ui (step s e))) ->
  forall es, Forall time_value (times_of es) -> P (ui (run start es)).
Proof.
  intros H0 Hstep es. unfold run.
  change initial with (ui start) in H0. revert H0. generalize start.
  induction es as [|e es IH]; intros s H Ht; [exact H|].
  cbn [fold_left].
  unfold times_of in Ht. cbn [flat_map] in Ht.
  apply Forall_app in Ht as [Ht1 Ht2].
  apply IH; [|exact Ht2]. apply Hstep; [|exact H].
  unfold times_of. cbn [flat_map]. now rewrite app_nil_r.
Qed.

(** The read loop leaves the port and what the scorer published alone; the
    BPM it leaves or sets to a number above zero. *)
Lemma read_value_frame m now a value :
  port (read_value m now a value) = port a
  /\ healthCategory (read_value m now a value) = healthCategory a
  /\ breakdown (read_value m now a value) = breakdown a
  /\ (bpm (read_value m now a value) = bpm a
      \/ exists b, (0 <? b)%float = true /\ bpm (read_value m now a value) = Some b).
Proof.
  unfold read_value. destruct value as [|c v]; [repeat split; now left|].
  destruct (is_status _).
  { destruct (JS.includes _ _); repeat split; now left. }
  destruct (2 <=? _)%nat; [|repeat split; now left].
  unfold store_fields.
  generalize (parse_fields (JS.split_commas (JS.trim (String c v)))). intros f.
  destruct (negb (Number.isNaN (val1 f)) && negb (Number.isNaN (val2 f)));
    [|repeat split; now left].
  destruct (arduinoBPM f) as [b|].
  - rewrite truthy_positive. destruct (0 <? b)%float eqn:Hb.
    + unfold store_samples, store_beat, store_irregularity. fields. cases;
        (repeat split; right; exists b; split; [assumption|reflexivity]).
    + unfold store_samples. fields. cases; repeat split; now left.
  - unfold store_samples. fields. cases; repeat split; now left.
Qed.

Lemma compute_frame a :
  port (compute a) = port a /\ bpm (compute a) = bpm a
  /\ calibrating (compute a) = calibrating a
  /\ monitoringActive (compute a) = monitoringActive a.
Proof.
  unfold compute. destruct (_ && _); [repeat split|].
  destruct (assess _ _). repeat split.
Qed.

Lemma disconnect_bpm a : bpm (disconnectSerial a) = bpm a \/ bpm (disconnectSerial a) = None.
Proof.
  unfold disconnectSerial. destruct (port a); cbn [negb]; [right|now left].
  fields. destruct (arduinoIrregularity a); reflexivity.
Qed.

Lemma reachable_bpm_positive es b :
  bpm (ui (run start es)) = Some b -> (0 <? b)%float = true.
Proof.
  revert b. apply (run_invariant (fun a => forall b, bpm a = Some b -> (0 <? b)%float = true)).
  - discriminate.
  - intros s e IH b. destruct e; cbn [step ui]; try (exact (IH b)).
    + destruct (read_value_frame (loopMonitoring s) now (ui s) value) as (_ & _ & _ & [->|(b' & Hb & ->)]).
      * apply IH.
      * now intros [= <-].
    + destruct (disconnect_bpm (ui s)) as [->| ->]; [apply IH|discriminate].
    + destruct (compute_frame (ui s)) as (_ & -> & _). apply IH.
Qed.

Import Rhythm Widgets.

Lemma V_60 : V 60 = 60%R /\ is_finite 60 = true.
Proof. apply (V_int 60 60 eq_refl). vm_compute. discriminate. Qed.

(** The duration of a beat at a finite rate above zero is the nearest
    double to 60 over the rate, and is above zero. *)
Lemma beat_duration_positive (b : float) :
  (0 <? b)%float = true -> is_finite b = true ->
  R64 (60 / V b) (V (60 / b)%float) /\ (0 <? 60 / b)%float = true.
Proof.
  intros Hb Fb. destruct V_60 as [V60 F60].
  pose proof (ltb_V 0 b eq_refl (finite_not_nan _ Fb)) as L. rewrite V_0 in L.
  apply L in Hb.
  destruct (div_V 60 b F60 Fb) as [Hd Nd]; [apply Rgt_not_eq; lra|].
  rewrite V60 in Hd. split; [exact Hd|].
  apply (ltb_V 0 _ eq_refl Nd). rewrite V_0.
  pose proof (finite_V_bound b Fb) as [_ Hub].
  pose proof (bpow_pos (-1020)) as Hpos.
  assert (Hlow : (bpow (-1020) <= 60 / V b)%R).
  { assert (E : bpow (-1020) = (16 / bpow 1024)%R).
    { pose proof (bpow_add 4 (-1024)) as Ha. pose proof (bpow_opp 1024) as Ho.
      cbn [Z.opp] in Ho. change (4 + -1024)%Z with (-1020)%Z in Ha.
      rewrite Ha, Ho, (bpow_IZR 4) by lia.
      change (2 ^ 4)%Z with 16%Z. reflexivity. }
    rewrite E. pose proof (bpow_pos 1024) as H1024.
    apply Rle_trans with (16 / V b)%R.
    - unfold Rdiv. apply Rmult_le_compat_l; [lra|].
      apply Rinv_le_contravar; lra.
    - unfold Rdiv. apply Rmult_le_compat_r; [|lra].
      left. now apply Rinv_0_lt_compat. }
  assert (bpow (-1020) <= V (60 / b)%float)%R; [|lra].
  apply (R64_mono (bpow (-1020)) (60 / V b) _ _ Hlow); [|exact Hd].
  apply R64_bpow. lia.
Qed.

(** X6. In every reachable state the BPM is unset or a number above zero:
    the heart rate the scorer uses is that BPM, or 70 when it is unset,
    and the beat duration of the heart animation is 60/BPM seconds in
    doubles, or 1 second when it is unset. The duration is above zero for
    a finite BPM, and 0 for the BPM [Infinity]. *)
Theorem bpm_is_positive es :
  let a := ui (run start es) in
  (0 <? heart_rate a)%float = true
  /\ (0 <=? beat_duration (bpm a))%float = true
  /\ match bpm a with
     | Some b =>
         (0 <? b)%float = true /\ heart_rate a = b
         /\ beat_duration (bpm a) = (60 / b)%float
         /\ (is_finite b = true ->
             (0 <? beat_duration (bpm a))%float = true
             /\ R64 (60 / V b) (V (beat_duration (bpm a))))
         /\ (is_finite b = false -> b = infinity /\ beat_duration (bpm a) = 0%float)
     | None => heart_rate a = 70%float /\ beat_duration (bpm a) = 1%float
     end.
Proof.
  cbn zeta. pose proof (@reachable_bpm_positive es) as H.
  unfold heart_rate, beat_duration.
  destruct (bpm (ui (run start es))) as [b|]; [|repeat split].
  specialize (H b eq_refl).
  rewrite (positive_truthy H), H. cbn [andb].
  destruct (ltb_nonnan _ _ H) as [_ Nb].
  pose proof (ltb_V 0 b eq_refl Nb) as L. rewrite V_0 in L.
  pose proof (proj1 L H) as Pb.
  assert (Hinf : is_finite b = false -> b = infinity).
  { intros Fb. destruct (nonnan_cases b Nb) as [F|[I|I]]; [congruence| |].
    - now apply inf_eq.
    - apply neg_inf_eq in I. rewrite I, V_neg_inf in Pb.
      pose proof (bpow_pos 1024). lra. }
  assert (Hd : is_finite b = true -> (0 <? 60 / b)%float = true
                                     /\ R64 (60 / V b) (V (60 / b)%float)).
  { intros Fb. destruct (beat_duration_positive H Fb) as [H1 H2]. now split. }
  split; [reflexivity|]. split.
  - destruct (is_finite b) eqn:Fb.
    + destruct (Hd eq_refl) as [H1 _].
      destruct (ltb_nonnan _ _ H1) as [_ N].
      apply (leb_V 0 _ eq_refl N). apply (ltb_V 0 _ eq_refl N) in H1. lra.
    + rewrite (Hinf eq_refl). reflexivity.
  - split; [reflexivity|]. split; [reflexivity|]. split; [reflexivity|].
    split; [exact Hd|]. intros Fb. split; [exact (Hinf Fb)|].
    rewrite (Hinf Fb). reflexivity.
Qed.

End Reachability.

Section Published.
Import App Stores Parser Session Clock Rhythm Widgets IEEE.

Lemma nonneg_leb (x : float) : nonneg x <-> (0 <=? x)%float = true.
Proof.
  split.
  - intros [N P]. apply (leb_V 0 x eq_refl N). now rewrite V_0.
  - intros H. destruct (leb_nonnan _ _ H) as [_ N]. split; [exact N|].
    apply (leb_V 0 x eq_refl N) in H. now rewrite V_0 in H.
Qed.

Lemma sum_nonneg (l : list float) : forall acc,
  Forall nonneg l -> nonneg acc -> nonneg (fold_left PrimFloat.add l acc).
Proof.
  induction l as [|x l IH]; intros acc Hl Ha; [exact Ha|].
  cbn [fold_left]. inversion Hl; subst. apply IH; [assumption|].
  now apply add_nonneg.
Qed.

Lemma nonneg_0 : nonneg 0.
Proof. split; [reflexivity|rewrite V_0; lra]. Qed.

(** The mean of up to 1000 numbers not below zero is not below zero. *)
Lemma mean_nonneg (l : list float) :
  l <> [] -> (List.length l <= 1000)%nat -> Forall nonneg l -> nonneg (mean l).
Proof.
  intros Hne Hlen Hl. unfold mean.
  apply div_nonneg; [apply sum_nonneg; [exact Hl|exact nonneg_0]|].
  apply of_nat_posfin. destruct l; [congruence|cbn [List.length] in *; lia].
Qed.

(** The irregularity figure is a number not below zero when no stored
    device irregularity is below zero and the beats are time values. *)
Lemma rhythm_nonneg a :
  Forall (fun q => (0 <=? q)%float = true) (history a) ->
  Forall time_value (beatsRef a) ->
  nonneg (rhythm_irregularity a).
Proof.
  intros H Ht. destruct (history a) as [|q h] eqn:E.
  - apply nonneg_leb. now apply fallback_range.
  - rewrite rhythm_device by (rewrite E; discriminate). rewrite E.
    assert (Hl : (1 <= List.length (slice_last 5 (q :: h)) <= 5)%nat).
    { rewrite slice_last_length. cbn [List.length]. lia. }
    apply mean_nonneg.
    + intros E'. rewrite E' in Hl. cbn in Hl. lia.
    + lia.
    + unfold slice_last. apply Forall_skipn. revert H. apply Forall_impl.
      intros x. apply nonneg_leb.
Qed.

(** The band points of any assessment. *)
Lemma assess_bands hr irr :
  let p := fst (assess hr irr) in
  (brady p = 0 \/ brady p = 20 \/ brady p = 40)%float
  /\ (tachy p = 0 \/ tachy p = 20 \/ tachy p = 40)%float
  /\ (brady p = 0 \/ tachy p = 0)%float.
Proof.
  cbn zeta. unfold assess.
  destruct (band_points hr) as (kb & kt & Eb & Et & _ & Rb & Rt & Rbt).
  match goal with |- context [if (70 <=? ?s)%float then _ else _] =>
    destruct (70 <=? s)%float; [|destruct (35 <=? s)%float] end;
    cbn [fst brady tachy]; rewrite Eb, Et;
    (split; [destruct Rb as [->|[->| ->]]; auto|]);
    (split; [destruct Rt as [->|[->| ->]]; auto|]);
    destruct Rbt as [->| ->]; auto.
Qed.

(** For an irregularity that is a number not below zero, [Infinity]
    included, the irregularity points are not below zero and the score is
    within [0,100]. *)
Lemma assess_bounds hr irr :
  nonneg irr ->
  let p := fst (assess hr irr) in
  let h := snd (assess hr irr) in
  (0 <=? irregularity p)%float = true
  /\ (0 <=? score h)%float = true /\ (score h <=? 100)%float = true.
Proof.
  intros Hi; cbn zeta. unfold assess.
  destruct (band_points hr) as (kb & kt & Eb & Et & Ebt & Rb & Rt & Rbt).
  set (b := (if hr <? 50 then 40 else if hr <? 60 then 20 else 0)%float) in *.
  set (t := (if 120 <? hr then 40 else if 100 <? hr then 20 else 0)%float) in *.
  set (i := Number.round (irr * 40)%float).
  set (s := Number.max 0 (Number.min 100 (b + t + i)%float)).
  assert (V40 : V 40 = 40%R /\ is_finite 40 = true)
    by (apply (V_int 40 40 eq_refl); vm_compute; discriminate).
  assert (V100 : V 100 = 100%R /\ is_finite 100 = true)
    by (apply (V_int 100 100 eq_refl); vm_compute; discriminate).
  destruct V40 as [V40 F40], V100 as [V100 F100].
  assert (Ni : nonneg i).
  { apply round_nonneg. apply mul_nonneg; [exact Hi|]. split; [exact F40|rewrite V40; lra]. }
  assert (Nbt : nonneg (b + t)%float).
  { rewrite Ebt. destruct (of_Z_exact (kb + kt)) as [Hv Hf]; [lia|].
    apply nonneg_finite; [exact Hf|]. rewrite Hv. apply (IZR_le 0). lia. }
  pose proof (add_nonneg _ _ Nbt Ni) as [Ns Ps].
  destruct (min_V 100 (b + t + i)%float (finite_not_nan _ F100) Ns) as (Vm & Nm & _).
  destruct (max_V 0 _ eq_refl Nm) as (Vx & Nx & _). fold s in Vx, Nx.
  rewrite V_0, Vm, V100 in Vx.
  assert (Rs : (0 <= V s <= 100)%R).
  { rewrite Vx. split; [apply Rmax_l|].
    apply Rmax_lub; [lra|apply Rmin_l]. }
  assert (Cs : (0 <=? s)%float = true /\ (s <=? 100)%float = true).
  { split.
    - apply (leb_V 0 s eq_refl Nx). rewrite V_0. lra.
    - apply (leb_V s 100 Nx (finite_not_nan _ F100)). rewrite V100. lra. }
  destruct (70 <=? s)%float; [|destruct (35 <=? s)%float];
    cbn [fst snd irregularity score]; (split; [now apply nonneg_leb|exact Cs]).
Qed.

(** The angle of the needle for a score within [0,100]. *)
Lemma needle_range (s : float) :
  (0 <=? s)%float = true -> (s <=? 100)%float = true ->
  (-120 <=? needle_angle s)%float = true /\ (needle_angle s <=? 120)%float = true.
Proof.
  intros H0 H1.
  assert (V100 : V 100 = 100%R /\ is_finite 100 = true)
    by (apply (V_int 100 100 eq_refl); vm_compute; discriminate).
  assert (V240 : V 240 = 240%R /\ is_finite 240 = true)
    by (apply (V_int 240 240 eq_refl); vm_compute; discriminate).
  assert (V120 : V 120 = 120%R /\ is_finite 120 = true)
    by (apply (V_int 120 120 eq_refl); vm_compute; discriminate).
  assert (Vm120 : V (-120) = (-120)%R /\ is_finite (-120) = true)
    by (apply (V_int (-120) (-120) eq_refl); vm_compute; discriminate).
  destruct V100 as [V100 F100], V240 as [V240 F240], V120 as [V120 F120],
    Vm120 as [Vm120 Fm120].
  destruct (leb_nonnan _ _ H0) as [_ Ns].
  apply (leb_V 0 s eq_refl Ns) in H0. rewrite V_0 in H0.
  apply (leb_V s 100 Ns (finite_not_nan _ F100)) in H1. rewrite V100 in H1.
  assert (Fs : is_finite s = true).
  { apply (between_finite s 0 100 Ns eq_refl eq_refl). lra. }
  destruct (div_V s 100 Fs F100) as [Hq Nq]; [rewrite V100; apply Rgt_not_eq; lra|].
  rewrite V100 in Hq.
  assert (Bq : (0 <= V (s / 100)%float <= 1)%R).
  { split.
    - apply (R64_mono 0 (V s / 100) _ _); [lra|exact R64_0|exact Hq].
    - apply (R64_mono (V s / 100) 1 _ _); [lra|exact Hq|].
      apply (R64_int 1). vm_compute. discriminate. }
  assert (Fq : is_finite (s / 100)%float = true).
  { apply (between_finite _ 0 1 Nq eq_refl eq_refl). exact Bq. }
  destruct (mul_V _ 240 Fq F240) as [Hr Nr]. rewrite V240 in Hr.
  assert (Br : (0 <= V (s / 100 * 240)%float <= 240)%R).
  { split.
    - apply (R64_mono 0 (V (s / 100)%float * 240) _ _); [lra|exact R64_0|exact Hr].
    - apply (R64_mono (V (s / 100)%float * 240) 240 _ _); [lra|exact Hr|].
      apply (R64_int 240). vm_compute. discriminate. }
  assert (Fr : is_finite (s / 100 * 240)%float = true).
  { apply (between_finite _ 0 240 Nr eq_refl eq_refl). exact Br. }
  destruct (add_V (-120) _ Fm120 Fr) as [Ha Na]. rewrite Vm120 in Ha.
  unfold needle_angle. split.
  - apply (leb_V _ _ (finite_not_nan _ Fm120) Na). rewrite Vm120.
    apply (R64_mono (-120) (-120 + V (s / 100 * 240)%float) _ _); [lra| |exact Ha].
    apply (R64_int (-120)). vm_compute. discriminate.
  - apply (leb_V _ _ Na (finite_not_nan _ F120)). rewrite V120.
    apply (R64_mono (-120 + V (s / 100 * 240)%float) 120 _ _); [lra|exact Ha|].
    apply (R64_int 120). vm_compute. discriminate.
Qed.

Lemma reading_irregularity_nonneg value r i :
  reading_of_value value = Some r -> deviceIrregularity r = Some i ->
  (0 <=? i)%float = true.
Proof.
  unfold reading_of_value. destruct value; [discriminate|].
  destruct (is_status _); [discriminate|]. destruct (2 <=? _)%nat; [|discriminate].
  generalize (parse_fields (JS.split_commas (JS.trim (String a value)))). intros f.
  unfold reading_of. destruct (_ && _); [|discriminate].
  intros [= <-]. cbn [deviceIrregularity].
  destruct (arduinoIrr f) as [j|]; [|discriminate].
  destruct (0 <=? j)%float eqn:E; [|discriminate]. now intros [= <-].
Qed.

Lemma read_value_history m now a value :
  within_capacity a ->
  Forall (fun q => (0 <=? q)%float = true) (history a) ->
  Forall (fun q => (0 <=? q)%float = true) (history (read_value m now a value)).
Proof.
  intros Hw H.
  destruct (read_value_buffers m now a value) as (_ & _ & _ & E).
  unfold history at 1. rewrite E. fold (history (match reading_of_value value with
    | Some r => fold_left store (pushes_of now r) a | None => a end)).
  destruct (reading_of_value value) as [r|] eqn:Er; [|exact H].
  destruct (fold_store (pushes_of now r) Hw) as (_ & _ & _ & _ & ->).
  unfold slice_last. apply Forall_skipn. apply Forall_app. split; [exact H|].
  unfold pushes_of, irregularities_of.
  destruct (deviceBpm r); [|repeat constructor].
  destruct (deviceIrregularity r) as [i|] eqn:Ei; [|repeat constructor].
  cbn. constructor; [|constructor]. exact (reading_irregularity_nonneg _ Er Ei).
Qed.

Lemma read_value_beats m now a value :
  beatsRef (read_value m now a value) = beatsRef a
  \/ beatsRef (read_value m now a value) = slice_last 50 (beatsRef a ++ [now]).
Proof.
  destruct (read_value_buffers m now a value) as (_ & _ & -> & _).
  destruct (reading_of_value value) as [r|]; [|now left].
  unfold pushes_of. cbn [fold_left store].
  assert (Hs : beatsRef (store_samples (leadI r) (leadII r) a) = beatsRef a).
  { unfold store_samples. destruct (_ <? _)%nat; reflexivity. }
  destruct (deviceBpm r); [|left; exact Hs].
  right. destruct (deviceIrregularity r); cbn [fold_left store].
  - unfold store_irregularity. cbn [beatsRef setArduinoIrregularity].
    destruct (store_beat_spec now (store_samples (leadI r) (leadII r) a)) as (_ & _ & -> & _).
    now rewrite Hs.
  - destruct (store_beat_spec now (store_samples (leadI r) (leadII r) a)) as (_ & _ & -> & _).
    now rewrite Hs.
Qed.

Lemma disconnect_keeps_health a : healthCategory (disconnectSerial a) = healthCategory a.
Proof.
  unfold disconnectSerial. destruct (port a); cbn; [|reflexivity].
  destruct (arduinoIrregularity a); reflexivity.
Qed.

Lemma disconnect_history a : history (disconnectSerial a) = history a \/ history (disconnectSerial a) = [].
Proof.
  destruct (port a) eqn:Hp.
  - right. now destruct (disconnect_empties _ Hp) as (_ & _ & _ & H).
  - left. unfold disconnectSerial. now rewrite Hp.
Qed.

Lemma disconnect_beats a : beatsRef (disconnectSerial a) = beatsRef a \/ beatsRef (disconnectSerial a) = [].
Proof.
  destruct (port a) eqn:Hp.
  - right. now destruct (disconnect_empties _ Hp) as (_ & _ & H & _).
  - left. unfold disconnectSerial. now rewrite Hp.
Qed.

(** What every handler keeps: the buffers within capacity, no stored
    device irregularity below zero, and band points of a breakdown. *)
Lemma reachable_bands es :
  let a := ui (run start es) in
  within_capacity a
  /\ Forall (fun q => (0 <=? q)%float = true) (history a)
  /\ ((brady (breakdown a) = 0 \/ brady (breakdown a) = 20 \/ brady (breakdown a) = 40)
      /\ (tachy (breakdown a) = 0 \/ tachy (breakdown a) = 20 \/ tachy (breakdown a) = 40)
      /\ (brady (breakdown a) = 0 \/ tachy (breakdown a) = 0))%float.
Proof.
  cbn zeta.
  apply (run_invariant (fun a =>
    within_capacity a
    /\ Forall (fun q => (0 <=? q)%float = true) (history a)
    /\ ((brady (breakdown a) = 0 \/ brady (breakdown a) = 20 \/ brady (breakdown a) = 40)
        /\ (tachy (breakdown a) = 0 \/ tachy (breakdown a) = 20 \/ tachy (breakdown a) = 40)
        /\ (brady (breakdown a) = 0 \/ tachy (breakdown a) = 0))%float)).
  - split; [apply all_empty_within; repeat split|]. split; [constructor|].
    cbn. repeat split; now left.
  - intros s e (Hw & Hh & Hp).
    split; [now apply step_within_capacity|].
    destruct e; cbn [step ui]; try (split; [exact Hh|exact Hp]).
    + destruct (read_value_frame (loopMonitoring s) now (ui s) value) as (_ & _ & -> & _).
      split; [now apply read_value_history|exact Hp].
    + rewrite disconnect_keeps_breakdown. split; [|exact Hp].
      destruct (disconnect_history (ui s)) as [-> | ->]; [exact Hh|constructor].
    + split.
      { destruct (compute_buffers (ui s)) as (_ & _ & _ & E).
        unfold history. rewrite E. exact Hh. }
      destruct (hasArduinoIrr (ui s)) eqn:Ha;
        [|destruct (Nat.ltb_spec (List.length (beatsRef (ui s))) 3) as [Hl|Hl]].
      * destruct (compute_publishes (ui s) (or_introl Ha)) as [-> _]. apply assess_bands.
      * rewrite compute_short; [exact Hp| |exact Hl].
        destruct (history (ui s)) eqn:E; [reflexivity|].
        assert (hasArduinoIrr (ui s) = true)
          by (apply hasArduinoIrr_history; rewrite E; discriminate).
        congruence.
      * destruct (compute_publishes (ui s) (or_intror Hl)) as [-> _]. apply assess_bands.
Qed.

(** With a clock that yields time values, the beats of every reachable
    state are time values. *)
Lemma reachable_time_values es :
  Forall time_value (times_of es) -> Forall time_value (beatsRef (ui (run start es))).
Proof.
  apply (run_invariant_clock (fun a => Forall time_value (beatsRef a))); [constructor|].
  intros s e Ht H. destruct e; cbn [step ui]; try exact H.
  - destruct (read_value_beats (loopMonitoring s) now (ui s) value) as [-> | ->]; [exact H|].
    unfold slice_last. apply Forall_skipn. apply Forall_app. split; [exact H|].
    unfold times_of in Ht. cbn [flat_map] in Ht. now rewrite app_nil_r in Ht.
  - destruct (disconnect_beats (ui s)) as [-> | ->]; [exact H|constructor].
  - destruct (compute_buffers (ui s)) as (_ & _ & -> & _). exact H.
Qed.

Lemma run_snoc s es e : run s (es ++ [e]) = step (run s es) e.
Proof. unfold run. now rewrite fold_left_app. Qed.

Lemma times_of_app es es' : times_of (es ++ es') = times_of es ++ times_of es'.
Proof. unfold times_of. apply flat_map_app. Qed.

(** With a clock that yields time values, the published irregularity
    points are not below zero and the published score is within [0,100]. *)
Lemma reachable_scores es :
  Forall time_value (times_of es) ->
  let a := ui (run start es) in
  (0 <=? irregularity (breakdown a))%float = true
  /\ (0 <=? score (healthCategory a))%float = true
  /\ (score (healthCategory a) <=? 100)%float = true.
Proof.
  cbn zeta. induction es as [|e es IH] using rev_ind; intros Ht.
  - repeat split.
  - rewrite times_of_app in Ht. apply Forall_app in Ht as [Ht _].
    specialize (IH Ht). rewrite run_snoc.
    pose proof (reachable_bands es) as (Hw & Hh & _). cbn zeta in Hw, Hh.
    pose proof (reachable_time_values es Ht) as Hb.
    set (s := run start es) in *.
    destruct e; cbn [step ui]; try exact IH.
    + now destruct (read_value_frame (loopMonitoring s) now (ui s) value) as (_ & -> & -> & _).
    + now rewrite disconnect_keeps_breakdown, disconnect_keeps_health.
    + destruct (hasArduinoIrr (ui s)) eqn:Ha;
        [|destruct (Nat.ltb_spec (List.length (beatsRef (ui s))) 3) as [Hl|Hl]].
      * destruct (compute_publishes (ui s) (or_introl Ha)) as [-> ->].
        apply assess_bounds. now apply rhythm_nonneg.
      * rewrite compute_short; [split; [apply IH|split; reflexivity]| |exact Hl].
        destruct (history (ui s)) eqn:E; [reflexivity|].
        assert (hasArduinoIrr (ui s) = true)
          by (apply hasArduinoIrr_history; rewrite E; discriminate).
        congruence.
      * destruct (compute_publishes (ui s) (or_intror Hl)) as [-> ->].
        apply assess_bounds. now apply rhythm_nonneg.
Qed.

(** X7. In every reachable state the published breakdown has bradycardia and
    tachycardia points among 0, 20, 40, never both above 0, and no stored
    device irregularity is below zero. When the clock yields time values,
    the published irregularity points are a number not below zero and the
    published score lies in [0,100], so the needle of the health gauge
    stays between -120 and 120 degrees. *)
Theorem published_scores_bounded es :
  let a := ui (run start es) in
  let p := breakdown a in
  let h := healthCategory a in
  (brady p = 0 \/ brady p = 20 \/ brady p = 40)%float
  /\ (tachy p = 0 \/ tachy p = 20 \/ tachy p = 40)%float
  /\ (brady p = 0 \/ tachy p = 0)%float
  /\ Forall (fun q => (0 <=? q)%float = true) (history a)
  /\ (Forall time_value (times_of es) ->
      (0 <=? irregularity p)%float = true
      /\ (0 <=? score h)%float = true /\ (score h <=? 100)%float = true
      /\ (-120 <=? needle_angle (score h))%float = true
      /\ (needle_angle (score h) <=? 120)%float = true).
Proof.
  cbn zeta. destruct (reachable_bands es) as (_ & Hh & H1 & H2 & H3).
  split; [exact H1|]. split; [exact H2|]. split; [exact H3|]. split; [exact Hh|].
  intros Ht. destruct (reachable_scores es Ht) as (Hi & S0 & S1).
  split; [exact Hi|]. split; [exact S0|]. split; [exact S1|].
  now apply needle_range.
Qed.

(** X8. A run of the scorer reads nothing that it writes: run twice in a row
    it publishes the same, and it changes the health category and the
    breakdown only. *)
Theorem compute_idempotent a :
  compute (compute a) = compute a
  /\ compute a = setHealthCategory (healthCategory (compute a))
                   (setBreakdown (breakdown (compute a)) a).
Proof.
  unfold compute at 2 4 5 6.
  destruct (negb (hasArduinoIrr a) && (List.length (beatsRef a) <? 3)%nat) eqn:Hc.
  - split; [|reflexivity]. unfold compute.
    change (hasArduinoIrr (setHealthCategory _ a)) with (hasArduinoIrr a).
    change (beatsRef (setHealthCategory _ a)) with (beatsRef a).
    rewrite Hc. reflexivity.
  - destruct (assess (heart_rate a) (rhythm_irregularity a)) as [p h] eqn:E.
    split; [|reflexivity]. unfold compute.
    change (hasArduinoIrr (setHealthCategory h (setBreakdown p a))) with (hasArduinoIrr a).
    change (beatsRef (setHealthCategory h (setBreakdown p a))) with (beatsRef a).
    change (heart_rate (setHealthCategory h (setBreakdown p a))) with (heart_rate a).
    change (rhythm_irregularity (setHealthCategory h (setBreakdown p a)))
      with (rhythm_irregularity a).
    rewrite Hc, E. reflexivity.
Qed.

End Published.

Section Monotone.
Import App Stores Parser Session Clock Rhythm Widgets IEEE.

(** The score as a function of the irregularity, for given band points
    whose sum is finite, keeps the order of numbers. *)
Lemma score_chain (c : float) (x y : float) :
  is_finite c = true -> is_nan x = false -> is_nan y = false -> (V x <= V y)%R ->
  let i := fun z => Number.round (z * 40)%float in
  let s := fun z => Number.max 0 (Number.min 100 (c + i z)%float) in
  ((V (i x) <= V (i y))%R /\ is_nan (i x) = false /\ is_nan (i y) = false)
  /\ ((V (s x) <= V (s y))%R /\ is_nan (s x) = false /\ is_nan (s y) = false).
Proof.
  intros Fc Nx Ny Hxy; cbn zeta.
  assert (P40 : posfin 40).
  { destruct (V_int 40 40 eq_refl) as [V40 F40]; [vm_compute; discriminate|].
    split; [exact F40|rewrite V40; lra]. }
  destruct (mulc_monotone 40 P40 x y Nx Ny Hxy) as (H1 & N1 & N1').
  destruct (round_monotone _ _ N1 N1' H1) as (H2 & N2 & N2').
  split; [exact (conj H2 (conj N2 N2'))|].
  destruct (addc_monotone c Fc _ _ N2 N2' H2) as (H3 & N3 & N3').
  destruct (minc_monotone 100 eq_refl _ _ N3 N3' H3) as (H4 & N4 & N4').
  exact (maxc_monotone 0 eq_refl _ _ N4 N4' H4).
Qed.

(** X9. For a given heart rate, a larger irregularity never lowers the
    irregularity points, the score or the category. While the irregularity
    stays within [0,1] the clamp does nothing: the score is the plain sum of
    the three contributions and is at most 80. *)
Theorem score_monotone (hr irr1 irr2 : float) :
  (irr1 <=? irr2)%float = true ->
  let p1 := fst (assess hr irr1) in
  let p2 := fst (assess hr irr2) in
  let h1 := snd (assess hr irr1) in
  let h2 := snd (assess hr irr2) in
  brady p1 = brady p2 /\ tachy p1 = tachy p2
  /\ (irregularity p1 <=? irregularity p2)%float = true
  /\ (score h1 <=? score h2)%float = true
  /\ severity (level h1) <= severity (level h2)
  /\ ((0 <=? irr1)%float = true -> (irr2 <=? 1)%float = true ->
      (V (score h2) = V (brady p2) + V (tachy p2) + V (irregularity p2))%R
      /\ (score h2 <=? 80)%float = true).
Proof.
  intros H; cbn zeta.
  destruct (leb_nonnan _ _ H) as [N1 N2].
  pose proof (proj1 (leb_V _ _ N1 N2) H) as Hle.
  destruct (band_points hr) as (kb & kt & Eb & Et & Ebt & Rb & Rt & Rbt).
  unfold assess.
  set (b := (if hr <? 50 then 40 else if hr <? 60 then 20 else 0)%float) in *.
  set (t := (if 120 <? hr then 40 else if 100 <? hr then 20 else 0)%float) in *.
  assert (Fbt : is_finite (b + t)%float = true).
  { rewrite Ebt. apply of_Z_exact. lia. }
  destruct (@score_chain (b + t)%float irr1 irr2 Fbt N1 N2 Hle)
    as ((Hi & Ni1 & Ni2) & (Hs & Ns1 & Ns2)).
  set (i1 := Number.round (irr1 * 40)%float) in *.
  set (i2 := Number.round (irr2 * 40)%float) in *.
  set (s1 := Number.max 0 (Number.min 100 (b + t + i1)%float)) in *.
  set (s2 := Number.max 0 (Number.min 100 (b + t + i2)%float)) in *.
  assert (V70 : V 70 = 70%R /\ is_finite 70 = true)
    by (apply (V_int 70 70 eq_refl); vm_compute; discriminate).
  assert (V35 : V 35 = 35%R /\ is_finite 35 = true)
    by (apply (V_int 35 35 eq_refl); vm_compute; discriminate).
  assert (V80 : V 80 = 80%R /\ is_finite 80 = true)
    by (apply (V_int 80 80 eq_refl); vm_compute; discriminate).
  destruct V70 as [V70 F70], V35 as [V35 F35], V80 as [V80 F80].
  pose proof (leb_V 70 s1 (finite_not_nan _ F70) Ns1) as A1.
  pose proof (leb_V 70 s2 (finite_not_nan _ F70) Ns2) as A2.
  pose proof (leb_V 35 s1 (finite_not_nan _ F35) Ns1) as B1.
  pose proof (leb_V 35 s2 (finite_not_nan _ F35) Ns2) as B2.
  rewrite V70 in A1, A2. rewrite V35 in B1, B2.
  assert (Hlast : (0 <=? irr1)%float = true -> (irr2 <=? 1)%float = true ->
                  (V s2 = V b + V t + V i2)%R /\ (s2 <=? 80)%float = true).
  { intros H0 H1.
    assert (H0' : (0 <=? irr2)%float = true).
    { apply (leb_V 0 _ eq_refl N2). apply (leb_V 0 _ eq_refl N1) in H0. lra. }
    destruct (irregularity_points H0' H1) as (_ & k & Hk & Fk & Bk & _).
    fold i2 in Hk, Fk.
    assert (Bbt : (0 <= kb + kt <= 40)%Z) by lia.
    destruct (@clamped_sum b t i2 kb kt k Ebt Bbt Hk Fk Bk) as [Vs _]. fold s2 in Vs.
    assert (Wb : V b = IZR kb) by (rewrite Eb; apply of_Z_exact; lia).
    assert (Wt : V t = IZR kt) by (rewrite Et; apply of_Z_exact; lia).
    split.
    - rewrite Vs, Wb, Wt, Hk, !plus_IZR. reflexivity.
    - apply (leb_V _ _ Ns2 (finite_not_nan _ F80)). rewrite Vs, V80.
      apply (IZR_le _ 80). lia. }
  assert (Ci : (i1 <=? i2)%float = true) by now apply (leb_V _ _ Ni1 Ni2).
  assert (Cs : (s1 <=? s2)%float = true) by now apply (leb_V _ _ Ns1 Ns2).
  destruct (70 <=? s1)%float eqn:E1; [|destruct (35 <=? s1)%float eqn:E2];
    (destruct (70 <=? s2)%float eqn:E3; [|destruct (35 <=? s2)%float eqn:E4]);
    cbn [fst snd brady tachy irregularity score level severity];
    (split; [reflexivity|]); (split; [reflexivity|]); (split; [exact Ci|]);
    (split; [exact Cs|]); (split; [|exact Hlast]); try lia; exfalso.
  - pose proof (proj1 A1 eq_refl). 
    assert (~ (70 <= V s2)%R) by (intros G; apply A2 in G; discriminate). lra.
  - pose proof (proj1 A1 eq_refl). 
    assert (~ (70 <= V s2)%R) by (intros G; apply A2 in G; discriminate). lra.
  - pose proof (proj1 B1 eq_refl). 
    assert (~ (35 <= V s2)%R) by (intros G; apply B2 in G; discriminate). lra.
Qed.

Lemma score_monotone_witness :
  (score (snd (assess 45 0)) <=? score (snd (assess 45 1)))%float = true
  /\ (score (snd (assess 45 1)) <=? 80)%float = true.
Proof.
  destruct (@score_monotone 45 0 1 eq_refl) as (_ & _ & _ & Hs & _ & Hc).
  split; [exact Hs|]. apply Hc; reflexivity.
Defined.

End Monotone.

(** ** What the page shows *)

Section Display.
Import Text.
Import App Stores Parser Session Rhythm Widgets Canvas Clock.

Lemma disconnect_flags a :
  flags (disconnectSerial a) = if port a then (false, false, false) else flags a.
Proof.
  unfold disconnectSerial, flags. destruct (port a) eqn:Hp; cbn; [|now rewrite Hp].
  destruct (arduinoIrregularity a); reflexivity.
Qed.

Lemma reachable_calibrating_port es :
  calibrating (ui (run start es)) = true -> port (ui (run start es)) = true.
Proof.
  apply (run_invariant (fun a => calibrating a = true -> port a = true)); [discriminate|].
  intros s e IH. destruct e; cbn [step ui]; try (exact IH); try discriminate.
  - reflexivity.
  - destruct value as [|c v]; [exact IH|].
    pose proof (read_value_flags (loopMonitoring s) now (ui s) (String c v)) as H.
    remember (read_value (loopMonitoring s) now (ui s) (String c v)) as a' eqn:Ea.
    clear Ea. unfold flags in H. destruct (is_status _).
    + injection H as -> -> _. destruct (JS.includes _ _); [discriminate|exact IH].
    + injection H as -> -> _. exact IH.
  - pose proof (disconnect_flags (ui s)) as H.
    remember (disconnectSerial (ui s)) as a' eqn:Ea. clear Ea. unfold flags in H.
    destruct (port (ui s)); injection H as -> -> _; [discriminate|exact IH].
  - destruct (compute_frame (ui s)) as (-> & _ & -> & _). exact IH.
Qed.

(** X13. In every reachable state the calibrating flag is set only while a
    port is held, and the status line under the gauge shows exactly one
    text: Not connected exactly when no port is held, Waiting exactly while
    calibrating, Monitoring Active exactly when monitoring. *)
Theorem status_line_single es :
  let a := ui (run start es) in
  (calibrating a = true -> port a = true)
  /\ List.length (status_line a) = 1
  /\ (status_line a = ["○ Not connected"%string] <-> Disconnected a)
  /\ (status_line a = ["⏳ Waiting 4 seconds..."%string] <-> Calibrating a)
  /\ (status_line a = ["● Monitoring Active"%string] <-> Monitoring a).
Proof.
  cbn zeta. pose proof (@reachable_calibrating_port es) as H.
  split; [exact H|].
  unfold status_line, Disconnected, Calibrating, Monitoring.
  destruct (calibrating (ui (run start es))), (port (ui (run start es))),
    (monitoringActive (ui (run start es)));
    try (specialize (H eq_refl); discriminate H);
    cbn; repeat split; try discriminate; try tauto;
    intros; repeat match goal with H : _ /\ _ |- _ => destruct H end; discriminate.
Qed.

(** X15. After a disconnect request with a port held, and the next run of
    the scorer, the page is idle: Insufficient data with score 0, heart rate
    back to the default 70, the status Not connected, the gauge without arc
    and number, and the canvas showing the waiting texts. A second
    disconnect request changes nothing. *)
Theorem idle_after_disconnect (a : app) (w : float) :
  port a = true ->
  let d := compute (disconnectSerial a) in
  disconnectSerial (disconnectSerial a) = disconnectSerial a
  /\ healthCategory d = mkHealth InsufficientData 0 desc_insufficient
  /\ heart_rate d = 70%float
  /\ status_line d = ["○ Not connected"%string]
  /\ arc (Gauge (gauge_value d)) = false /\ text (Gauge (gauge_value d)) = None
  /\ texts (drawCanvas (Some w) (calibrating d) (samplesRef d))
     = ["Waiting for ECG data..."; "Connect your device or click Demo Mode"]%string.
Proof.
  intros Hp; cbn zeta.
  destruct (disconnect_empties _ Hp) as (E1 & E2 & E3 & E4).
  pose proof (disconnect_flags a) as Hf. rewrite Hp in Hf. unfold flags in Hf.
  injection Hf as Fp Fc Fm.
  assert (Hb : bpm (disconnectSerial a) = None).
  { unfold disconnectSerial. rewrite Hp. cbn. destruct (arduinoIrregularity a); reflexivity. }
  assert (Hc : compute (disconnectSerial a)
               = setHealthCategory (mkHealth InsufficientData 0 desc_insufficient)
                   (disconnectSerial a)).
  { apply compute_short; [exact E4|rewrite E3; cbn; lia]. }
  rewrite Hc. remember (disconnectSerial a) as d eqn:Ed.
  split.
  { subst d. unfold disconnectSerial at 1. now rewrite Fp. }
  split; [reflexivity|].
  split; [unfold heart_rate; cbn; now rewrite Hb|].
  split; [unfold status_line; cbn; now rewrite Fp, Fc|].
  unfold gauge_value. cbn [monitoringActive port setHealthCategory]. rewrite Fm. cbn [andb].
  split; [reflexivity|]. split; [reflexivity|].
  cbn [calibrating samplesRef setHealthCategory]. rewrite Fc, E1. reflexivity.
Qed.

Lemma idle_after_disconnect_witness :
  let a := ui (run start [Opened; Value 1000 "0.1,0.2,72,0.05"; Tick]) in
  status_line (compute (disconnectSerial a)) = ["○ Not connected"%string]
  /\ text (Gauge (gauge_value (compute (disconnectSerial a)))) = None.
Proof.
  intros a.
  assert (Hp : port a = true) by (unfold a; cbn [run fold_left step ui]; now rewrite compute_keeps_port).
  destruct (@idle_after_disconnect a 800%float Hp) as (_ & _ & _ & H1 & _ & H2 & _).
  split; assumption.
Defined.
End Display.

(** ** Streaming and white space *)

Section Streaming.
Import LineBreakTransformer App Text.

Lemma feed_container_free (cs : list string) : count LF (container (feed cs)) = 0.
Proof.
  destruct (feed_spec cs) as [-> _].
  apply (@last_in_forall _ (fun l => count LF l = 0)).
  - apply split_nonempty.
  - apply split_segments_free.
Qed.

(** X1. Chunks that arrive later only add lines: what the transformer has
    enqueued stays a prefix of what it enqueues after more chunks, the new
    lines being those completed by the pending partial followed by the new
    text; chunks without a line feed enqueue nothing and only lengthen the
    partial. *)
Theorem emitted_lines_are_final (cs cs' : list string) :
  enqueued (feed (cs ++ cs'))
  = enqueued (feed cs)
    ++ removelast (split LF (container (feed cs) ++ text_of cs')%string)
  /\ container (feed (cs ++ cs'))
     = last (split LF (container (feed cs) ++ text_of cs')%string) EmptyString
  /\ (count LF (text_of cs') = 0 ->
      enqueued (feed (cs ++ cs')) = enqueued (feed cs)
      /\ container (feed (cs ++ cs')) = (container (feed cs) ++ text_of cs')%string).
Proof.
  assert (Hf : feed (cs ++ cs') = fold_left transform cs' (feed cs))
    by (unfold feed; apply fold_left_app).
  rewrite Hf.
  destruct (fold_transform cs' (feed cs) (feed_container_free cs)) as [Hc He].
  cbn zeta in Hc, He. split; [exact He|]. split; [exact Hc|].
  intros Hfree. rewrite He, Hc.
  assert (Hsplit : split LF (container (feed cs) ++ text_of cs')%string
                   = [(container (feed cs) ++ text_of cs')%string]).
  { apply split_free.
    assert (Happ : forall a b, count LF (a ++ b)%string = count LF a + count LF b).
    { induction a as [|x a IH]; intros b; [reflexivity|]. cbn [append count]. rewrite IH. lia. }
    rewrite Happ, Hfree, feed_container_free. reflexivity. }
  rewrite Hsplit. cbn [removelast last]. now rewrite app_nil_r.
Qed.

Lemma trimStart_white (ws s : string) :
  all_white ws = true -> JS.trimStart (ws ++ s) = JS.trimStart s.
Proof.
  induction ws as [|c ws IH]; [reflexivity|].
  cbn [all_white append JS.trimStart]. intros H. apply andb_true_iff in H as [-> H].
  now apply IH.
Qed.

Lemma trimEnd_white (ws : string) : all_white ws = true -> JS.trimEnd ws = EmptyString.
Proof.
  induction ws as [|c ws IH]; [reflexivity|].
  cbn [all_white JS.trimEnd]. intros H. apply andb_true_iff in H as [-> H].
  now rewrite (IH H).
Qed.

Lemma trimEnd_app_white (s ws : string) :
  all_white ws = true -> JS.trimEnd (s ++ ws) = JS.trimEnd s.
Proof.
  intros H. induction s as [|c s IH]; cbn [append].
  - now apply trimEnd_white.
  - cbn [JS.trimEnd]. now rewrite IH.
Qed.

Lemma trimStart_app_white (s ws : string) :
  all_white ws = true ->
  exists ws', all_white ws' = true /\ JS.trimStart (s ++ ws) = (JS.trimStart s ++ ws')%string.
Proof.
  intros H. induction s as [|c s IH]; cbn [append JS.trimStart].
  - exists EmptyString. split; [reflexivity|].
    rewrite <- (append_empty_r ws). rewrite trimStart_white by assumption. reflexivity.
  - destruct (JS.isWhite c); [exact IH|]. exists ws. now split.
Qed.

Lemma trim_white (ws1 s ws2 : string) :
  all_white ws1 = true -> all_white ws2 = true ->
  JS.trim (ws1 ++ s ++ ws2) = JS.trim s.
Proof.
  intros H1 H2. unfold JS.trim. rewrite trimStart_white by assumption.
  destruct (@trimStart_app_white s ws2 H2) as (ws' & Hw & ->).
  now apply trimEnd_app_white.
Qed.

(** X2. White space before and after a non-empty value of the reader, a
    carriage return before the line feed included, makes no difference to
    what the read loop does with it. *)
Theorem surrounding_white_space_ignored m now a (ws1 value ws2 : string) :
  value <> EmptyString -> all_white ws1 = true -> all_white ws2 = true ->
  read_value m now a (ws1 ++ value ++ ws2) = read_value m now a value.
Proof.
  intros Hne H1 H2. unfold read_value.
  rewrite (@trim_white ws1 value ws2 H1 H2).
  destruct value as [|c v]; [contradiction|].
  destruct (ws1 ++ String c v ++ ws2)%string eqn:E; [|reflexivity].
  exfalso. destruct ws1; cbn in E; discriminate.
Qed.

Lemma surrounding_white_space_ignored_witness :
  let cr := String (Ascii.ascii_of_nat 13) EmptyString in
  read_value false 1000 initial (" " ++ "0.1,0.2,72" ++ cr)
  = read_value false 1000 initial "0.1,0.2,72".
Proof.
  intros cr.
  refine (@surrounding_white_space_ignored false 1000%Z initial " " "0.1,0.2,72" cr _ eq_refl eq_refl).
  discriminate.
Defined.
End Streaming.

(** ** Properties of the irregularity figure *)

Section RhythmFacts.
Import App Stores Rhythm Clock.

Lemma ibis_shift (c : Z) (beats : list Z) : ibis (map (fun t => t + c)%Z beats) = ibis beats.
Proof.
  induction beats as [|t0 [|t1 rest] IH]; [reflexivity|reflexivity|].
  change (map (fun t => (t + c)%Z) (t0 :: t1 :: rest))
    with ((t0 + c)%Z :: map (fun t => (t + c)%Z) (t1 :: rest)).
  change (map (fun t => (t + c)%Z) (t1 :: rest))
    with ((t1 + c)%Z :: map (fun t => (t + c)%Z) rest) in *.
  cbn [ibis] in *. rewrite IH. f_equal. lia.
Qed.

(** X11. Adding one constant to every beat timestamp changes neither the
    irregularity nor what the scorer publishes. *)
Theorem clock_origin_is_irrelevant (a : app) (c : Z) :
  let a' := setBeats (map (fun t => t + c)%Z (beatsRef a)) a in
  rhythm_irregularity a' = rhythm_irregularity a
  /\ healthCategory (compute a') = healthCategory (compute a)
  /\ breakdown (compute a') = breakdown (compute a).
Proof.
  cbn zeta.
  assert (Hr : rhythm_irregularity (setBeats (map (fun t => t + c)%Z (beatsRef a)) a)
               = rhythm_irregularity a).
  { unfold rhythm_irregularity.
    change (hasArduinoIrr (setBeats _ a)) with (hasArduinoIrr a).
    change (arduinoIrregularity (setBeats _ a)) with (arduinoIrregularity a).
    change (beatsRef (setBeats (map (fun t => t + c)%Z (beatsRef a)) a))
      with (map (fun t => t + c)%Z (beatsRef a)).
    now rewrite ibis_shift. }
  split; [exact Hr|].
  unfold compute.
  change (hasArduinoIrr (setBeats _ a)) with (hasArduinoIrr a).
  change (beatsRef (setBeats (map (fun t => t + c)%Z (beatsRef a)) a))
    with (map (fun t => t + c)%Z (beatsRef a)).
  change (heart_rate (setBeats _ a)) with (heart_rate a).
  rewrite length_map, Hr.
  destruct (negb (hasArduinoIrr a) && (List.length (beatsRef a) <? 3)%nat);
    [split; reflexivity|].
  destruct (assess (heart_rate a) (rhythm_irregularity a)). split; reflexivity.
Qed.

End RhythmFacts.

(** ** Order of the beat timestamps *)

Section BeatOrder.
Import App Stores Parser Rhythm Clock IEEE.

Lemma sorted_app_r (l1 l2 : list Z) :
  StronglySorted Z.le (l1 ++ l2) -> StronglySorted Z.le l2.
Proof.
  induction l1 as [|x l1 IH]; [exact (fun H => H)|].
  cbn [List.app]. intros H. inversion H; subst. now apply IH.
Qed.

Lemma sorted_skipn (n : nat) : forall l : list Z,
  StronglySorted Z.le l -> StronglySorted Z.le (skipn n l).
Proof.
  induction n as [|n IH]; intros l H; [exact H|].
  destruct l as [|x l]; [constructor|]. cbn [skipn]. apply IH. now inversion H.
Qed.

Lemma sorted_remove (l1 : list Z) (x : Z) (l2 : list Z) :
  StronglySorted Z.le (l1 ++ x :: l2) -> StronglySorted Z.le (l1 ++ l2).
Proof.
  induction l1 as [|y l1 IH]; cbn [List.app]; intros H; inversion H; subst; [assumption|].
  constructor; [now apply IH|].
  rewrite Forall_app in *. destruct H3 as [Ha Hb]. split; [exact Ha|]. now inversion Hb.
Qed.

Lemma run_keeps_beats_sorted (es : list event) : forall s,
  StronglySorted Z.le (beatsRef (ui s) ++ times_of es) ->
  StronglySorted Z.le (beatsRef (ui (run s es))).
Proof.
  unfold run. induction es as [|e es IH]; intros s H.
  - cbn [times_of flat_map] in H. now rewrite app_nil_r in H.
  - cbn [fold_left]. apply IH.
    change (times_of (e :: es))
      with (match e with Value now _ => [now] | _ => [] end ++ times_of es) in H.
    destruct e; cbn [step ui List.app] in *; try exact H.
    + destruct (read_value_beats (loopMonitoring s) now (ui s) value) as [-> | ->].
      * now apply sorted_remove in H.
      * unfold slice_last.
        replace (skipn (List.length (beatsRef (ui s) ++ [now]) - 50) (beatsRef (ui s) ++ [now])
                 ++ times_of es)
          with (skipn (List.length (beatsRef (ui s) ++ [now]) - 50)
                  ((beatsRef (ui s) ++ [now]) ++ times_of es)).
        { apply sorted_skipn. now rewrite <- app_assoc. }
        rewrite skipn_app.
        replace (List.length (beatsRef (ui s) ++ [now]) - 50
                 - List.length (beatsRef (ui s) ++ [now])) with 0 by lia.
        reflexivity.
    + unfold disconnectSerial. destruct (port (ui s)); cbn [negb]; [|exact H].
      apply sorted_app_r in H.
      match goal with |- StronglySorted _ (beatsRef ?d ++ _) =>
        assert (Hd : beatsRef d = []) by (cbn; destruct (arduinoIrregularity (ui s)); reflexivity)
      end.
      rewrite Hd. exact H.
    + destruct (compute_buffers (ui s)) as (_ & _ & -> & _). exact H.
Qed.

Lemma sorted_ibis_nonneg (beats : list Z) :
  StronglySorted Z.le beats -> Forall (fun d => 0 <= d)%Z (ibis beats).
Proof.
  induction beats as [|t0 [|t1 rest] IH]; intros H; [constructor|constructor|].
  inversion H as [|? ? Hs Hf]; subst. cbn [ibis].
  constructor; [inversion Hf; subst; lia|]. now apply IH.
Qed.

Lemma of_Z_nonneg (d : Z) : (0 <= d)%Z -> nonneg (Number.of_Z d).
Proof.
  intros Hd. destruct (of_Z_V d) as [Hr Hn]. split; [exact Hn|].
  apply (R64_mono 0 (IZR d) _ _); [now apply (IZR_le 0)|exact R64_0|exact Hr].
Qed.

(** X5. When the clock read by the loop never goes back, the beat timestamps
    of every reachable state are in non-decreasing order, so no inter-beat
    interval is negative and the mean of the last eight, as [computeStats]
    returns it, is a number not below zero. *)
Theorem beats_in_time_order (es : list event) :
  Sorted Z.le (times_of es) ->
  let a := ui (run start es) in
  Sorted Z.le (beatsRef a)
  /\ Forall (fun d => 0 <= d)%Z (ibis (beatsRef a))
  /\ (0 <=? fst (computeStats (map Number.of_Z (slice_last 8 (ibis (beatsRef a))))))%float
     = true.
Proof.
  intros H; cbn zeta.
  assert (Hs : StronglySorted Z.le (beatsRef (ui (run start es)))).
  { apply run_keeps_beats_sorted. cbn [start ui initial beatsRef List.app].
    apply Sorted_StronglySorted; [exact Z.le_trans|exact H]. }
  pose proof (sorted_ibis_nonneg Hs) as Hi.
  split; [now apply StronglySorted_Sorted|]. split; [exact Hi|].
  set (ds := slice_last 8 (ibis (beatsRef (ui (run start es))))).
  destruct (map Number.of_Z ds) as [|x l] eqn:E; [reflexivity|].
  rewrite computeStats_spec by discriminate. cbn [fst]. apply nonneg_leb.
  rewrite <- E. apply mean_nonneg.
  - rewrite E. discriminate.
  - rewrite length_map. unfold ds. rewrite slice_last_length. lia.
  - apply Forall_map. unfold ds, slice_last. apply Forall_skipn.
    revert Hi. apply Forall_impl. exact of_Z_nonneg.
Qed.

Lemma beats_in_time_order_witness :
  Sorted Z.le (beatsRef (ui (run start [Opened; Value 1000 "0.1,0.2,72";
                                        Value 1800 "0.1,0.2"; Value 2600 "0.1,0.2,72"]))).
Proof.
  refine (proj1 (@beats_in_time_order _ _)).
  repeat constructor; cbn; lia.
Defined.
End BeatOrder.

(** ** Buttons, keywords and alignment *)

Section PageFacts.
Import App Stores Parser Session Widgets Page.

(** X14. A completion line received while calibrating with monitoring off
    leaves the page offering the Start Monitoring button; pressing it
    reaches Monitoring and removes the button. *)
Theorem start_after_completion (a : app) (m : bool) (now : Z) (value : string) :
  Calibrating a -> monitoringActive a = false -> completion_line value ->
  let p := read_value m now a value in
  start_button p = true
  /\ status_line p = [("⏸ Click " ++ String (Ascii.ascii_of_nat 34) "Start Monitoring"
                       ++ String (Ascii.ascii_of_nat 34) EmptyString)%string]
  /\ Monitoring (startMonitoring p)
  /\ start_button (startMonitoring p) = false.
Proof.
  intros [Hp Hc] Hm (Hne & Hs & Hcomp); cbn zeta.
  pose proof (read_value_flags m now a value) as H.
  destruct value as [|c v]; [contradiction|]. rewrite Hs, Hcomp, Hp, Hm in H.
  remember (read_value m now a (String c v)) as p eqn:Ep. clear Ep.
  unfold flags in H. injection H as Fp Fc Fm.
  unfold start_button, status_line, Monitoring, startMonitoring.
  cbn [port calibrating monitoringActive setMonitoringActive]. rewrite Fp, Fc, Fm.
  repeat split.
Qed.

Lemma start_after_completion_witness :
  Monitoring (startMonitoring
                (read_value false 1000 (connect_opened initial) "Calibration Complete")).
Proof.
  assert (Hc : completion_line "Calibration Complete") by (repeat split; discriminate).
  exact (proj1 (proj2 (proj2 (@start_after_completion (connect_opened initial) false 1000%Z
                                "Calibration Complete" (conj eq_refl eq_refl) eq_refl Hc)))).
Defined.

Lemma prefix_iff (p s : string) : String.prefix p s = true <-> exists b, s = (p ++ b)%string.
Proof.
  revert s. induction p as [|c p IH]; intros s.
  - destruct s; cbn; split; try reflexivity; intros _; eexists; reflexivity.
  - destruct s as [|d s]; cbn [String.prefix append].
    + split; [discriminate|]. intros [b H]. discriminate.
    + destruct (Ascii.ascii_dec c d) as [->|Hcd].
      * rewrite IH. split; intros [b H]; exists b; [now rewrite H|now injection H].
      * split; [discriminate|]. intros [b H]. injection H as H1 _. congruence.
Qed.

Lemma includes_iff (s sub : string) :
  JS.includes s sub = true <-> exists a b, s = (a ++ sub ++ b)%string.
Proof.
  induction s as [|c s IH]; cbn [JS.includes].
  - rewrite orb_false_r, prefix_iff. split.
    + intros [b H]. exists EmptyString, b. exact H.
    + intros (a & b & H). destruct a; [now exists b|discriminate].
  - rewrite orb_true_iff, prefix_iff, IH. split.
    + intros [[b H]|(a & b & H)].
      * exists EmptyString, b. exact H.
      * exists (String c a), b. cbn [append]. now rewrite H.
    + intros (a & b & H). destruct a as [|d a].
      * left. now exists b.
      * right. cbn [append] in H. injection H as _ H. now exists a, b.
Qed.

(** X3. A line is taken as a status line exactly when one of Calibration,
    Starting, Baseline, Gain occurs somewhere in it, with that spelling. *)
Theorem status_line_classification (line : string) :
  is_status line = true
  <-> exists kw a b, In kw status_keywords /\ line = (a ++ kw ++ b)%string.
Proof.
  unfold is_status, status_keywords. rewrite !orb_true_iff, !includes_iff. split.
  - intros [[[(a & b & H)|(a & b & H)]|(a & b & H)]|(a & b & H)];
      eexists _, a, b; (split; [|exact H]); cbn; tauto.
  - intros (kw & a & b & Hin & H). cbn in Hin.
    destruct Hin as [<-|[<-|[<-|[<-|[]]]]]; [left; left; left|left; left; right|left; right|right];
      now exists a, b.
Qed.

Lemma combine_skipn {A B} (n : nat) : forall (l1 : list A) (l2 : list B),
  combine (skipn n l1) (skipn n l2) = skipn n (combine l1 l2).
Proof.
  induction n as [|n IH]; intros l1 l2; [reflexivity|].
  destruct l1 as [|x l1], l2 as [|y l2]; cbn [skipn combine]; try reflexivity.
  - now destruct (skipn n l1).
  - apply IH.
Qed.

Lemma combine_app {A B} (l1 : list A) : forall (l2 : list B) l1' l2',
  List.length l1 = List.length l2 ->
  combine (l1 ++ l1') (l2 ++ l2') = combine l1 l2 ++ combine l1' l2'.
Proof.
  induction l1 as [|x l1 IH]; intros [|y l2] l1' l2' H; cbn in H; try discriminate.
  - reflexivity.
  - cbn [List.app combine]. f_equal. apply IH. lia.
Qed.

Lemma combine_leads (ps : list push) :
  combine (leadI_of ps) (leadII_of ps) = pairs_of ps
  /\ List.length (leadI_of ps) = List.length (leadII_of ps).
Proof.
  induction ps as [|p ps [IH1 IH2]]; [split; reflexivity|].
  unfold leadI_of, leadII_of, pairs_of in *. destruct p; cbn [flat_map List.app].
  - cbn [combine List.length]. split; [now f_equal|now f_equal].
  - now split.
  - now split.
Qed.

(** X4. The two sample arrays stay aligned: paired index by index they hold
    the last 1500 of the (Lead I, Lead II) pairs stored, each pair from one
    line, and they are equally long. *)
Theorem leads_stay_aligned (a : app) (ps : list push) :
  within_capacity a ->
  let a' := fold_left store ps a in
  combine (samples2Ref a') (samplesRef a')
  = slice_last MAX_SAMPLES (combine (samples2Ref a) (samplesRef a) ++ pairs_of ps)
  /\ List.length (samples2Ref a') = List.length (samplesRef a').
Proof.
  intros Hw; cbn zeta.
  destruct (fold_store ps Hw) as ((_ & Hl & _) & H1 & H2 & _).
  split; [|exact Hl]. rewrite H1, H2.
  destruct Hw as (_ & Heq & _). destruct (combine_leads ps) as [Hc Hlen].
  unfold slice_last.
  assert (L1 : List.length (samples2Ref a ++ leadI_of ps)
               = List.length (samplesRef a ++ leadII_of ps))
    by (rewrite !length_app; lia).
  assert (L2 : List.length (combine (samples2Ref a) (samplesRef a) ++ pairs_of ps)
               = List.length (samplesRef a ++ leadII_of ps)).
  { rewrite <- Hc, !length_app, !length_combine. lia. }
  rewrite L1, L2, combine_skipn, combine_app by exact Heq.
  now rewrite Hc.
Qed.

Lemma leads_stay_aligned_witness :
  let ps := [Samples 1 2; Beat 1000; Samples 3 4] in
  combine (samples2Ref (fold_left store ps initial)) (samplesRef (fold_left store ps initial))
  = [(1, 2); (3, 4)]%float.
Proof.
  intros ps.
  assert (Hi : within_capacity initial) by (apply all_empty_within; repeat split).
  rewrite (proj1 (@leads_stay_aligned initial ps Hi)). reflexivity.
Defined.
End PageFacts.

(** ** Canvas and gauge *)

Section Drawing.
Import App Stores Widgets Canvas IEEE.

Lemma waveform_length (view : list float) : forall i n w h,
  List.length (waveform i n w h view) = List.length view.
Proof.
  induction view as [|v view IH]; intros i n w h; [reflexivity|].
  cbn [waveform List.length]. now rewrite IH.
Qed.

Lemma waveform_nth (view : list float) : forall i n w h k,
  (k < List.length view)%nat ->
  nth k (waveform i n w h view) (0, 0)%float
  = (point_x (i + k) n w, point_y h (nth k view 0%float)).
Proof.
  induction view as [|v view IH]; intros i n w h k Hk; [cbn [List.length] in Hk; lia|].
  destruct k as [|k]; cbn [waveform nth].
  - now rewrite Nat.add_0_r.
  - rewrite IH by (cbn [List.length] in Hk; lia).
    replace (S i + k)%nat with (i + S k)%nat by lia. reflexivity.
Qed.

Lemma points_path (pts : list (float * float)) : points (path pts) = pts.
Proof.
  destruct pts as [|[x y] rest]; [reflexivity|].
  unfold path. cbn [points flat_map fst snd List.app]. f_equal.
  induction rest as [|[x' y'] rest IH]; [reflexivity|].
  cbn [map flat_map fst snd List.app]. f_equal. exact IH.
Qed.

Lemma points_app (c1 c2 : list cmd) : points (c1 ++ c2) = points c1 ++ points c2.
Proof. unfold points. apply flat_map_app. Qed.

(** What a comparison of doubles that evaluates to true says of their
    values. *)
Lemma ltb_true (x y : float) : (x <? y)%float = true -> (V x < V y)%R.
Proof. intros H. destruct (ltb_nonnan _ _ H) as [Nx Ny]. now apply (ltb_V _ _ Nx Ny). Qed.

Lemma leb_true (x y : float) : (x <=? y)%float = true -> (V x <= V y)%R.
Proof. intros H. destruct (leb_nonnan _ _ H) as [Nx Ny]. now apply (leb_V _ _ Nx Ny). Qed.

Lemma nan_eq (x : float) : is_nan x = true -> x = nan.
Proof. intros H. apply is_nan_spec in H. apply Prim2SF_inj. now rewrite H. Qed.

Lemma opp_V (x : float) : V (- x) = (- V x)%R /\ is_nan (- x) = is_nan x.
Proof.
  assert (Hn : forall y, is_nan y = match Prim2SF y with S754_nan => true | _ => false end).
  { intros y. destruct (is_nan y) eqn:E.
    - apply is_nan_spec in E. now rewrite E.
    - apply is_nan_false in E. destruct (Prim2SF y); congruence. }
  rewrite !Hn. unfold V. rewrite FloatAxioms.opp_spec.
  destruct (Prim2SF x) as [s|s| |s m e]; cbn [SFopp SF2R]; split; try reflexivity;
    try (destruct s; cbn [negb]; lra). lra.
Qed.

(** The x coordinate of point [k] of [n]: the fraction [k / (n - 1)] of the
    width, in doubles; it is within the width, 0 for the first point and
    the width for the last. *)
Lemma point_x_spec (w : float) (n k : nat) :
  (2 <= n <= 1500)%nat -> (k < n)%nat -> (0 <=? w)%float = true -> is_finite w = true ->
  let q := (Number.of_nat k / (Number.of_nat n - 1))%float in
  let x := point_x k n w in
  R64 (IZR (Z.of_nat k) / IZR (Z.of_nat n - 1)) (V q) /\ R64 (V q * V w) (V x)
  /\ (0 <=? x)%float = true /\ (x <=? w)%float = true
  /\ (k = 0%nat -> V x = 0%R) /\ (k = (n - 1)%nat -> V x = V w).
Proof.
  intros Hn Hk Hw Fw; cbn zeta. unfold point_x.
  apply leb_true in Hw. rewrite V_0 in Hw.
  destruct (of_Z_exact (Z.of_nat k)) as [Vk Fk].
  { assert (2 ^ 11 <= 2 ^ 53)%Z by (apply Z.pow_le_mono_r; lia).
    assert (2 ^ 11 = 2048)%Z by reflexivity. lia. }
  destruct (of_Z_exact (Z.of_nat n)) as [Vn Fn].
  { assert (2 ^ 11 <= 2 ^ 53)%Z by (apply Z.pow_le_mono_r; lia).
    assert (2 ^ 11 = 2048)%Z by reflexivity. lia. }
  destruct (V_int 1 1 eq_refl) as [V1 F1]; [vm_compute; discriminate|].
  fold (Number.of_nat k) in Vk, Fk. fold (Number.of_nat n) in Vn, Fn.
  destruct (sub_V (Number.of_nat n) 1 Fn F1) as [Hd Nd]. rewrite Vn, V1 in Hd.
  assert (Vd : V (Number.of_nat n - 1)%float = IZR (Z.of_nat n - 1)).
  { apply (R64_unique _ _ _ Hd). rewrite <- minus_IZR. apply R64_int.
    assert (2 ^ 11 <= 2 ^ 53)%Z by (apply Z.pow_le_mono_r; lia).
    assert (2 ^ 11 = 2048)%Z by reflexivity. lia. }
  assert (Pd : (1 <= IZR (Z.of_nat n - 1))%R) by (apply (IZR_le 1); lia).
  assert (Fd : is_finite (Number.of_nat n - 1)%float = true).
  { apply (between_finite _ 1 1500 Nd eq_refl eq_refl). rewrite Vd.
    split; [exact Pd|apply (IZR_le _ 1500); lia]. }
  destruct (div_V (Number.of_nat k) (Number.of_nat n - 1)%float Fk Fd) as [Hq Nq].
  { rewrite Vd. apply Rgt_not_eq. lra. }
  rewrite Vk, Vd in Hq.
  assert (Bk : (0 <= IZR (Z.of_nat k) <= IZR (Z.of_nat n - 1))%R).
  { split; [apply (IZR_le 0)|apply IZR_le]; lia. }
  assert (Bq : (0 <= IZR (Z.of_nat k) / IZR (Z.of_nat n - 1) <= 1)%R).
  { split.
    - apply Rmult_le_pos; [lra|]. left. apply Rinv_0_lt_compat. lra.
    - apply Rmult_le_reg_r with (IZR (Z.of_nat n - 1)); [lra|].
      unfold Rdiv. rewrite Rmult_assoc, Rinv_l by (apply Rgt_not_eq; lra). lra. }
  assert (R1 : R64 1 1) by (apply (R64_int 1); vm_compute; discriminate).
  assert (Vq : (0 <= V (Number.of_nat k / (Number.of_nat n - 1))%float <= 1)%R).
  { split.
    - apply (R64_mono 0 _ _ _ (proj1 Bq) R64_0 Hq).
    - apply (R64_mono _ 1 _ _ (proj2 Bq) Hq R1). }
  assert (Fq : is_finite (Number.of_nat k / (Number.of_nat n - 1))%float = true).
  { apply (between_finite _ 0 1 Nq eq_refl eq_refl). exact Vq. }
  destruct (mul_V _ w Fq Fw) as [Hx Nx].
  set (q := (Number.of_nat k / (Number.of_nat n - 1))%float) in *.
  assert (Bx : (0 <= V q * V w <= V w)%R).
  { split; [apply Rmult_le_pos; lra|].
    replace (V w) with (1 * V w)%R at 2 by lra. apply Rmult_le_compat_r; lra. }
  assert (Vx : (0 <= V (q * w)%float <= V w)%R).
  { split.
    - apply (R64_mono 0 _ _ _ (proj1 Bx) R64_0 Hx).
    - apply (R64_mono _ (V w) _ _ (proj2 Bx) Hx (R64_V w Fw)). }
  split; [exact Hq|]. split; [exact Hx|].
  split; [apply (leb_V 0 _ eq_refl Nx); rewrite V_0; lra|].
  split; [apply (leb_V _ _ Nx (finite_not_nan _ Fw)); lra|].
  split.
  - intros ->. cbn [Z.of_nat] in Hq.
    assert (Hq0 : V q = 0%R).
    { apply (R64_unique (0 / IZR (Z.of_nat n - 1)) _ _ Hq).
      unfold Rdiv. rewrite Rmult_0_l. exact R64_0. }
    rewrite Hq0, Rmult_0_l in Hx. exact (R64_unique _ _ _ Hx R64_0).
  - intros ->.
    assert (Hq1 : V q = 1%R).
    { apply (R64_unique _ _ _ Hq).
      replace (Z.of_nat (n - 1)) with (Z.of_nat n - 1)%Z by lia.
      unfold Rdiv. rewrite Rinv_r by (apply Rgt_not_eq; lra). exact R1. }
    rewrite Hq1, Rmult_1_l in Hx. exact (R64_unique _ _ _ Hx (R64_V w Fw)).
Qed.

Lemma posfin_computed (c : float) (m : positive) (e : Z) :
  Prim2SF c = S754_finite false m e -> posfin c.
Proof.
  intros H. destruct (V_finite c false m e H) as [Hv Hf].
  split; [exact Hf|]. rewrite Hv. cbn [cond_Zopp]. apply SF2R_finite_pos.
Qed.

Lemma point_y_antitone : antitone (point_y 320).
Proof.
  unfold point_y.
  apply (antitone_comp
           (fun v => (v / (2 - -2) * 320 * Number.of_ratio 85 100)%float)
           (fun z => (320 / 2 - z)%float)).
  - apply (monotone_comp (fun v => (v / (2 - -2) * 320)%float)
             (fun z => (z * Number.of_ratio 85 100)%float)).
    + apply (monotone_comp (fun v => (v / (2 - -2))%float) (fun z => (z * 320)%float)).
      * apply divc_monotone. exact (@posfin_computed (2 - -2)%float 4503599627370496 (-50) eq_refl).
      * apply mulc_monotone. exact (@posfin_computed 320 5629499534213120 (-44) eq_refl).
    + apply mulc_monotone.
      exact (@posfin_computed (Number.of_ratio 85 100) 7656119366529843 (-53) eq_refl).
  - apply subc_antitone. reflexivity.
Qed.

(** A sample is drawn within the height of the canvas exactly when it lies
    between the doubles -2.3529411764705888 and 2.3529411764705883, the
    second being the double nearest to 40/17 and the first the negation of
    the double after it. *)
Lemma point_y_range (v : float) :
  let hi := Number.of_ratio 40 17 in
  (0 <=? point_y 320 v)%float && (point_y 320 v <=? 320)%float = true
  <-> (- next_up hi <=? v)%float && (v <=? hi)%float = true.
Proof.
  cbn zeta. set (hi := Number.of_ratio 40 17). set (lo := (- next_up hi)%float).
  pose proof point_y_antitone as A.
  assert (Nhi : is_nan hi = false) by reflexivity.
  assert (Nlo : is_nan lo = false) by reflexivity.
  assert (V320 : V 320 = 320%R) by (apply (V_int 320 320 eq_refl); vm_compute; discriminate).
  rewrite !andb_true_iff. split.
  - intros [H0 H1].
    destruct (is_nan v) eqn:Nv.
    { apply nan_eq in Nv. subst v. discriminate H0. }
    apply leb_true in H0, H1. rewrite V_0 in H0.
    split.
    + apply (leb_V _ _ Nlo Nv).
      destruct (Rle_lt_dec (V lo) (V v)) as [G|G]; [exact G|exfalso].
      destruct (opp_V v) as [Vo No]. rewrite Nv in No.
      destruct (opp_V (next_up hi)) as [Vl _]. fold lo in Vl.
      assert (Glt : (V (next_up hi) < V (- v)%float)%R) by (rewrite Vo; lra).
      assert (M : (2 ^ 52 <= Zpos 5298352502788820)%Z) by (vm_compute; discriminate).
      pose proof (float_gap (next_up hi) (- v)%float 5298352502788820 (-51) eq_refl
                    M No Glt) as Hgap.
      set (lo2 := (- next_up (next_up hi))%float).
      assert (Vlo2 : V lo2 = (- (IZR (Zpos 5298352502788820 + 1) * bpow (-51)))%R).
      { unfold lo2. destruct (opp_V (next_up (next_up hi))) as [-> _]. reflexivity. }
      assert (Hv : (V v <= V lo2)%R) by (rewrite Vlo2; lra).
      destruct (A v lo2 Nv eq_refl Hv) as (Hy & _ & _).
      assert (Hbig : (V 320 < V (point_y 320 lo2))%R) by (apply ltb_true; reflexivity).
      lra.
    + apply (leb_V _ _ Nv Nhi).
      destruct (Rle_lt_dec (V v) (V hi)) as [G|G]; [exact G|exfalso].
      assert (M : (2 ^ 52 <= Zpos 5298352502788819)%Z) by (vm_compute; discriminate).
      pose proof (float_gap hi v 5298352502788819 (-51) eq_refl M Nv G) as Hgap.
      assert (Vhi2 : V (next_up hi) = (IZR (Zpos 5298352502788819 + 1) * bpow (-51))%R).
      { exact (proj1 (V_finite (next_up hi) false 5298352502788820 (-51) eq_refl)). }
      assert (Hv : (V (next_up hi) <= V v)%R) by (rewrite Vhi2; lra).
      destruct (A (next_up hi) v eq_refl Nv Hv) as (Hy & _ & _).
      assert (Hneg : (V (point_y 320 (next_up hi)) < V 0)%R) by (apply ltb_true; reflexivity).
      rewrite V_0 in Hneg. lra.
  - intros [H0 H1].
    destruct (leb_nonnan _ _ H0) as [_ Nv].
    apply leb_true in H0, H1.
    destruct (A v hi Nv Nhi H1) as (Hy1 & Ny & _).
    destruct (A lo v Nlo Nv H0) as (Hy2 & _ & _).
    assert (Yhi : V (point_y 320 hi) = 0%R)
      by (replace (point_y 320 hi) with 0%float by reflexivity; apply V_0).
    assert (Ylo : (V (point_y 320 lo) <= V 320)%R) by (apply leb_true; reflexivity).
    split.
    + apply (leb_V 0 _ eq_refl Ny). rewrite V_0. lra.
    + apply (leb_V _ 320 Ny eq_refl). lra.
Qed.

(** X16. With at least two samples and a canvas of finite width w that is
    not negative, the trace is drawn after the background with one point
    per sample of the view, the whole buffer when it is within capacity;
    the first point is at x = 0, the last at x = w, point k at the fraction
    k/(n-1) of the width computed in doubles, and within [0,w]; and a point
    lies within the height of 320 exactly when its sample lies between
    -2.3529411764705888 and 2.3529411764705883, the doubles next to
    -40/17 and 40/17. *)
Theorem trace_spans_canvas (w : float) (calibrating : bool) (samples : list float) :
  (2 <= List.length samples)%nat -> (0 <=? w)%float = true -> is_finite w = true ->
  let view := slice_last MAX_SAMPLES samples in
  let n := List.length view in
  let trace := waveform 0 n w 320 view in
  points (drawCanvas (Some w) calibrating samples)
  = points (drawCanvas (Some w) calibrating []) ++ trace
  /\ List.length trace = n
  /\ ((List.length samples <= MAX_SAMPLES)%nat -> view = samples)
  /\ V (fst (nth 0 trace (0, 0)%float)) = 0%R
  /\ V (fst (nth (n - 1) trace (0, 0)%float)) = V w
  /\ (forall k, (k < n)%nat ->
        let x := fst (nth k trace (0, 0)%float) in
        let y := snd (nth k trace (0, 0)%float) in
        let v := nth k view 0%float in
        x = (Number.of_nat k / (Number.of_nat n - 1) * w)%float
        /\ R64 (IZR (Z.of_nat k) / IZR (Z.of_nat n - 1))
               (V (Number.of_nat k / (Number.of_nat n - 1))%float)
        /\ (0 <=? x)%float = true /\ (x <=? w)%float = true
        /\ y = (320 / 2 - v / (2 - -2) * 320 * Number.of_ratio 85 100)%float
        /\ ((0 <=? y)%float && (y <=? 320)%float = true
            <-> (- next_up (Number.of_ratio 40 17) <=? v)%float
                && (v <=? Number.of_ratio 40 17)%float = true)).
Proof.
  intros Hlen Hw Fw; cbn zeta.
  set (view := slice_last MAX_SAMPLES samples).
  assert (Hn : (2 <= List.length view <= 1500)%nat).
  { unfold view. rewrite slice_last_length. unfold MAX_SAMPLES. lia. }
  split.
  { unfold drawCanvas. fold view.
    replace (List.length samples <? 2)%nat with false by (symmetry; apply Nat.ltb_ge; lia).
    change (List.length (@nil float) <? 2)%nat with true. cbv iota.
    rewrite !points_app, points_path.
    destruct calibrating; cbn [points flat_map List.app];
      rewrite ?app_nil_r, <- ?app_assoc; reflexivity. }
  split; [now rewrite waveform_length|].
  split; [intros H; unfold view; now apply slice_last_short|].
  assert (Hnth : forall k, (k < List.length view)%nat ->
            nth k (waveform 0 (List.length view) w 320 view) (0, 0)%float
            = (point_x k (List.length view) w, point_y 320 (nth k view 0%float))).
  { intros k Hk. now rewrite waveform_nth. }
  split.
  { rewrite Hnth by lia. cbn [fst].
    destruct (@point_x_spec w (List.length view) 0 Hn) as (_ & _ & _ & _ & H0 & _);
      try assumption; [lia|]. now apply H0. }
  split.
  { rewrite Hnth by lia. cbn [fst].
    destruct (@point_x_spec w (List.length view) (List.length view - 1) Hn)
      as (_ & _ & _ & _ & _ & H1); try assumption; [lia|]. now apply H1. }
  intros k Hk. rewrite (Hnth k Hk). cbn [fst snd].
  destruct (@point_x_spec w (List.length view) k Hn Hk Hw Fw) as (Hq & _ & X0 & X1 & _).
  split; [reflexivity|]. split; [exact Hq|]. split; [exact X0|]. split; [exact X1|].
  split; [reflexivity|]. apply point_y_range.
Qed.

Lemma trace_spans_canvas_witness :
  let samples := [Number.of_ratio 1 10; (-2)%float; 2%float] in
  List.length (waveform 0 3 800 320 samples) = 3%nat
  /\ V (fst (nth 2 (waveform 0 3 800 320 samples) (0, 0)%float)) = V 800.
Proof.
  intros samples.
  assert (H2 : (2 <= List.length samples)%nat) by (cbn; lia).
  destruct (@trace_spans_canvas 800 false samples H2 eq_refl eq_refl)
    as (_ & Hl & _ & _ & Hx & _).
  split; [exact Hl|exact Hx].
Defined.

Lemma assess_points (hr irr : float) :
  brady (fst (assess hr irr)) = (if hr <? 50 then 40 else if hr <? 60 then 20 else 0)%float
  /\ tachy (fst (assess hr irr)) = (if 120 <? hr then 40 else if 100 <? hr then 20 else 0)%float.
Proof.
  unfold assess.
  destruct (70 <=? _)%float; [|destruct (35 <=? _)%float]; split; reflexivity.
Qed.

(** The value the gauge works with, [value || 60], is a number. *)
Lemma gauge_clamped (value : option float) :
  let g := Gauge value in
  let v0 := match value with
            | Some v => if Number.truthy v then v else 60%float
            | None => 60%float
            end in
  is_nan v0 = false
  /\ V (clamped g) = Rmax 30 (Rmin 180 (V v0)) /\ is_finite (clamped g) = true.
Proof.
  cbn zeta.
  set (v0 := match value with
             | Some v => if Number.truthy v then v else 60%float
             | None => 60%float
             end).
  assert (N0 : is_nan v0 = false).
  { unfold v0. destruct value as [v|]; [|reflexivity].
    destruct (Number.truthy v) eqn:T; [|reflexivity].
    unfold Number.truthy in T. destruct (is_nan v); [discriminate|reflexivity]. }
  destruct (V_int 30 30 eq_refl) as [V30 F30]; [vm_compute; discriminate|].
  destruct (V_int 180 180 eq_refl) as [V180 F180]; [vm_compute; discriminate|].
  destruct (min_V 180 v0 (finite_not_nan _ F180) N0) as (Vm & Nm & _).
  destruct (max_V 30 _ (finite_not_nan _ F30) Nm) as (Vx & Nx & _).
  rewrite Vm, V30, V180 in Vx.
  split; [exact N0|]. unfold Gauge. cbn [clamped]. fold v0.
  split; [exact Vx|].
  apply (between_finite _ 30 180 Nx eq_refl eq_refl). rewrite Vx. split.
  - apply Rmax_l.
  - apply Rmax_lub; [lra|apply Rmin_l].
Qed.

(** X17. The gauge clamps to [30,180], fills a fraction in [0,1] of the
    circle, and draws the arc only for a value that is a number other than
    zero. For a BPM above zero it shows that BPM unclamped; the colour is
    green below 60, yellow from 60 and red from 100, so it is green exactly
    when the scorer gives bradycardia points and red whenever it gives
    tachycardia points. In a reachable state the gauge shows the BPM
    exactly when monitoring is on and a port is held. *)
Theorem gauge_readout (value : option float) (irr : float) :
  let g := Gauge value in
  ((30 <=? clamped g)%float = true /\ (clamped g <=? 180)%float = true)
  /\ ((0 <=? pct g)%float = true /\ (pct g <=? 1)%float = true)
  /\ ((0 <=? fst (dasharray g))%float = true
      /\ (fst (dasharray g) <=? snd (dasharray g))%float = true)
  /\ (arc g = true
      <-> exists b, value = Some b /\ is_nan b = false /\ (b =? 0)%float = false)
  /\ (forall b, value = Some b -> (0 <? b)%float = true ->
        text g = Some b
        /\ (colour g = "#4ade80"%string <-> (b <? 60)%float = true)
        /\ (colour g = "#facc15"%string
            <-> (b <? 60)%float = false /\ (b <? 100)%float = true)
        /\ (colour g = "#ef4444"%string <-> (b <? 100)%float = false)
        /\ ((0 <? brady (fst (assess b irr)))%float = true <-> colour g = "#4ade80"%string)
        /\ ((0 <? tachy (fst (assess b irr)))%float = true -> colour g = "#ef4444"%string))
  /\ (forall es, text (Gauge (gauge_value (ui (run start es))))
                 = gauge_value (ui (run start es))).
Proof.
  cbn zeta.
  destruct (gauge_clamped value) as (N0 & Vc & Fc). cbn zeta in N0, Vc, Fc.
  destruct (V_int 30 30 eq_refl) as [V30 F30]; [vm_compute; discriminate|].
  destruct (V_int 180 180 eq_refl) as [V180 F180]; [vm_compute; discriminate|].
  destruct (V_int 60 60 eq_refl) as [V60 F60]; [vm_compute; discriminate|].
  destruct (V_int 100 100 eq_refl) as [V100 F100]; [vm_compute; discriminate|].
  destruct (V_int 1 1 eq_refl) as [V1 F1]; [vm_compute; discriminate|].
  assert (Bc : (30 <= V (clamped (Gauge value)) <= 180)%R).
  { rewrite Vc. split; [apply Rmax_l|apply Rmax_lub; [lra|apply Rmin_l]]. }
  pose proof (finite_not_nan _ Fc) as Nc.
  split.
  { split.
    - apply (leb_V _ _ (finite_not_nan _ F30) Nc). rewrite V30. lra.
    - apply (leb_V _ _ Nc (finite_not_nan _ F180)). rewrite V180. lra. }
  (* the fraction *)
  assert (Hpct : pct (Gauge value) = ((clamped (Gauge value) - 30) / (180 - 30))%float)
    by reflexivity.
  destruct (sub_V (clamped (Gauge value)) 30 Fc F30) as [Hs Ns]. rewrite V30 in Hs.
  assert (Bs : (0 <= V (clamped (Gauge value) - 30)%float <= 150)%R).
  { split.
    - apply (R64_mono 0 (V (clamped (Gauge value)) - 30) _ _); [lra|exact R64_0|exact Hs].
    - apply (R64_mono (V (clamped (Gauge value)) - 30) 150 _ _); [lra|exact Hs|].
      apply (R64_int 150). vm_compute. discriminate. }
  assert (Fs : is_finite (clamped (Gauge value) - 30)%float = true).
  { apply (between_finite _ 0 150 Ns eq_refl eq_refl). exact Bs. }
  destruct (V_int (180 - 30)%float 150 eq_refl) as [V150 F150]; [vm_compute; discriminate|].
  destruct (div_V _ (180 - 30)%float Fs F150) as [Hd Nd];
    [rewrite V150; apply Rgt_not_eq; lra|].
  rewrite V150 in Hd. rewrite <- Hpct in Hd, Nd.
  assert (Bp : (0 <= V (pct (Gauge value)) <= 1)%R).
  { split.
    - apply (R64_mono 0 (V (clamped (Gauge value) - 30)%float / 150) _ _);
        [lra|exact R64_0|exact Hd].
    - apply (R64_mono (V (clamped (Gauge value) - 30)%float / 150) 1 _ _);
        [lra|exact Hd|]. apply (R64_int 1). vm_compute. discriminate. }
  assert (Fp : is_finite (pct (Gauge value)) = true).
  { apply (between_finite _ 0 1 Nd eq_refl eq_refl). exact Bp. }
  split.
  { split.
    - apply (leb_V 0 _ eq_refl Nd). rewrite V_0. lra.
    - apply (leb_V _ 1 Nd eq_refl). rewrite V1. lra. }
  split.
  { assert (Hda : dasharray (Gauge value)
                  = ((2 * Number.PI * 85) * pct (Gauge value), 2 * Number.PI * 85)%float)
      by reflexivity.
    rewrite Hda. cbn [fst snd].
    set (C := (2 * Number.PI * 85)%float).
    assert (PC : posfin C) by exact (@posfin_computed C 4697736007206386 (-43) eq_refl).
    destruct PC as [FC PC].
    destruct (mul_V C _ FC Fp) as [Hm Nm].
    assert (Bm : (0 <= V C * V (pct (Gauge value)) <= V C)%R).
    { split; [apply Rmult_le_pos; lra|].
      replace (V C) with (V C * 1)%R at 2 by lra. apply Rmult_le_compat_l; lra. }
    split.
    - apply (leb_V 0 _ eq_refl Nm). rewrite V_0.
      apply (R64_mono 0 _ _ _ (proj1 Bm) R64_0 Hm).
    - apply (leb_V _ _ Nm (finite_not_nan _ FC)).
      apply (R64_mono _ (V C) _ _ (proj2 Bm) Hm (R64_V C FC)). }
  split.
  { unfold Gauge; cbn [arc]. destruct value as [b|].
    - unfold Number.truthy, is_zero. change PrimFloat.zero with 0%float.
      destruct (is_nan b) eqn:Nb, (b =? 0)%float eqn:Zb; cbn [orb negb]; split;
        try discriminate;
        try (intros (b' & [= <-] & Hn & Hz); congruence).
      intros _. exists b. repeat split; assumption.
    - split; [discriminate|]. intros (b & H & _). discriminate. }
  split.
  { intros b -> Hb. destruct (assess_points b irr) as [-> ->].
    pose proof (positive_truthy Hb) as Tb.
    destruct (gauge_clamped (Some b)) as (_ & Vb & Fb). cbn zeta in Vb, Fb.
    rewrite Tb in Vb.
    destruct (ltb_nonnan _ _ Hb) as [_ Nb].
    pose proof (ltb_true Hb) as Pb. rewrite V_0 in Pb.
    set (g := Gauge (Some b)) in *.
    assert (Htext : text g = Some b) by (unfold g, Gauge; cbn [text]; now rewrite Tb).
    assert (Hcol : colour g = if (clamped g <? 60)%float then "#4ade80"%string
                              else if (clamped g <? 100)%float then "#facc15"%string
                                   else "#ef4444"%string) by reflexivity.
    pose proof (finite_not_nan _ Fb) as Ng.
    assert (C60 : (clamped g <? 60)%float = (b <? 60)%float).
    { destruct (b <? 60)%float eqn:E.
      - apply (ltb_V _ _ Ng (finite_not_nan _ F60)). rewrite Vb, V60.
        apply (ltb_V _ _ Nb (finite_not_nan _ F60)) in E. rewrite V60 in E.
        apply Rmax_lub_lt; [lra|]. apply Rle_lt_trans with (V b); [apply Rmin_r|exact E].
      - destruct (clamped g <? 60)%float eqn:E'; [|reflexivity].
        apply (ltb_V _ _ Ng (finite_not_nan _ F60)) in E'. rewrite Vb, V60 in E'.
        assert (E2 : (b <? 60)%float = true).
        { apply (ltb_V _ _ Nb (finite_not_nan _ F60)). rewrite V60.
          pose proof (Rmax_r 30 (Rmin 180 (V b))).
          unfold Rmin in *. destruct (Rle_dec 180 (V b)); lra. }
        congruence. }
    assert (C100 : (clamped g <? 100)%float = (b <? 100)%float).
    { destruct (b <? 100)%float eqn:E.
      - apply (ltb_V _ _ Ng (finite_not_nan _ F100)). rewrite Vb, V100.
        apply (ltb_V _ _ Nb (finite_not_nan _ F100)) in E. rewrite V100 in E.
        apply Rmax_lub_lt; [lra|]. apply Rle_lt_trans with (V b); [apply Rmin_r|exact E].
      - destruct (clamped g <? 100)%float eqn:E'; [|reflexivity].
        apply (ltb_V _ _ Ng (finite_not_nan _ F100)) in E'. rewrite Vb, V100 in E'.
        assert (E2 : (b <? 100)%float = true).
        { apply (ltb_V _ _ Nb (finite_not_nan _ F100)). rewrite V100.
          pose proof (Rmax_r 30 (Rmin 180 (V b))).
          unfold Rmin in *. destruct (Rle_dec 180 (V b)); lra. }
        congruence. }
    rewrite Hcol, C60, C100. split; [exact Htext|].
    destruct (V_int 50 50 eq_refl) as [V50 F50]; [vm_compute; discriminate|].
    destruct (V_int 120 120 eq_refl) as [V120 F120]; [vm_compute; discriminate|].
    pose proof (ltb_V b 50 Nb (finite_not_nan _ F50)) as L50.
    pose proof (ltb_V b 60 Nb (finite_not_nan _ F60)) as L60.
    pose proof (ltb_V b 100 Nb (finite_not_nan _ F100)) as L100.
    pose proof (ltb_V 120 b (finite_not_nan _ F120) Nb) as G120.
    pose proof (ltb_V 100 b (finite_not_nan _ F100) Nb) as G100.
    rewrite ?V50, ?V60, ?V100, ?V120 in *.
    assert (K : forall (c : bool) (P : Prop), (c = true <-> P) -> (c = false <-> ~ P)).
    { intros c P [K1 K2]. destruct c; split; try congruence; try tauto.
      intros _ HP. apply K2 in HP. discriminate. }
    pose proof (K _ _ L50) as L50'. pose proof (K _ _ L60) as L60'.
    pose proof (K _ _ L100) as L100'. pose proof (K _ _ G120) as G120'.
    pose proof (K _ _ G100) as G100'.
    destruct (b <? 50)%float eqn:E50, (b <? 60)%float eqn:E60, (b <? 100)%float eqn:E100,
      (120 <? b)%float eqn:E120, (100 <? b)%float eqn:E100';
      try (exfalso;
           repeat match goal with
             | H : true = true <-> _ |- _ => pose proof (proj1 H eq_refl); clear H
             | H : false = false <-> _ |- _ => pose proof (proj1 H eq_refl); clear H
             | H : _ <-> _ |- _ => clear H
             end; lra);
      repeat split; intros; try reflexivity; try discriminate; try congruence;
      repeat match goal with H : _ /\ _ |- _ => destruct H end; try discriminate. }
  intros es. unfold gauge_value.
  destruct (monitoringActive _ && port _); [|reflexivity].
  unfold Gauge; cbn [text].
  destruct (bpm (ui (run start es))) as [b|] eqn:E; [|reflexivity].
  apply reachable_bpm_positive in E. now rewrite (positive_truthy E).
Qed.

End Drawing.

(** ** A regular rhythm *)

Section Regular.
Import App Stores Rhythm Clock IEEE.

(** Lower bounds pass through the operations on numbers not below zero. *)
Lemma add_lower (x y : float) (j : Z) :
  nonneg x -> nonneg y -> (-1074 <= j <= 1023)%Z ->
  (bpow j <= V x \/ bpow j <= V y)%R -> (bpow j <= V (x + y)%float)%R.
Proof.
  intros Nx Ny Hj Hb. pose proof Nx as [_ Px]. pose proof Ny as [_ Py].
  assert (Hinf : (bpow j <= V infinity)%R) by (rewrite V_inf; apply bpow_le; lia).
  destruct (nonneg_cases x Nx) as [[Fx _]| ->]; [|rewrite add_inf_l; [exact Hinf|]].
  - destruct (nonneg_cases y Ny) as [[Fy _]| ->]; [|rewrite add_inf_r; [exact Hinf|now left]].
    destruct (add_V x y Fx Fy) as [H _].
    apply (R64_mono (bpow j) (V x + V y) _ _); [destruct Hb; lra|now apply R64_bpow|exact H].
  - destruct (nonneg_cases y Ny) as [[Fy _]| ->]; [now left|now right].
Qed.

Lemma div_lower (x c : float) (i j : Z) :
  nonneg x -> posfin c -> (V c <= bpow i)%R -> (-1074 <= j - i <= 1023)%Z ->
  (bpow j <= V x)%R -> (bpow (j - i) <= V (x / c)%float)%R.
Proof.
  intros Nx Pc Hc Hj Hb. pose proof Pc as [Fc Pc'].
  destruct (nonneg_cases x Nx) as [[Fx _]| ->].
  - destruct (div_V x c Fx Fc) as [H _]; [apply Rgt_not_eq; lra|].
    apply (R64_mono (bpow (j - i)) (V x / V c) _ _); [|now apply R64_bpow|exact H].
    unfold Z.sub. rewrite bpow_add, bpow_opp.
    pose proof (bpow_pos i). pose proof (bpow_pos j).
    apply Rle_trans with (bpow j * / V c)%R.
    + apply Rmult_le_compat_l; [lra|]. apply Rinv_le_contravar; lra.
    + apply Rmult_le_compat_r; [|exact Hb]. left. now apply Rinv_0_lt_compat.
  - rewrite (div_inf_l c Pc), V_inf. apply bpow_le. lia.
Qed.

Lemma sqrt_lower (x : float) (j : Z) :
  nonneg x -> (-1074 <= j <= 1023)%Z -> (bpow (j + j) <= V x)%R ->
  (bpow j <= V (PrimFloat.sqrt x))%R.
Proof.
  intros Nx Hj Hb. pose proof Nx as [_ Px].
  destruct (nonneg_cases x Nx) as [[Fx _]| ->].
  - destruct (sqrt_V x Fx Px) as [H _].
    apply (R64_mono (bpow j) (sqrt (V x)) _ _); [|now apply R64_bpow|exact H].
    pose proof (bpow_pos j).
    rewrite <- (sqrt_square (bpow j)) by lra.
    apply sqrt_le_1_alt. now rewrite <- bpow_add.
  - rewrite sqrt_inf, V_inf. apply bpow_le. lia.
Qed.

Lemma mul_lower (x c : float) (j : Z) :
  nonneg x -> posfin c -> (1 <= V c)%R -> (-1074 <= j <= 1023)%Z ->
  (bpow j <= V x)%R -> (bpow j <= V (x * c)%float)%R.
Proof.
  intros Nx Pc Hc Hj Hb. pose proof Pc as [Fc _].
  destruct (nonneg_cases x Nx) as [[Fx _]| ->].
  - destruct (mul_V x c Fx Fc) as [H _].
    apply (R64_mono (bpow j) (V x * V c) _ _); [|now apply R64_bpow|exact H].
    pose proof (bpow_pos j). nra.
  - rewrite (mul_inf_l c Pc), V_inf. apply bpow_le. lia.
Qed.

(** A sum of numbers not below zero is at least any one of them. *)
Lemma sum_lower (j : Z) (l : list float) : forall acc,
  (-1074 <= j <= 1023)%Z -> Forall nonneg l -> nonneg acc ->
  (bpow j <= V acc)%R \/ Exists (fun t => (bpow j <= V t)%R) l ->
  (bpow j <= V (fold_left PrimFloat.add l acc))%R.
Proof.
  induction l as [|x l IH]; intros acc Hj Hl Ha Hb.
  - destruct Hb as [Hb|Hb]; [exact Hb|inversion Hb].
  - cbn [fold_left]. inversion Hl as [|? ? Hx Hl']; subst.
    apply IH; [exact Hj|exact Hl'|now apply add_nonneg|].
    destruct Hb as [Hb|Hb].
    + left. apply add_lower; try assumption. now left.
    + inversion Hb as [? ? Hx0|? ? Hex]; subst.
      * left. apply add_lower; try assumption. now right.
      * now right.
Qed.

Lemma fold_left_map_add (f : float -> float) (l : list float) : forall acc,
  fold_left (fun a b => a + f b)%float l acc = fold_left PrimFloat.add (map f l) acc.
Proof. induction l as [|x l IH]; intros acc; [reflexivity|apply IH]. Qed.

(** The sum of small whole numbers is exact. *)
Lemma sum_exact (ds : list Z) : forall (acc : float) (z : Z),
  Forall (fun d => Z.abs d <= 2 ^ 50)%Z ds ->
  V acc = IZR z -> is_finite acc = true ->
  (Z.abs z + 2 ^ 50 * Z.of_nat (List.length ds) <= 2 ^ 53)%Z ->
  let r := fold_left PrimFloat.add (map Number.of_Z ds) acc in
  V r = IZR (fold_left Z.add ds z) /\ is_finite r = true
  /\ (Z.abs (fold_left Z.add ds z) <= Z.abs z + 2 ^ 50 * Z.of_nat (List.length ds))%Z.
Proof.
  induction ds as [|d ds IH]; intros acc z Hds Hv Hf Hb; cbn zeta.
  - cbn [map fold_left List.length Z.of_nat]. repeat split; try assumption. lia.
  - cbn [map fold_left]. inversion Hds as [|? ? Hd Hds']; subst.
    cbn [List.length] in Hb. rewrite Nat2Z.inj_succ in Hb.
    assert (P50 : (0 < 2 ^ 50)%Z) by reflexivity.
    assert (P53 : (2 ^ 50 <= 2 ^ 53)%Z) by (apply Z.pow_le_mono_r; lia).
    destruct (of_Z_exact d) as [Vd Fd]; [lia|].
    destruct (add_V acc (Number.of_Z d) Hf Fd) as [Ha Na].
    rewrite Hv, Vd, <- plus_IZR in Ha.
    assert (Bzd : (Z.abs (z + d) <= 2 ^ 53)%Z) by lia.
    assert (Va : V (acc + Number.of_Z d)%float = IZR (z + d)).
    { apply (R64_unique _ _ _ Ha). now apply R64_int. }
    assert (Fa : is_finite (acc + Number.of_Z d)%float = true).
    { apply (between_finite _ (z + d) (z + d) Na); try (apply Z.leb_le; exact Bzd).
      rewrite Va. lra. }
    destruct (IH _ (z + d)%Z Hds' Va Fa) as (H1 & H2 & H3); [lia|].
    cbn zeta in H1, H2, H3. split; [exact H1|]. split; [exact H2|].
    cbn [List.length]. rewrite Nat2Z.inj_succ. lia.
Qed.

Lemma sum_constant (d : Z) (ds : list Z) : forall z,
  Forall (fun x => x = d) ds -> fold_left Z.add ds z = (z + Z.of_nat (List.length ds) * d)%Z.
Proof.
  induction ds as [|x ds IH]; intros z H; cbn [fold_left List.length].
  - cbn. lia.
  - inversion H; subst. rewrite IH by assumption. rewrite Nat2Z.inj_succ. lia.
Qed.

(** A list of whole numbers is constant or has two different members. *)
Lemma constant_or_not (ds : list Z) :
  (exists d, Forall (fun x => x = d) ds) \/ (exists d1 d2, In d1 ds /\ In d2 ds /\ d1 <> d2).
Proof.
  destruct ds as [|d0 ds]; [left; exists 0%Z; constructor|].
  induction ds as [|d ds IH].
  - left. exists d0. repeat constructor.
  - destruct IH as [[e He]|(d1 & d2 & H1 & H2 & Hne)].
    + inversion He; subst. destruct (Z.eq_dec d e) as [->|Hd].
      * left. exists e. repeat constructor. assumption.
      * right. exists d, e. repeat split; [right; now left|now left|exact Hd].
    + right. exists d1, d2. repeat split; [| |exact Hne].
      * destruct H1 as [H1|H1]; [now left|right; now right].
      * destruct H2 as [H2|H2]; [now left|right; now right].
Qed.

(** A double of magnitude at least [2^-3] is a multiple of [2^-55]. *)
Lemma grid (x : float) :
  is_finite x = true -> (bpow (-3) <= V x)%R -> exists N : Z, V x = (IZR N * bpow (-55))%R.
Proof.
  intros Fx Hx. pose proof (bpow_pos (-3)) as P3.
  destruct (finite_SF_cases x Fx) as [[s H]|(s & m & e & H)].
  - destruct (V_zero x s H) as [Hz _]. lra.
  - destruct (V_finite x s m e H) as [Hv _].
    pose proof (Prim2SF_valid x) as Vx. rewrite H in Vx.
    apply valid_finite_inv in Vx as (_ & _ & Dm & _).
    pose proof (digits_bpow m) as [_ Hm].
    assert (Hm53 : (IZR (Zpos m) < bpow 53)%R).
    { apply Rlt_le_trans with (bpow (Zpos (digits2_pos m))); [exact Hm|].
      apply bpow_le. exact Dm. }
    destruct s; cbn [cond_Zopp] in Hv.
    { exfalso. rewrite Hv in Hx. change (Z.neg m) with (- Zpos m)%Z in Hx.
      rewrite opp_IZR in Hx. pose proof (bpow_pos e).
      assert (0 < IZR (Zpos m))%R by (apply (IZR_lt 0); lia). nra. }
    assert (He : (-56 < e)%Z).
    { apply bpow_lt_inv. pose proof (bpow_pos e).
      assert (E : bpow (-3) = (bpow 53 * bpow (-56))%R).
      { rewrite <- bpow_add. reflexivity. }
      assert (0 < IZR (Zpos m))%R by (apply (IZR_lt 0); lia).
      pose proof (bpow_pos (-56)). pose proof (bpow_pos 53).
      destruct (Rlt_le_dec (bpow (-56)) (bpow e)) as [G|G]; [exact G|exfalso].
      rewrite Hv, E in Hx.
      assert (IZR (Zpos m) * bpow e <= IZR (Zpos m) * bpow (-56))%R
        by (apply Rmult_le_compat_l; lra).
      assert (IZR (Zpos m) * bpow (-56) < bpow 53 * bpow (-56))%R
        by (apply Rmult_lt_compat_r; lra).
      lra. }
    exists (Zpos m * 2 ^ (e + 55))%Z. rewrite Hv, mult_IZR.
    rewrite <- (bpow_IZR (e + 55)) by lia. rewrite Rmult_assoc, <- bpow_add.
    f_equal. f_equal. lia.
Qed.

(** The mean of up to eight small whole intervals: the nearest double to
    the exact mean, of magnitude at most [2^50], above zero exactly when
    the sum of the intervals is, and then at least 1/8. *)
Lemma mean_of_intervals (ds : list Z) :
  ds <> [] -> (List.length ds <= 8)%nat -> Forall (fun d => Z.abs d <= 2 ^ 50)%Z ds ->
  let l := map Number.of_Z ds in
  let S := fold_left Z.add ds 0%Z in
  R64 (IZR S / IZR (Z.of_nat (List.length ds))) (V (mean l))
  /\ within (mean l) 50
  /\ ((0 <? mean l)%float = true <-> (0 < S)%Z)
  /\ ((0 < S)%Z -> (bpow (-3) <= V (mean l))%R).
Proof.
  intros Hne Hlen Hds; cbn zeta.
  set (n := List.length ds) in *.
  assert (Hn : (1 <= n <= 8)%nat).
  { unfold n. destruct ds; [congruence|cbn [List.length] in *; lia]. }
  assert (P50 : (2 ^ 50 = 1125899906842624)%Z) by reflexivity.
  assert (P53 : (2 ^ 53 = 9007199254740992)%Z) by reflexivity.
  destruct (@sum_exact ds 0%float 0%Z Hds V_0 eq_refl) as (Vs & Fs & Bs).
  { fold n. cbn [Z.abs]. lia. }
  cbn zeta in Vs, Fs, Bs. fold n in Bs. cbn [Z.abs] in Bs.
  set (S := fold_left Z.add ds 0%Z) in *.
  destruct (of_Z_exact (Z.of_nat n)) as [Vn Fn]; [lia|].
  assert (Pn : (1 <= IZR (Z.of_nat n) <= 8)%R).
  { split; [apply (IZR_le 1)|apply (IZR_le _ 8)]; lia. }
  assert (Hm : mean (map Number.of_Z ds)
               = (fold_left PrimFloat.add (map Number.of_Z ds) 0 / Number.of_Z (Z.of_nat n))%float).
  { unfold mean, Number.of_nat. now rewrite length_map. }
  destruct (div_V _ (Number.of_Z (Z.of_nat n)) Fs Fn) as [Hd Nd];
    [rewrite Vn; apply Rgt_not_eq; lra|].
  rewrite Vs, Vn in Hd. rewrite <- Hm in Hd, Nd.
  assert (BS : (- (bpow 50 * IZR (Z.of_nat n)) <= IZR S <= bpow 50 * IZR (Z.of_nat n))%R).
  { rewrite (bpow_IZR 50) by lia. rewrite <- mult_IZR, <- opp_IZR.
    split; apply IZR_le; lia. }
  assert (Bq : (- bpow 50 <= IZR S / IZR (Z.of_nat n) <= bpow 50)%R).
  { pose proof (bpow_pos 50).
    assert (Hi : (0 < / IZR (Z.of_nat n))%R) by (apply Rinv_0_lt_compat; lra).
    split.
    - apply Rmult_le_reg_r with (IZR (Z.of_nat n)); [lra|].
      unfold Rdiv. rewrite Rmult_assoc, Rinv_l by (apply Rgt_not_eq; lra). lra.
    - apply Rmult_le_reg_r with (IZR (Z.of_nat n)); [lra|].
      unfold Rdiv. rewrite Rmult_assoc, Rinv_l by (apply Rgt_not_eq; lra). lra. }
  assert (W : within (mean (map Number.of_Z ds)) 50).
  { apply within_intro; [exact Nd|lia|].
    apply (R64_within _ _ 50 Hd); [lia|exact Bq]. }
  assert (Hpos : (0 < S)%Z -> (bpow (-3) <= V (mean (map Number.of_Z ds)))%R).
  { intros HS.
    apply (R64_mono (bpow (-3)) (IZR S / IZR (Z.of_nat n)) _ _); [|apply R64_bpow; lia|exact Hd].
    assert (E : bpow (-3) = (/ 8)%R).
    { pose proof (bpow_opp 3) as Ho. cbn [Z.opp] in Ho. rewrite Ho, (bpow_IZR 3) by lia.
      reflexivity. }
    rewrite E. assert (1 <= IZR S)%R by (apply (IZR_le 1); lia).
    apply Rle_trans with (1 * / IZR (Z.of_nat n))%R.
    - rewrite Rmult_1_l. apply Rinv_le_contravar; lra.
    - apply Rmult_le_compat_r; [|assumption]. left. apply Rinv_0_lt_compat. lra. }
  split; [exact Hd|]. split; [exact W|]. split; [|exact Hpos].
  split.
  - intros H. apply ltb_true in H. rewrite V_0 in H.
    destruct (Z.lt_ge_cases 0 S) as [G|G]; [exact G|exfalso].
    assert (V (mean (map Number.of_Z ds)) <= 0)%R; [|lra].
    apply (R64_mono (IZR S / IZR (Z.of_nat n)) 0 _ _); [|exact Hd|exact R64_0].
    assert (IZR S <= 0)%R by (apply (IZR_le _ 0); lia).
    assert (0 < / IZR (Z.of_nat n))%R by (apply Rinv_0_lt_compat; lra).
    unfold Rdiv. nra.
  - intros HS. apply (ltb_V 0 _ eq_refl Nd). rewrite V_0.
    pose proof (Hpos HS). pose proof (bpow_pos (-3)). lra.
Qed.

(** Equal intervals: the mean is the interval, every deviation is zero,
    and so is the irregularity. *)
Lemma constant_intervals (d : Z) (ds : list Z) :
  ds <> [] -> (List.length ds <= 8)%nat -> (Z.abs d <= 2 ^ 50)%Z ->
  Forall (fun x => x = d) ds ->
  let l := map Number.of_Z ds in
  (0 <? mean l)%float = true ->
  V (Number.min 1 (sd l / mean l * 3)%float) = 0%R
  /\ is_nan (Number.min 1 (sd l / mean l * 3)%float) = false.
Proof.
  intros Hne Hlen Hd Hall; cbn zeta; intros Hpos.
  assert (Hds : Forall (fun x => Z.abs x <= 2 ^ 50)%Z ds).
  { revert Hall. apply Forall_impl. now intros x ->. }
  destruct (mean_of_intervals Hne Hlen Hds) as (Hm & Wm & _ & _). cbn zeta in Hm, Wm.
  set (n := List.length ds) in *.
  assert (Hn : (1 <= n <= 8)%nat).
  { unfold n. destruct ds; [congruence|cbn [List.length] in *; lia]. }
  rewrite (sum_constant 0 Hall) in Hm. fold n in Hm.
  assert (Pn : (1 <= IZR (Z.of_nat n))%R) by (apply (IZR_le 1); lia).
  assert (P53 : (2 ^ 50 <= 2 ^ 53)%Z) by (apply Z.pow_le_mono_r; lia).
  set (l := map Number.of_Z ds) in *.
  assert (Vm : V (mean l) = IZR d).
  { apply (R64_unique _ _ _ Hm).
    replace (IZR (0 + Z.of_nat n * d) / IZR (Z.of_nat n))%R with (IZR d).
    - apply R64_int. lia.
    - rewrite Z.add_0_l, mult_IZR. field. apply Rgt_not_eq. lra. }
  destruct Wm as [Fm _].
  destruct (of_Z_exact d) as [Vd Fd]; [lia|].
  (* every square is zero *)
  assert (Hsq : Forall (fun t => V t = 0%R /\ is_finite t = true)
                  (map (fun b => (b - mean l) * (b - mean l))%float l)).
  { apply Forall_map. apply Forall_forall. intros x Hx. unfold l in Hx.
    apply in_map_iff in Hx as (z & <- & Hz).
    rewrite Forall_forall in Hall. rewrite (Hall z Hz). destruct (sub_V (Number.of_Z d) (mean l) Fd Fm) as [Hs Ns].
    rewrite Vd, Vm in Hs.
    assert (Vs : V (Number.of_Z d - mean l)%float = 0%R).
    { apply (R64_unique _ _ _ Hs). replace (IZR d - IZR d)%R with 0%R by lra. exact R64_0. }
    assert (Fs : is_finite (Number.of_Z d - mean l)%float = true).
    { apply (between_finite _ 0 0 Ns eq_refl eq_refl). rewrite Vs. lra. }
    destruct (mul_V _ _ Fs Fs) as [Hq Nq]. rewrite Vs, Rmult_0_l in Hq.
    assert (Vq : V ((Number.of_Z d - mean l) * (Number.of_Z d - mean l))%float = 0%R)
      by exact (R64_unique _ _ _ Hq R64_0).
    split; [exact Vq|].
    apply (between_finite _ 0 0 Nq eq_refl eq_refl). rewrite Vq. lra. }
  assert (Hsum : forall (ts : list float) acc,
             Forall (fun t => V t = 0%R /\ is_finite t = true) ts ->
             V acc = 0%R -> is_finite acc = true ->
             V (fold_left PrimFloat.add ts acc) = 0%R
             /\ is_finite (fold_left PrimFloat.add ts acc) = true).
  { induction ts as [|t ts IH]; intros acc Ht Va Fa; [now split|].
    cbn [fold_left]. inversion Ht as [|? ? [Vt Ft] Ht']; subst.
    destruct (add_V acc t Fa Ft) as [Ha Na]. rewrite Va, Vt, Rplus_0_l in Ha.
    assert (Va' : V (acc + t)%float = 0%R) by exact (R64_unique _ _ _ Ha R64_0).
    apply IH; [exact Ht'|exact Va'|].
    apply (between_finite _ 0 0 Na eq_refl eq_refl). rewrite Va'. lra. }
  destruct (Hsum _ 0%float Hsq V_0 eq_refl) as [VS FS].
  rewrite <- fold_left_map_add in VS, FS.
  set (S := fold_left (fun a b => a + (b - mean l) * (b - mean l))%float l 0%float) in *.
  destruct (of_Z_exact (Z.of_nat n)) as [Vn Fn]; [lia|].
  destruct (div_V S _ FS Fn) as [Hq Nq]; [rewrite Vn; apply Rgt_not_eq; lra|].
  rewrite VS, Vn in Hq. unfold Rdiv in Hq. rewrite Rmult_0_l in Hq.
  assert (Vq : V (S / Number.of_Z (Z.of_nat n))%float = 0%R) by exact (R64_unique _ _ _ Hq R64_0).
  assert (Fq : is_finite (S / Number.of_Z (Z.of_nat n))%float = true).
  { apply (between_finite _ 0 0 Nq eq_refl eq_refl). rewrite Vq. lra. }
  assert (Esd : sd l = PrimFloat.sqrt (S / Number.of_Z (Z.of_nat n))%float).
  { unfold sd, Number.of_nat, S, l. now rewrite length_map. }
  destruct (sqrt_V _ Fq) as [Hr Nr]; [rewrite Vq; lra|].
  rewrite Vq, sqrt_0 in Hr. rewrite <- Esd in Hr, Nr.
  assert (Vsd : V (sd l) = 0%R) by exact (R64_unique _ _ _ Hr R64_0).
  assert (Fsd : is_finite (sd l) = true).
  { apply (between_finite _ 0 0 Nr eq_refl eq_refl). rewrite Vsd. lra. }
  apply ltb_true in Hpos. rewrite V_0 in Hpos.
  destruct (div_V (sd l) (mean l) Fsd Fm) as [Hc Nc]; [apply Rgt_not_eq; lra|].
  rewrite Vsd in Hc. unfold Rdiv in Hc. rewrite Rmult_0_l in Hc.
  assert (Vc : V (sd l / mean l)%float = 0%R) by exact (R64_unique _ _ _ Hc R64_0).
  assert (Fc : is_finite (sd l / mean l)%float = true).
  { apply (between_finite _ 0 0 Nc eq_refl eq_refl). rewrite Vc. lra. }
  destruct (V_int 3 3 eq_refl) as [V3 F3]; [vm_compute; discriminate|].
  destruct (mul_V _ 3 Fc F3) as [H3 N3]. rewrite Vc, Rmult_0_l in H3.
  assert (Vz : V (sd l / mean l * 3)%float = 0%R) by exact (R64_unique _ _ _ H3 R64_0).
  destruct (V_int 1 1 eq_refl) as [V1 F1]; [vm_compute; discriminate|].
  destruct (min_V 1 _ (finite_not_nan _ F1) N3) as (Vr & Nr' & _).
  split; [|exact Nr']. rewrite Vr, Vz, V1. apply Rmin_right. lra.
Qed.

(** Two different intervals and a positive sum: the irregularity is above
    zero. *)
Lemma different_intervals (d1 d2 : Z) (ds : list Z) :
  (List.length ds <= 8)%nat -> Forall (fun d => Z.abs d <= 2 ^ 50)%Z ds ->
  In d1 ds -> In d2 ds -> d1 <> d2 -> (0 < fold_left Z.add ds 0)%Z ->
  let l := map Number.of_Z ds in
  (0 < V (Number.min 1 (sd l / mean l * 3)%float))%R.
Proof.
  intros Hlen Hds I1 I2 Hne HS; cbn zeta.
  assert (Hne' : ds <> []) by (intros ->; inversion I1).
  destruct (mean_of_intervals Hne' Hlen Hds) as (Hm & Wm & Hlt & Hge).
  cbn zeta in Hm, Wm, Hlt, Hge. specialize (Hge HS).
  set (n := List.length ds) in *.
  assert (Hn : (1 <= n <= 8)%nat).
  { unfold n. destruct ds; [congruence|cbn [List.length] in *; lia]. }
  set (l := map Number.of_Z ds) in *.
  pose proof Wm as [Fm [Bm1 Bm2]].
  assert (P53 : (2 ^ 50 <= 2 ^ 53)%Z) by (apply Z.pow_le_mono_r; lia).
  pose proof (bpow_pos (-3)) as P3.
  (* an interval away from the mean *)
  assert (Hd : exists d, In d ds /\ IZR d <> V (mean l)).
  { destruct (Req_dec (IZR d1) (V (mean l))) as [E|E].
    - exists d2. split; [exact I2|]. intros E'. apply Hne. apply eq_IZR. congruence.
    - exists d1. now split. }
  destruct Hd as (d & Id & Hdm).
  assert (Bd : (Z.abs d <= 2 ^ 50)%Z) by (rewrite Forall_forall in Hds; now apply Hds).
  destruct (of_Z_exact d) as [Vd Fd]; [lia|].
  (* all deviations are finite *)
  assert (Hfin : Forall (fun x => is_finite (x - mean l)%float = true) l).
  { unfold l at 1. apply Forall_map. revert Hds. apply Forall_impl. intros x Hx.
    assert (Wx : within (Number.of_Z x) 50) by (apply of_Z_within; [exact Hx|lia]).
    apply (within_sub (Number.of_Z x) (mean l) 50 50 51 Wx Wm); lia. }
  (* the deviation of [d] is at least 2^-55 in magnitude *)
  destruct (grid (mean l) Fm Hge) as [N HN].
  assert (Hdev : (bpow (-55) <= Rabs (IZR d - V (mean l)))%R).
  { rewrite HN.
    assert (E : IZR d = (IZR (d * 2 ^ 55) * bpow (-55))%R).
    { rewrite mult_IZR, <- (bpow_IZR 55) by lia. rewrite Rmult_assoc, <- bpow_add.
      change (55 + -55)%Z with 0%Z. rewrite bpow_0. lra. }
    rewrite E, <- Rmult_minus_distr_r, <- minus_IZR, Rabs_mult.
    pose proof (bpow_pos (-55)) as P55. rewrite (Rabs_pos_eq (bpow (-55))) by lra.
    assert (K : (d * 2 ^ 55 - N <> 0)%Z).
    { intros K. apply Hdm. rewrite HN, E. f_equal. f_equal. lia. }
    assert (1 <= Rabs (IZR (d * 2 ^ 55 - N)))%R.
    { rewrite <- abs_IZR. apply (IZR_le 1). lia. }
    nra. }
  destruct (sub_V (Number.of_Z d) (mean l) Fd Fm) as [Hu Nu]. rewrite Vd in Hu.
  set (u := (Number.of_Z d - mean l)%float) in *.
  assert (R55 : R64 (bpow (-55)) (bpow (-55))) by (apply R64_bpow; lia).
  assert (Hu' : (bpow (-55) <= Rabs (V u))%R).
  { unfold Rabs in *. destruct (Rcase_abs (IZR d - V (mean l))) as [G|G].
    - assert (V u <= - bpow (-55))%R.
      { apply (R64_mono (IZR d - V (mean l)) (- bpow (-55)) _ _); [lra|exact Hu|].
        now apply R64_opp. }
      destruct (Rcase_abs (V u)); lra.
    - assert (bpow (-55) <= V u)%R by (apply (R64_mono _ _ _ _ Hdev R55 Hu)).
      destruct (Rcase_abs (V u)); lra. }
  assert (Fu : is_finite u = true).
  { rewrite Forall_forall in Hfin. apply Hfin. unfold l. now apply in_map. }
  destruct (mul_V u u Fu Fu) as [Ht Nt].
  assert (Hsq : (bpow (-110) <= V (u * u)%float)%R).
  { apply (R64_mono (bpow (-110)) (V u * V u) _ _); [|apply R64_bpow; lia|exact Ht].
    change (-110)%Z with (-55 + -55)%Z. rewrite bpow_add.
    pose proof (bpow_pos (-55)). unfold Rabs in Hu'. destruct (Rcase_abs (V u)); nra. }
  (* the sum of squares *)
  set (sq := fun b : float => ((b - mean l) * (b - mean l))%float).
  assert (Hnn : Forall nonneg (map sq l)).
  { apply Forall_map. revert Hfin. apply Forall_impl. intros x Fx.
    apply mul_nonneg_finite; [exact Fx|exact Fx|apply Rle_0_sqr]. }
  assert (HS' : (bpow (-110) <= V (fold_left PrimFloat.add (map sq l) 0%float))%R).
  { apply sum_lower; [lia|exact Hnn|exact nonneg_0|]. right.
    apply Exists_exists. exists (sq (Number.of_Z d)). split; [|exact Hsq].
    apply in_map. unfold l. now apply in_map. }
  assert (NS : nonneg (fold_left PrimFloat.add (map sq l) 0%float))
    by (apply sum_nonneg; [exact Hnn|exact nonneg_0]).
  rewrite <- (fold_left_map_add sq) in HS', NS.
  destruct (@of_nat_posfin n) as [Pn Gn]; [lia|].
  assert (Ln : (V (Number.of_nat n) <= bpow 3)%R).
  { unfold Number.of_nat. destruct (of_Z_exact (Z.of_nat n)) as [-> _]; [lia|].
    rewrite (bpow_IZR 3) by lia. apply IZR_le. change (2 ^ 3)%Z with 8%Z. lia. }
  pose proof (@div_lower _ (Number.of_nat n) 3 (-110) NS Pn Ln ltac:(lia) HS') as Hq.
  assert (Nq : nonneg (fold_left (fun a b => a + sq b) l 0 / Number.of_nat n)%float)
    by (now apply div_nonneg).
  change (-110 - 3)%Z with (-113)%Z in Hq.
  assert (Hq' : (bpow (-57 + -57) <= V (fold_left (fun a b => a + sq b) l 0 / Number.of_nat n)%float)%R).
  { apply Rle_trans with (bpow (-113)); [apply bpow_le; lia|exact Hq]. }
  pose proof (@sqrt_lower _ (-57) Nq ltac:(lia) Hq') as Hsd.
  assert (Esd : sd l = PrimFloat.sqrt (fold_left (fun a b => a + sq b) l 0 / Number.of_nat n)%float).
  { unfold sd, sq, n, l. now rewrite length_map. }
  rewrite <- Esd in Hsd.
  assert (Nsd : nonneg (sd l)) by (rewrite Esd; now apply sqrt_nonneg).
  assert (Pm : posfin (mean l)) by (split; [exact Fm|lra]).
  pose proof (@div_lower (sd l) (mean l) 50 (-57) Nsd Pm Bm2 ltac:(lia) Hsd) as Hcv.
  change (-57 - 50)%Z with (-107)%Z in Hcv.
  assert (Ncv : nonneg (sd l / mean l)%float) by (now apply div_nonneg).
  destruct (V_int 3 3 eq_refl) as [V3 F3]; [vm_compute; discriminate|].
  assert (P3' : posfin 3) by (split; [exact F3|rewrite V3; lra]).
  pose proof (@mul_lower _ 3 (-107) Ncv P3' ltac:(rewrite V3; lra) ltac:(lia) Hcv) as Hz.
  pose proof (mul_nonneg _ _ Ncv P3') as [Nz _].
  destruct (V_int 1 1 eq_refl) as [V1 F1]; [vm_compute; discriminate|].
  destruct (min_V 1 _ (finite_not_nan _ F1) Nz) as (Vr & _ & _).
  rewrite Vr, V1. pose proof (bpow_pos (-107)).
  apply Rmin_glb_lt; lra.
Qed.

(** X10. Without a device history, and for intervals of magnitude at most
    [2^50] milliseconds, the irregularity is 0 exactly when the sum of the
    last eight inter-beat intervals, and so their mean, is not positive, or
    they are all equal. *)
Theorem regular_rhythm_scores_zero (a : app) :
  history a = [] ->
  let intervals := slice_last 8 (ibis (beatsRef a)) in
  Forall (fun d => Z.abs d <= 2 ^ 50)%Z intervals ->
  ((rhythm_irregularity a =? 0)%float = true
   <-> ((fold_left Z.add intervals 0 <= 0)%Z \/ exists d, Forall (fun x => x = d) intervals))
  /\ (intervals <> [] ->
      ((0 <? mean (map Number.of_Z intervals))%float = true
       <-> (0 < fold_left Z.add intervals 0)%Z)).
Proof.
  intros Hh; cbn zeta; intros Hds. rewrite (rhythm_fallback a Hh). cbn zeta.
  set (ds := slice_last 8 (ibis (beatsRef a))) in *.
  assert (Hlen : (List.length ds <= 8)%nat) by (unfold ds; rewrite slice_last_length; lia).
  destruct ds as [|d0 ds'] eqn:E.
  { split; [|congruence]. split; [intros _; left; cbn; lia|reflexivity]. }
  rewrite <- E in *. assert (Hne : ds <> []) by (rewrite E; discriminate).
  destruct (mean_of_intervals Hne Hlen Hds) as (_ & _ & Hlt & _). cbn zeta in Hlt.
  split; [|intros _; exact Hlt].
  destruct (0 <? mean (map Number.of_Z ds))%float eqn:Hpos.
  - pose proof (proj1 Hlt eq_refl) as HS. split.
    + intros Hz. right.
      destruct (constant_or_not ds) as [Hc|(d1 & d2 & I1 & I2 & Hd)]; [exact Hc|exfalso].
      pose proof (@different_intervals d1 d2 ds Hlen Hds I1 I2 Hd HS) as Hgt.
      cbn zeta in Hgt.
      destruct (eqb_nonnan _ _ Hz) as [Nr _].
      apply (eqb_V _ 0 Nr eq_refl) in Hz. rewrite V_0 in Hz. lra.
    + intros [Hle|[d Hall]]; [lia|].
      assert (Bd : (Z.abs d <= 2 ^ 50)%Z).
      { rewrite E in Hall, Hds. inversion Hall; subst. now inversion Hds. }
      destruct (@constant_intervals d ds Hne Hlen Bd Hall Hpos) as [Vr Nr].
      apply (eqb_V _ 0 Nr eq_refl). now rewrite V_0.
  - split; [intros _; left|intros _; reflexivity].
    destruct (Z.lt_ge_cases 0 (fold_left Z.add ds 0%Z)) as [G|G]; [|exact G].
    apply Hlt in G. discriminate.
Qed.

Lemma regular_rhythm_scores_zero_witness :
  let a := ui (run start (Opened :: map (fun t => Value t "0.1,0.2,72")
                                     [1000; 1800; 2600; 3400]%Z)) in
  (rhythm_irregularity a =? 0)%float = true.
Proof.
  intros a.
  assert (Hds : Forall (fun d => Z.abs d <= 2 ^ 50)%Z (slice_last 8 (ibis (beatsRef a)))).
  { repeat constructor; vm_compute; discriminate. }
  apply (proj2 (proj1 (@regular_rhythm_scores_zero a eq_refl Hds))).
  right. exists 800%Z. repeat constructor.
Defined.

End Regular.

